(** * Obsidian Elite vector engine: [traceImageToSVG] (src/utils/imageUtils.ts)

    A shallow embedding of the raster-to-vector tracer: the colour
    comparator, the greedy region grower with its visited mask, the
    per-colour path accumulator, the batch scheduler with its progress
    reports, and the document serializer.

    Conventions.
    - Packed pixels are [Z] values in [0, 2^32) as read from the
      [Uint32Array]; the JavaScript operators [>>] and [&] are modelled
      with their ToInt32 conversion written out.
    - Buffer coordinates, widths, heights and indices are [nat].
    - Typed arrays are lists read with stdpp's lookup; a read out of range
      yields [undefined] in JavaScript, which is falsy and converts to 0.
    - The insertion-ordered [Map] is an association list in insertion
      order. *)

From Stdlib Require Import ZArith List Bool Lia QArith Qround Qpower Lqa String.
From Stdlib Require Import SpecFloat Sorted.
From stdpp Require Import base list strings pretty.

Local Open Scope Z_scope.

(** ** JavaScript 32-bit integer operators *)

Module JS.

(** ToInt32: reduction modulo 2^32 into the signed range. *)
Definition toInt32 (n : Z) : Z := (n + 2 ^ 31) mod 2 ^ 32 - 2 ^ 31.

(** [a >> k]: sign-propagating right shift of the Int32 value. *)
Definition sar (a k : Z) : Z := Z.shiftr (toInt32 a) k.

(** [a & b] on Int32 values. *)
Definition band (a b : Z) : Z := toInt32 (Z.land (toInt32 a) (toInt32 b)).

End JS.

(** ** Channels of a packed pixel *)

(** [(color >> 24) & 0xff], [(color >> 16) & 0xff], [(color >> 8) & 0xff]
    and [color & 0xff], as written in the source. *)
Definition alphaOf (color : Z) : Z := JS.band (JS.sar color 24) 255.
Definition blueOf (color : Z) : Z := JS.band (JS.sar color 16) 255.
Definition greenOf (color : Z) : Z := JS.band (JS.sar color 8) 255.
Definition redOf (color : Z) : Z := JS.band color 255.

(** The byte at bit offset [8 * k] of a packed value: the reading of a
    channel that the data model gives (alpha highest byte, then blue,
    green, red). *)
Definition byteAt (k : Z) (color : Z) : Z := (color / 2 ^ (8 * k)) mod 256.

(** ** Color comparator *)

Definition isColorSimilar (color1 color2 tol : Z) : bool :=
  if color1 =? color2 then true
  else
    let a1 := alphaOf color1 in
    let a2 := alphaOf color2 in
    if (a1 <? 2) && (a2 <? 2) then true
    else if Z.abs (a1 - a2) >? tol then false
    else
      let b1 := blueOf color1 in
      let g1 := greenOf color1 in
      let r1 := redOf color1 in
      let b2 := blueOf color2 in
      let g2 := greenOf color2 in
      let r2 := redOf color2 in
      (Z.abs (r1 - r2) <=? tol) && (Z.abs (g1 - g2) <=? tol)
      && (Z.abs (b1 - b2) <=? tol).

(** The comparator as the component design words it. *)
Definition similarSpec (c1 c2 tol : Z) : Prop :=
  c1 = c2
  \/ (byteAt 3 c1 < 2 /\ byteAt 3 c2 < 2)
  \/ (Z.abs (byteAt 3 c1 - byteAt 3 c2) <= tol
      /\ Z.abs (byteAt 0 c1 - byteAt 0 c2) <= tol
      /\ Z.abs (byteAt 1 c1 - byteAt 1 c2) <= tol
      /\ Z.abs (byteAt 2 c1 - byteAt 2 c2) <= tol).

Definition isUint32 (c : Z) : Prop := 0 <= c < 2 ^ 32.

(** ** IEEE-754 binary64 arithmetic

    A JavaScript Number is modelled by the rational it denotes. Each
    operation rounds the exact result to the nearest binary64 value, ties
    to even. Overflow to infinity and subnormal results are outside the
    model: every quantity the engine computes lies between 2^-1022 and
    2^1024 in magnitude. *)

Module F64.
Local Open Scope Q_scope.

Definition pow2 (e : Z) : Q := Qpower 2 e.

(** floor (log2 q), for [q > 0] *)
Definition ilog2 (q : Q) : Z :=
  let k := (Z.log2 (Qnum q) - Z.log2 (Zpos (Qden q)))%Z in
  if Qle_bool (pow2 k) q then k else (k - 1)%Z.

(** nearest integer, ties to even *)
Definition rne (q : Q) : Z :=
  let f := Qfloor q in
  match Qcompare (q - inject_Z f) (1 # 2) with
  | Lt => f
  | Gt => (f + 1)%Z
  | Eq => if Z.even f then f else (f + 1)%Z
  end.

(** 53 significant bits *)
Definition roundPos (q : Q) : Q :=
  let e := (ilog2 q - 52)%Z in
  inject_Z (rne (q / pow2 e)) * pow2 e.

Definition round (q : Q) : Q :=
  match Qcompare q 0 with
  | Eq => 0
  | Gt => roundPos q
  | Lt => - roundPos (- q)
  end.

Definition div (x y : Q) : Q := round (x / y).
Definition mul (x y : Q) : Q := round (x * y).
Definition add (x y : Q) : Q := round (x + y).
Definition sub (x y : Q) : Q := round (x - y).

(** [Math.min] of two finite numbers *)
Definition min (x y : Q) : Q := if Qle_bool x y then x else y.

(** [Math.floor] *)
Definition floor (x : Q) : Z := Qfloor x.

Definition ofNat (n : nat) : Q := inject_Z (Z.of_nat n).

End F64.

(** ** Number to string conversions

    [Number::toString] (used by template literals) and
    [Number.prototype.toFixed], after ECMA-262, for finite values. *)

Module JSNumber.
Local Open Scope Q_scope.

Definition pow10 (e : Z) : Q := Qpower 10 e.

(** the [n] with [10^(n-1) <= v < 10^n], for [v > 0] *)
Definition decExp (v : Q) : Z :=
  let n0 := if Qle_bool 1 v
            then Z.of_nat (String.length (pretty (Qfloor v)))
            else (1 - Z.of_nat (String.length (pretty (Qfloor (/ v)))))%Z in
  if Qle_bool (pow10 n0) v then (n0 + 1)%Z
  else if Qle_bool (pow10 (n0 - 1)) v then n0
  else (n0 - 1)%Z.

(** does the decimal [s * 10^(n-k)] denote the Number [v]? *)
Definition denotes (v : Q) (s n k : Z) : bool :=
  Qeq_bool (F64.round (inject_Z s * pow10 (n - k))) v.

(** the digits [s] for the least number of digits [k], the decimal
    nearest to [v] first *)
Fixpoint shortest (fuel : nat) (k : Z) (v : Q) (n : Z) : Z * Z :=
  let x := v * pow10 (k - n) in
  let lo := Qfloor x in
  let hi := (lo + 1)%Z in
  let loFirst := Qle_bool (x - inject_Z lo) (inject_Z hi - x) in
  let c1 := if loFirst then lo else hi in
  let c2 := if loFirst then hi else lo in
  if denotes v c1 n k then (c1, k)
  else if denotes v c2 n k then (c2, k)
  else match fuel with
       | O => (lo, k)
       | S fuel' => shortest fuel' (k + 1) v n
       end.

Definition zeros (n : Z) : string :=
  String.concat EmptyString (replicate (Z.to_nat n) "0"%string).

Definition render (s n k : Z) : string :=
  let digits := pretty s in
  if ((k <=? n) && (n <=? 21))%Z then digits +:+ zeros (n - k)
  else if ((0 <? n) && (n <=? 21))%Z then
    String.substring 0 (Z.to_nat n) digits +:+ "."
    +:+ String.substring (Z.to_nat n) (Z.to_nat (k - n)) digits
  else if ((-6 <? n) && (n <=? 0))%Z then "0." +:+ zeros (- n) +:+ digits
  else
    let e := (n - 1)%Z in
    let es := if (0 <=? e)%Z then "+" +:+ pretty e else "-" +:+ pretty (- e)%Z in
    if (k =? 1)%Z then digits +:+ "e" +:+ es
    else String.substring 0 1 digits +:+ "."
         +:+ String.substring 1 (Z.to_nat (k - 1)) digits +:+ "e" +:+ es.

Definition toStringPos (v : Q) : string :=
  let n := decExp v in
  let '(s, k) := shortest 16 1 v n in
  if (s =? 10 ^ k)%Z then render 1 (n + 1) 1 else render s n k.

Definition toString (v : Q) : string :=
  match Qcompare v 0 with
  | Eq => "0"
  | Gt => toStringPos v
  | Lt => "-" +:+ toStringPos (- v)
  end.

(** [v.toFixed(f)] for [0 <= v < 10^21]: the nearest [n / 10^f], the
    larger [n] on a tie, written with [f] fraction digits *)
Definition toFixed (v : Q) (f : nat) : string :=
  let x := v * pow10 (Z.of_nat f) in
  let lo := Qfloor x in
  let n := if Qlt_le_dec (x - inject_Z lo) (1 # 2) then lo else (lo + 1)%Z in
  let digits := pretty n in
  let padded := zeros (Z.of_nat f + 1 - Z.of_nat (String.length digits)) +:+ digits in
  let ip := (String.length padded - f)%nat in
  if (f =? 0)%nat then padded
  else String.substring 0 ip padded +:+ "." +:+ String.substring ip f padded.

End JSNumber.

(** ** The Standard Library's binary64, for comparison

    [SpecFloat] specifies IEEE 754 operations on mantissa and exponent.
    The two functions below carry a positive integer below 2^53 into that
    representation and a finite value back to the rational it denotes, so
    that [F64] can be compared with it on samples. *)

Definition sfValue (f : SpecFloat.spec_float) : Q :=
  match f with
  | SpecFloat.S754_finite s m e =>
      ((if s then -1 else 1) * inject_Z (Zpos m) * Qpower 2 e)%Q
  | _ => 0%Q
  end.

Definition sfOfPos (p : positive) : SpecFloat.spec_float :=
  let sh := 52 - Z.log2 (Zpos p) in
  SpecFloat.S754_finite false (Pos.shiftl p (Z.to_N sh)) (- sh).

(** [a / b] and [(a / b) * c] agree in both models. *)
Definition agreesWithSpecFloat (a b c : positive) : bool :=
  Qeq_bool (F64.div (inject_Z (Zpos a)) (inject_Z (Zpos b)))
           (sfValue (SpecFloat.SFdiv 53 1024 (sfOfPos a) (sfOfPos b)))
  && Qeq_bool (F64.mul (F64.div (inject_Z (Zpos a)) (inject_Z (Zpos b)))
                       (inject_Z (Zpos c)))
              (sfValue (SpecFloat.SFmul 53 1024
                          (SpecFloat.SFdiv 53 1024 (sfOfPos a) (sfOfPos b))
                          (sfOfPos c))).

Local Open Scope nat_scope.

(** ** Data model *)

(** A committed rectangle [(x, y, w, h, colorKey)]. *)
Record RegionRect := mkRect {
  rx : nat; ry : nat; rw : nat; rh : nat; rcolor : Z
}.

(** What the grower does with an unvisited pixel: it commits a rectangle
    anchored there, or records a transparent pixel and skips it. *)
Inductive Event :=
| Commit (r : RegionRect)
| SkipTransparent (x y : nat).

(** [colorPaths : Map<number, string[]>], in insertion order. *)
Definition PathMap := list (Z * list string).

(** The mutable state of the grow phase: the [visited] mask, the
    [processed] counter and the [colorPaths] map of the source, and the
    stream of regions the component design speaks of (the source keeps
    only their path commands). *)
Record GrowState := mkGrow {
  visited : list bool;
  processed : nat;
  colorPaths : PathMap;
  regions : list Event
}.

(** The value handed to [onProgress]: [Math.floor] of a finite number, or
    NaN or Infinity when [total] is 0. *)
Inductive Reported :=
| Percent (p : Z)
| NotANumber
| PositiveInfinity.

(** ** Insertion-ordered map *)

Fixpoint mapHas (m : PathMap) (key : Z) : bool :=
  match m with
  | [] => false
  | (k, _) :: m' => if (k =? key)%Z then true else mapHas m' key
  end.

Fixpoint mapGet (m : PathMap) (key : Z) : list string :=
  match m with
  | [] => []
  | (k, d) :: m' => if (k =? key)%Z then d else mapGet m' key
  end.

(** [set] keeps the position of a key already present and appends a new
    key at the end. *)
Fixpoint mapSet (m : PathMap) (key : Z) (value : list string) : PathMap :=
  match m with
  | [] => [(key, value)]
  | (k, d) :: m' =>
      if (k =? key)%Z then (k, value) :: m' else (k, d) :: mapSet m' key value
  end.

(** [if (!colorPaths.has(color)) colorPaths.set(color, []);
     colorPaths.get(color)!.push(cmd)] *)
Definition pushPath (m : PathMap) (color : Z) (cmd : string) : PathMap :=
  let m1 := if mapHas m color then m else mapSet m color [] in
  mapSet m1 color (mapGet m1 color ++ [cmd]).

(** ** Path accumulator *)

(** [const b = 0.2] *)
Definition bleed : Q := F64.round (2 # 10).

(** [`${x - b}`] and [`${rectW + b * 2}`] *)
Definition bledOrigin (x : nat) : string :=
  JSNumber.toString (F64.sub (F64.ofNat x) bleed).

Definition bledExtent (n : nat) : string :=
  JSNumber.toString (F64.add (F64.ofNat n) (F64.mul bleed 2)).

(** [`M${x - b},${y - b}h${rectW + b * 2}v${rectH + b * 2}h-${rectW + b * 2}z`] *)
Definition rectCommand (x y rectW rectH : nat) : string :=
  "M" +:+ bledOrigin x +:+ "," +:+ bledOrigin y
  +:+ "h" +:+ bledExtent rectW +:+ "v" +:+ bledExtent rectH
  +:+ "h-" +:+ bledExtent rectW +:+ "z".

Definition commandOf (r : RegionRect) : string :=
  rectCommand (rx r) (ry r) (rw r) (rh r).

(** ** Region grower *)

Definition BATCH_ROWS : nat := 25.

Section Grow.

Variables targetWidth targetHeight : nat.
Variable data : list Z.
Variable tolerance : Z.

(** [visited[i]] as a condition, and [data[i]] as a 32-bit operand. *)
Definition vis (v : list bool) (i : nat) : bool := default false (v !! i).
Definition pixel (i : nat) : Z := default 0%Z (data !! i).

(** Greedy horizontal:
    [while (x + rectW < targetWidth && !visited[idx + rectW]
            && isColorSimilar(color, data[idx + rectW], tol)) rectW++] *)
Fixpoint growWidth (v : list bool) (x idx : nat) (color : Z)
    (fuel rectW : nat) : nat :=
  match fuel with
  | O => rectW
  | S fuel' =>
      if (x + rectW <? targetWidth)
         && negb (vis v (idx + rectW))
         && isColorSimilar color (pixel (idx + rectW)) tolerance
      then growWidth v x idx color fuel' (S rectW)
      else rectW
  end.

(** The inner [for (dw ...)] of the vertical growth: [canExpand] after
    the candidate row [row] has been checked over [x, x + rectW). *)
Definition rowQualifies (v : list bool) (x row : nat) (color : Z)
    (rectW : nat) : bool :=
  forallb (fun dw =>
             let checkIdx := row * targetWidth + (x + dw) in
             negb (vis v checkIdx
                   || negb (isColorSimilar color (pixel checkIdx) tolerance)))
          (seq 0 rectW).

(** Greedy vertical:
    [while (canExpand && y + rectH < targetHeight) { ...; if (canExpand) rectH++ }] *)
Fixpoint growHeight (v : list bool) (x y : nat) (color : Z) (rectW : nat)
    (fuel rectH : nat) : nat :=
  match fuel with
  | O => rectH
  | S fuel' =>
      if y + rectH <? targetHeight then
        if rowQualifies v x (y + rectH) color rectW
        then growHeight v x y color rectW fuel' (S rectH)
        else rectH
      else rectH
  end.

(** [if (!visited[vIdx]) { visited[vIdx] = 1; processed++; }] *)
Definition mark (vp : list bool * nat) (vIdx : nat) : list bool * nat :=
  if vis (fst vp) vIdx then vp
  else (<[vIdx := true]> (fst vp), S (snd vp)).

(** Commit and mark: the two nested [for] loops over the rectangle. *)
Definition commitRect (vp : list bool * nat) (x y rectW rectH : nat)
    : list bool * nat :=
  foldl (fun vp1 vY =>
           foldl (fun vp2 vX => mark vp2 ((y + vY) * targetWidth + (x + vX)))
                 vp1 (seq 0 rectW))
        vp (seq 0 rectH).

(** The rectangle grown from the anchor [(x, y)] under the mask [v]. *)
Definition grownRect (v : list bool) (x y : nat) : RegionRect :=
  let idx := y * targetWidth + x in
  let color := pixel idx in
  let rectW := growWidth v x idx color targetWidth 0 in
  let rectH := growHeight v x y color rectW targetHeight 1 in
  mkRect x y rectW rectH color.

(** The body of the [for (x ...)] loop. *)
Definition pixelStep (y : nat) (st : GrowState) (x : nat) : GrowState :=
  let idx := y * targetWidth + x in
  if vis (visited st) idx then st
  else
    let color := pixel idx in
    if (alphaOf color <? 2)%Z then
      mkGrow (<[idx := true]> (visited st)) (S (processed st))
             (colorPaths st) (regions st ++ [SkipTransparent x y])
    else
      let r := grownRect (visited st) x y in
      let vp := commitRect (visited st, processed st) x y (rw r) (rh r) in
      mkGrow (fst vp) (snd vp)
             (pushPath (colorPaths st) color (commandOf r))
             (regions st ++ [Commit r]).

(** [for (let x = 0; x < targetWidth; x++)] *)
Definition scanRow (st : GrowState) (y : nat) : GrowState :=
  foldl (pixelStep y) st (seq 0 targetWidth).

(** [for (let y = batchY; y < endY; y++)] *)
Definition scanRows (st : GrowState) (batchY endY : nat) : GrowState :=
  foldl scanRow st (seq batchY (endY - batchY)).

(** [Math.floor((processed / total) * 100)] *)
Definition percentOf (processed total : nat) : Reported :=
  if total =? 0 then
    if processed =? 0 then NotANumber else PositiveInfinity
  else Percent (F64.floor
                  (F64.mul (F64.div (F64.ofNat processed) (F64.ofNat total)) 100)).

(** [for (let batchY = 0; batchY < targetHeight; batchY += BATCH_ROWS)]:
    a batch of rows, then one call of [onProgress]. The calls are
    collected in order. *)
Fixpoint batchLoop (fuel batchY : nat) (st : GrowState)
    (reports : list Reported) : GrowState * list Reported :=
  match fuel with
  | O => (st, reports)
  | S fuel' =>
      if batchY <? targetHeight then
        let endY := Nat.min (batchY + BATCH_ROWS) targetHeight in
        let st' := scanRows st batchY endY in
        let total := targetWidth * targetHeight in
        batchLoop fuel' (batchY + BATCH_ROWS) st'
                  (reports ++ [percentOf (processed st') total])
      else (st, reports)
  end.

(** [visited = new Uint8Array(targetWidth * targetHeight)],
    [processed = 0], [colorPaths = new Map()]. *)
Definition initialState : GrowState :=
  mkGrow (replicate (targetWidth * targetHeight) false) 0 [] [].

(** The grow phase: final state and the progress reports. Every
    iteration advances [batchY] by 25, so [targetHeight] iterations
    always reach the loop exit. *)
Definition growPhase : GrowState * list Reported :=
  batchLoop targetHeight 0 initialState [].

End Grow.

(** ** Document serializer *)

Definition dq : string := String (Ascii.ascii_of_nat 34) EmptyString.
Definition nl : string := String (Ascii.ascii_of_nat 10) EmptyString.

Definition showInt (n : Z) : string := JSNumber.toString (inject_Z n).

(** [`rgba(${r},${g},${b},${a.toFixed(4)})`] *)
Definition rgbaOf (color : Z) : string :=
  let r := redOf color in
  let g := greenOf color in
  let b := blueOf color in
  let a := F64.div (inject_Z (alphaOf color)) 255 in
  "rgba(" +:+ showInt r +:+ "," +:+ showInt g +:+ "," +:+ showInt b +:+ ","
  +:+ JSNumber.toFixed a 4 +:+ ")".

(** One shape element: the callback of [colorPaths.forEach]. *)
Definition pathElement (entry : Z * list string) : string :=
  let '(color, dArray) := entry in
  let rgba := rgbaOf color in
  "<path d=" +:+ dq +:+ String.concat EmptyString dArray +:+ dq
  +:+ " fill=" +:+ dq +:+ rgba +:+ dq
  +:+ " stroke=" +:+ dq +:+ rgba +:+ dq
  +:+ " stroke-width=" +:+ dq +:+ "0.5" +:+ dq
  +:+ " stroke-linejoin=" +:+ dq +:+ "round" +:+ dq +:+ " />".

Definition svgOpen (targetWidth targetHeight : nat) : string :=
  let w := JSNumber.toString (F64.ofNat targetWidth) in
  let h := JSNumber.toString (F64.ofNat targetHeight) in
  "<svg " +:+ nl
  +:+ "    xmlns=" +:+ dq +:+ "http://www.w3.org/2000/svg" +:+ dq +:+ " " +:+ nl
  +:+ "    viewBox=" +:+ dq +:+ "0 0 " +:+ w +:+ " " +:+ h +:+ dq +:+ " " +:+ nl
  +:+ "    width=" +:+ dq +:+ w +:+ dq +:+ " " +:+ nl
  +:+ "    height=" +:+ dq +:+ h +:+ dq +:+ nl
  +:+ "    shape-rendering=" +:+ dq +:+ "crispEdges" +:+ dq +:+ nl
  +:+ "    style=" +:+ dq
  +:+ "background:transparent; display:block; image-rendering: -webkit-optimize-contrast; pointer-events: none;"
  +:+ dq +:+ nl
  +:+ "  >" +:+ nl
  +:+ "    ".

Definition svgClose : string := nl +:+ "  </svg>".

Definition serialize (targetWidth targetHeight : nat) (m : PathMap) : string :=
  let pathElements := map pathElement m in
  svgOpen targetWidth targetHeight
  +:+ String.concat EmptyString pathElements
  +:+ svgClose.

(** ** Entry point *)

Record Image := mkImage { width : Z; height : Z }.

Record VectorOptions := mkOptions {
  tolerance : Z;
  maxWidth : Z;
  maxHeight : Z;
  superSample : Z
}.

Definition defaultOptions : VectorOptions := mkOptions 1 4096 4096 2.

(** The browser services the entry point calls: decoding the image
    ([None] when [img.onerror] fires), acquiring the 2d context of a
    canvas of the given size ([false] when [getContext] returns null),
    and drawing and reading back the pixels. *)
Record Host := mkHost {
  loadImage : string -> option Image;
  getContext : nat -> nat -> bool;
  getImageData : Image -> nat -> nat -> list Z
}.

(** How the returned promise can reject: with the event of [img.onerror]
    (the load error of the failure taxonomy), with
    [new Error("Canvas initialization failed")] (its runtime error), or
    with the [DOMException] of the given name that a browser call throws. *)
Inductive TraceError :=
| LoadError
| RuntimeError (message : string)
| DomException (name : string).

Inductive Outcome :=
| Rejected (e : TraceError)
| Resolved (svg : string).

(** [maxWidth / img.width], the dividend being positive: the quotient by
    a side of 0 is [Infinity], written [None]. *)
Definition quotientOf (a b : Z) : option Q :=
  if (b =? 0)%Z then None else Some (F64.div (inject_Z a) (inject_Z b)).

(** [Math.min(maxWidth / img.width, maxHeight / img.height, 1)]: an
    infinite quotient is never the least of the three. *)
Definition scaleOf (options : VectorOptions) (img : Image) : Q :=
  match quotientOf (maxWidth options) (width img),
        quotientOf (maxHeight options) (height img) with
  | Some dw, Some dh => F64.min (F64.min dw dh) 1
  | Some dw, None => F64.min dw 1
  | None, Some dh => F64.min dh 1
  | None, None => 1
  end.

(** [Math.floor(img.width * scale * options.superSample)] *)
Definition targetWidthOf (options : VectorOptions) (img : Image) : Z :=
  F64.floor (F64.mul (F64.mul (inject_Z (width img)) (scaleOf options img))
                     (inject_Z (superSample options))).

Definition targetHeightOf (options : VectorOptions) (img : Image) : Z :=
  F64.floor (F64.mul (F64.mul (inject_Z (height img)) (scaleOf options img))
                     (inject_Z (superSample options))).

(** The result of the promise and the values [onProgress] was called
    with, in order. [ctx.getImageData(0, 0, targetWidth, targetHeight)]
    throws an [IndexSizeError] when a side is 0, before the buffer is
    traced. The options are the positive integers of the callers and the
    image sides are not negative. *)
Definition traceImageToSVG (host : Host) (imgUrl : string)
    (options : VectorOptions) : Outcome * list Reported :=
  match loadImage host imgUrl with
  | None => (Rejected LoadError, [])
  | Some img =>
      let targetWidth := Z.to_nat (targetWidthOf options img) in
      let targetHeight := Z.to_nat (targetHeightOf options img) in
      if negb (getContext host targetWidth targetHeight)
      then (Rejected (RuntimeError "Canvas initialization failed"), [])
      else if (targetWidth =? 0) || (targetHeight =? 0)
      then (Rejected (DomException "IndexSizeError"), [])
      else
        let data := getImageData host img targetWidth targetHeight in
        let '(st, reports) :=
          growPhase targetWidth targetHeight data (tolerance options) in
        (Resolved (serialize targetWidth targetHeight (colorPaths st)), reports)
  end.

(** ** Vocabulary of the properties *)

(** The cells [(px, py)] an event accounts for. *)
Definition covers (e : Event) (px py : nat) : bool :=
  match e with
  | Commit r =>
      (rx r <=? px) && (px <? rx r + rw r) && (ry r <=? py) && (py <? ry r + rh r)
  | SkipTransparent x y => (x =? px) && (y =? py)
  end.

(** How many events of the stream account for the cell [(px, py)]. *)
Definition coverCount (log : list Event) (px py : nat) : nat :=
  length (List.filter (fun e => covers e px py) log).

(** An event lies inside the [W] by [H] grid. *)
Definition inGrid (W H : nat) (e : Event) : Prop :=
  match e with
  | Commit r => rx r + rw r <= W /\ ry r + rh r <= H
  | SkipTransparent x y => x < W /\ y < H
  end.

(** The number of set entries of a mask. *)
Fixpoint countTrue (v : list bool) : nat :=
  match v with
  | [] => 0
  | b :: v' => (if b then 1 else 0) + countTrue v'
  end.

(** The committed rectangles of a stream, in commit order. *)
Fixpoint commits (log : list Event) : list RegionRect :=
  match log with
  | [] => []
  | Commit r :: log' => r :: commits log'
  | SkipTransparent _ _ :: log' => commits log'
  end.

(** The distinct colours of a list, each at its first occurrence. *)
Definition firstOccurrences (cs : list Z) : list Z :=
  foldl (fun acc c => if existsb (Z.eqb c) acc then acc else acc ++ [c]) [] cs.

(** The bled rectangle commands of the rectangles anchored at colour [c],
    in commit order. *)
Definition commandsFor (c : Z) (rs : list RegionRect) : list string :=
  map commandOf (List.filter (fun r => (rcolor r =? c)%Z) rs).

(** The path groups a stream of rectangles should yield: one group per
    distinct anchor colour, in first-occurrence order. *)
Definition groupPaths (rs : list RegionRect) : PathMap :=
  map (fun c => (c, commandsFor c rs)) (firstOccurrences (map rcolor rs)).

(** The indices the commit loops visit, in order. *)
Definition rectIndices (W x y rectW rectH : nat) : list nat :=
  flat_map (fun vY => map (fun vX => (y + vY) * W + (x + vX)) (seq 0 rectW))
           (seq 0 rectH).

(** [a <= b] on reported values, as JavaScript compares them. *)
Definition reportedLe (a b : Reported) : Prop :=
  match a, b with
  | Percent x, Percent y => (x <= y)%Z
  | Percent _, PositiveInfinity => True
  | PositiveInfinity, PositiveInfinity => True
  | _, _ => False
  end.

(** The state after the rows [0 .. n) have been scanned. *)
Definition afterRows (W H : nat) (data : list Z) (tol : Z) (n : nat) : GrowState :=
  scanRows W H data tol (initialState W H) 0 n.

(** The area of a rectangle. *)
Definition area (r : RegionRect) : nat := rw r * rh r.

(** A pixel the growth loops accept: unvisited and similar to the anchor
    colour. *)
Definition candidate (data : list Z) (v : list bool) (color tol : Z) (i : nat) : Prop :=
  vis v i = false /\ isColorSimilar color (pixel data i) tol = true.

(** What every event of a trace satisfies. *)
Definition wellFormed (W H : nat) (data : list Z) (tol : Z) (e : Event) : Prop :=
  match e with
  | Commit r =>
      1 <= rw r /\ 1 <= rh r /\ rx r + rw r <= W /\ ry r + rh r <= H
      /\ rcolor r = pixel data (ry r * W + rx r)
      /\ (2 <= alphaOf (rcolor r))%Z
      /\ (forall px py, covers (Commit r) px py = true ->
                        isColorSimilar (rcolor r) (pixel data (py * W + px)) tol = true)
  | SkipTransparent x y =>
      x < W /\ y < H /\ (alphaOf (pixel data (y * W + x)) < 2)%Z
  end.

(** The invariant of the grow phase. *)
Record Inv (W H : nat) (data : list Z) (tol : Z) (st : GrowState) : Prop := mkInv {
  inv_length : length (visited st) = W * H;
  inv_count : processed st = countTrue (visited st);
  inv_cover : forall px py, px < W -> py < H ->
      coverCount (regions st) px py = if vis (visited st) (py * W + px) then 1 else 0;
  inv_events : Forall (wellFormed W H data tol) (regions st);
  inv_paths : colorPaths st = groupPaths (commits (regions st))
}.

(** What one step of the scan guarantees besides the invariant: nothing
    becomes unvisited again and the counter does not decrease. *)
Definition advances (st st' : GrowState) : Prop :=
  (forall i, vis (visited st) i = true -> vis (visited st') i = true)
  /\ processed st <= processed st'.

(** ** Two properties the engine does not have *)

(** Area monotonicity in the tolerance, for the rectangle grown from one
    anchor under one mask. *)
Definition areaMonotone : Prop :=
  forall W H data v x y (tol tol' : Z),
    (tol <= tol')%Z ->
    area (grownRect W H data tol v x y) <= area (grownRect W H data tol' v x y).

(** No committed rectangle covers a pixel whose alpha is below 2. *)
Definition transparentUncovered (W H : nat) (data : list Z) (tol : Z) : Prop :=
  forall r px py,
    px < W -> py < H -> (alphaOf (pixel data (py * W + px)) < 2)%Z ->
    Commit r ∈ regions (fst (growPhase W H data tol)) ->
    covers (Commit r) px py = false.

(** The number of batches still to run from row [batchY]. *)
Definition batchesFrom (H batchY : nat) : nat := (H - batchY + 24) / 25.

(** ** Vocabulary of the further properties *)

(** The row-major index of the pixel an event was recorded at. *)
Definition anchorIndex (W : nat) (e : Event) : nat :=
  match e with
  | Commit r => ry r * W + rx r
  | SkipTransparent x y => y * W + x
  end.

(** The events of a stream come in strictly ascending anchor order. *)
Definition anchorsAscending (W : nat) (log : list Event) : Prop :=
  StronglySorted (fun a b => anchorIndex W a < anchorIndex W b) log.

Definition anchorsBelow (W n : nat) (log : list Event) : Prop :=
  Forall (fun e => anchorIndex W e < n) log.

(** The number of pixels an event accounts for, and their total over a
    stream. *)
Definition eventCells (e : Event) : nat :=
  match e with
  | Commit r => area r
  | SkipTransparent _ _ => 1
  end.

Fixpoint cellsAccounted (log : list Event) : nat :=
  match log with
  | [] => 0
  | e :: log' => eventCells e + cellsAccounted log'
  end.

(** The sum of [f x y] over the cells of the [W] by [H] grid. *)
Definition cellSum (f : nat -> nat -> nat) (W H : nat) : nat :=
  sum_list_with (fun y => sum_list_with (fun x => f x y) (seq 0 W)) (seq 0 H).

(** The decimal with four fraction digits nearest to [a / 255]. *)
Definition alphaDecimal (a : Z) : string :=
  let n := ((a * 20000 + 255) / 510)%Z in
  let d := pretty n in
  if (n =? 10000)%Z then "1.0000"%string
  else "0." +:+ String.concat EmptyString (replicate (4 - String.length d) "0"%string) +:+ d.

(** ** Image service: [fetchWithRetry] and [processAIImage]
       (src/unnamed/part_000) *)

Module Gemini.

(** How a promise settles. *)
Inductive Settled (A E : Type) : Type :=
| Fulfilled (value : A)
| Failed (error : E).
Arguments Fulfilled {A E} value.
Arguments Failed {A E} error.

(** What a run leaves behind: how many times [fn] has been called, and
    the timeouts it has waited for, in order. *)
Record Trail := mkTrail { called : nat; waited : list Q }.

Section Retry.

Context {A E : Type}.

(** [fn] takes no argument; its calls settle one after the other as
    [fn 0], [fn 1], ... *)
Variable fn : nat -> Settled A E.

(** [try { return await fn(); }
     catch (error) {
       if (retries <= 0) throw error;
       await new Promise((resolve) => setTimeout(resolve, delay));
       return fetchWithRetry(fn, retries - 1, delay * 2);
     }]
    [retries] and [delay] are Numbers. The fuel bounds the number of
    calls of [fn]; [None] is a run that needs more. *)
Fixpoint fetchWithRetry (fuel : nat) (retries delay : Q) (t : Trail)
    : option (Settled A E * Trail) :=
  match fuel with
  | O => None
  | S fuel' =>
      let t1 := mkTrail (S (called t)) (waited t) in
      match fn (called t) with
      | Fulfilled value => Some (Fulfilled value, t1)
      | Failed error =>
          if Qle_bool retries 0 then Some (Failed error, t1)
          else fetchWithRetry fuel' (F64.sub retries 1) (F64.mul delay 2)
                 (mkTrail (called t1) (waited t1 ++ [delay]))
      end
  end.

End Retry.

(** [s.split(sep)] for a separator of one character. *)
Fixpoint splitOn (sep : Ascii.ascii) (s : string) : list string :=
  match s with
  | EmptyString => [EmptyString]
  | String c s' =>
      if Ascii.eqb c sep then EmptyString :: splitOn sep s'
      else match splitOn sep s' with
           | seg :: segs => String c seg :: segs
           | [] => [String c EmptyString]
           end
  end.

Definition comma : Ascii.ascii := Ascii.ascii_of_nat 44.

(** [imageBlob.split(',')[1] || imageBlob]: the second segment, unless
    it is missing or empty. *)
Definition base64DataOf (imageBlob : string) : string :=
  match splitOn comma imageBlob !! 1 with
  | Some seg => if String.eqb seg EmptyString then imageBlob else seg
  | None => imageBlob
  end.

(** The request of [performCall]. *)
Record Request := mkRequest {
  model : string;
  imageMimeType : string;
  imageData : string;
  promptText : string;
  systemInstruction : string;
  temperature : Q
}.

(** The optional chain [response.candidates?.[0]?.content?.parts]. *)
Record InlineData := mkInline { mimeType : option string; data : option string }.
Record Part := mkPart { inlineData : option InlineData; text : option string }.
Record Content := mkContent { parts : option (list Part) }.
Record Candidate := mkCandidate { content : option Content }.
Record Response := mkResponse { candidates : option (list Candidate) }.

(** [response.candidates?.[0]?.content?.parts || []] *)
Definition partsOf (response : Response) : list Part :=
  match candidates response with
  | None => []
  | Some cs =>
      match cs !! 0 with
      | None => []
      | Some c =>
          match content c with
          | None => []
          | Some ct => match parts ct with None => [] | Some ps => ps end
          end
      end
  end.

(** A property spliced into a template literal. *)
Definition spliced (v : option string) : string :=
  match v with Some s => s | None => "undefined" end.

(** [`data:${part.inlineData.mimeType};base64,${part.inlineData.data}`] *)
Definition dataUrl (d : InlineData) : string :=
  "data:" +:+ spliced (mimeType d) +:+ ";base64," +:+ spliced (data d).

(** [for (const part of ...) { if (part.inlineData) return ...; } return null;] *)
Fixpoint firstImage (ps : list Part) : option string :=
  match ps with
  | [] => None
  | part :: ps' =>
      match inlineData part with
      | Some d => Some (dataUrl d)
      | None => firstImage ps'
      end
  end.

(** The SDK: constructing the client may throw, and the n-th call of
    [ai.models.generateContent] with a request settles as
    [generateContent request n]. *)
Record Sdk (E : Type) := mkSdk {
  newClient : option E;
  generateContent : Request -> nat -> Settled Response E
}.
Arguments newClient {E} _.
Arguments generateContent {E} _ _ _.

(** [processAIImage]: the promise of [string | null], and the trail of
    the calls. *)
Definition processAIImage {E : Type} (sdk : Sdk E) (fuel : nat)
    (modelName imageBlob prompt instruction : string) (t : Trail)
    : option (Settled (option string) E * Trail) :=
  match newClient sdk with
  | Some thrown => Some (Failed thrown, t)
  | None =>
      let base64Data := base64DataOf imageBlob in
      let performCall :=
        generateContent sdk
          (mkRequest modelName "image/png" base64Data prompt instruction
                     (F64.round (1 # 10))) in
      match fetchWithRetry performCall fuel 5 1000 t with
      | None => None
      | Some (Failed error, t') => Some (Failed error, t')
      | Some (Fulfilled response, t') =>
          Some (Fulfilled (firstImage (partsOf response)), t')
      end
  end.

End Gemini.

(** [c] does not occur in [s]. *)
Fixpoint freeOf (c : Ascii.ascii) (s : string) : bool :=
  match s with
  | EmptyString => true
  | String c' s' => negb (Ascii.eqb c' c) && freeOf c s'
  end.

(** The timeouts of a run that fails [n] times from the delay [d]:
    [d], [2 d], [4 d], ... *)
Definition backoff (d : Z) (n : nat) : list Q :=
  map (fun i => inject_Z (d * 2 ^ Z.of_nat i)) (seq 0 n).

(** ** The vectorize and export handlers (src/App.tsx) *)

Module App.

(** ['png' | 'svg'] *)
Inductive ResultType := png | svg.

(** A value of the [error] field: [null], a string, or [undefined] when
    [err.message] is read off a value that has no such property. *)
Inductive ErrorText :=
| Null
| Undefined
| Message (text : string)
| BrowserMessage (exception : string).

Record ProcessingState := mkProcessing {
  isProcessing : bool;
  progress : Reported;
  error : ErrorText;
  resultUrl : option string;
  resultType : option ResultType
}.

(** What a handler does, in order: state updates queued with
    [setProcessing], and calls of [URL.revokeObjectURL] and
    [URL.createObjectURL(new Blob([content], { type }))]. *)
Inductive Effect :=
| SetProcessing (update : ProcessingState -> ProcessingState)
| RevokeObjectURL (url : string)
| CreateObjectURL (content type url : string).

(** A string or null in a condition. *)
Definition truthy (v : option string) : option string :=
  match v with
  | Some s => if String.eqb s EmptyString then None else Some s
  | None => None
  end.

(** [processing.resultUrl || sourceImage?.url || null] *)
Definition currentImageUrl (processing : ProcessingState)
    (sourceUrl : option string) : option string :=
  match truthy (resultUrl processing) with
  | Some url => Some url
  | None => truthy sourceUrl
  end.

(** [err.message]: the message of an [Error], nothing for the event an
    image element rejects with, and the text the browser gives its
    exception of that name. *)
Definition messageOf (err : TraceError) : ErrorText :=
  match err with
  | LoadError => Undefined
  | RuntimeError message => Message message
  | DomException name => BrowserMessage name
  end.

Section Handlers.

(** The engine behind [traceImageToSVG(url, onProgress, options)], and
    the URL the browser hands out for a blob. *)
Variable trace : string -> VectorOptions -> Outcome * list Reported.
Variable createObjectURL : string -> string.

(** The closure of a render: the state and the source it has captured. *)
Variable processing : ProcessingState.
Variable sourceUrl : option string.

(** [handleVectorize] *)
Definition handleVectorize : list Effect :=
  match currentImageUrl processing sourceUrl with
  | None => []
  | Some imageUrl =>
      if isProcessing processing then []
      else
        let '(outcome, reports) := trace imageUrl (mkOptions 1 4096 4096 2) in
        SetProcessing (fun p => mkProcessing true (Percent 0) Null
                                  (resultUrl p) (resultType p))
        :: map (fun reported =>
                  SetProcessing (fun p => mkProcessing (isProcessing p) reported (error p)
                                            (resultUrl p) (resultType p)))
               reports
        ++ match outcome with
           | Resolved svgString =>
               let url := createObjectURL svgString in
               match truthy (resultUrl processing) with
               | Some old => [RevokeObjectURL old]
               | None => []
               end
               ++ [CreateObjectURL svgString "image/svg+xml" url;
                   SetProcessing (fun _ => mkProcessing false (Percent 100) Null
                                             (Some url) (Some svg))]
           | Rejected err =>
               [SetProcessing (fun p => mkProcessing false (Percent 0) (messageOf err)
                                          (resultUrl p) (resultType p))]
           end
  end.

(** [handleExport]: the arguments of [downloadUrl], if it is called;
    [now] is [Date.now()]. *)
Definition handleExport (now : Z) : option (string * string) :=
  match truthy (resultUrl processing) with
  | None => None
  | Some url =>
      let ext := match resultType processing with
                 | Some svg => "svg"
                 | Some png | None => "png"
                 end in
      Some (url, "pixelpro-v14-elite-export-" +:+ showInt now +:+ "." +:+ ext)
  end.

End Handlers.

(** The state after the queued updates of a run of effects. *)
Definition settle (s : ProcessingState) (effects : list Effect) : ProcessingState :=
  foldl (fun s e => match e with SetProcessing update => update s | _ => s end)
        s effects.

End App.

(** * Properties *)

Local Open Scope Z_scope.

(** ** Channel extraction lemmas *)

Lemma toInt32_range n : - 2 ^ 31 <= JS.toInt32 n < 2 ^ 31.
Proof. unfold JS.toInt32. pose proof (Z.mod_pos_bound (n + 2 ^ 31) (2 ^ 32)). lia. Qed.

Lemma toInt32_small n : - 2 ^ 31 <= n < 2 ^ 31 -> JS.toInt32 n = n.
Proof. intros H. unfold JS.toInt32. rewrite Z.mod_small; lia. Qed.

Lemma land_255_mod a : Z.land a 255 = a mod 256.
Proof. change 255 with (Z.ones 8). rewrite Z.land_ones by lia. reflexivity. Qed.

Lemma band_255 a : JS.band a 255 = JS.toInt32 a mod 256.
Proof.
  unfold JS.band. rewrite (toInt32_small 255) by lia.
  rewrite land_255_mod. apply toInt32_small.
  pose proof (Z.mod_pos_bound (JS.toInt32 a) 256). lia.
Qed.

Lemma toInt32_uint32 c :
  isUint32 c -> JS.toInt32 c = if c <? 2 ^ 31 then c else c - 2 ^ 32.
Proof.
  intros [H0 H1]. unfold JS.toInt32.
  destruct (Z.ltb_spec c (2 ^ 31)).
  - rewrite Z.mod_small; lia.
  - replace (c + 2 ^ 31) with ((c - 2 ^ 31) + 1 * 2 ^ 32) by lia.
    rewrite Z.mod_add by lia. rewrite Z.mod_small; lia.
Qed.

Lemma shift_channel k c :
  k = 0 \/ k = 1 \/ k = 2 \/ k = 3 -> isUint32 c ->
  JS.band (JS.sar c (8 * k)) 255 = byteAt k c.
Proof.
  intros Hk Hc. rewrite band_255. unfold JS.sar, byteAt.
  rewrite Z.shiftr_div_pow2 by lia.
  assert (Hr : - 2 ^ 31 <= JS.toInt32 c / 2 ^ (8 * k) < 2 ^ 31).
  { pose proof (toInt32_range c) as Hb.
    assert (0 < 2 ^ (8 * k)) by (apply Z.pow_pos_nonneg; lia).
    split.
    - apply Z.div_le_lower_bound; [lia|]. nia.
    - apply Z.div_lt_upper_bound; [lia|]. nia. }
  rewrite toInt32_small by exact Hr.
  rewrite toInt32_uint32 by exact Hc.
  destruct (Z.ltb_spec c (2 ^ 31)); [reflexivity|].
  assert (Hp : 2 ^ 32 = 2 ^ (8 * k) * (256 * 2 ^ (24 - 8 * k))).
  { destruct Hk as [->|[->|[->| ->]]]; reflexivity. }
  replace (c - 2 ^ 32) with (c + (- (256 * 2 ^ (24 - 8 * k))) * 2 ^ (8 * k)) by lia.
  rewrite Z.div_add by (destruct Hk as [->|[->|[->| ->]]]; discriminate).
  replace (- (256 * 2 ^ (24 - 8 * k))) with ((- 2 ^ (24 - 8 * k)) * 256) by lia.
  rewrite Z.mod_add by lia. reflexivity.
Qed.

Lemma alphaOf_byte c : isUint32 c -> alphaOf c = byteAt 3 c.
Proof. intros H. unfold alphaOf. change 24 with (8 * 3). apply shift_channel; auto. Qed.

Lemma blueOf_byte c : isUint32 c -> blueOf c = byteAt 2 c.
Proof. intros H. unfold blueOf. change 16 with (8 * 2). apply shift_channel; auto. Qed.

Lemma greenOf_byte c : isUint32 c -> greenOf c = byteAt 1 c.
Proof. intros H. unfold greenOf. change 8 with (8 * 1) at 1. apply shift_channel; auto. Qed.

Lemma redOf_byte c : isUint32 c -> redOf c = byteAt 0 c.
Proof.
  intros H. unfold redOf. rewrite band_255, toInt32_uint32 by exact H.
  unfold byteAt. change (2 ^ (8 * 0)) with 1. rewrite Z.div_1_r.
  destruct (Z.ltb_spec c (2 ^ 31)); [reflexivity|].
  replace (c - 2 ^ 32) with (c + (- 2 ^ 24) * 256) by lia.
  apply Z.mod_add. lia.
Qed.

Lemma alphaOf_range c : 0 <= alphaOf c < 256.
Proof. unfold alphaOf. rewrite band_255. apply Z.mod_pos_bound. lia. Qed.

(** ** Comparator lemmas *)

Lemma isColorSimilar_refl c tol : isColorSimilar c c tol = true.
Proof. unfold isColorSimilar. rewrite Z.eqb_refl. reflexivity. Qed.

Lemma isColorSimilar_true c1 c2 tol :
  isColorSimilar c1 c2 tol = true <->
  c1 = c2
  \/ (alphaOf c1 < 2 /\ alphaOf c2 < 2)
  \/ (Z.abs (alphaOf c1 - alphaOf c2) <= tol
      /\ Z.abs (redOf c1 - redOf c2) <= tol
      /\ Z.abs (greenOf c1 - greenOf c2) <= tol
      /\ Z.abs (blueOf c1 - blueOf c2) <= tol).
Proof.
  unfold isColorSimilar.
  destruct (Z.eqb_spec c1 c2) as [->|Hne]; [tauto|].
  destruct (Z.ltb_spec (alphaOf c1) 2), (Z.ltb_spec (alphaOf c2) 2); cbn [andb];
    try tauto;
    (destruct (Z.gtb_spec (Z.abs (alphaOf c1 - alphaOf c2)) tol);
     [ split; [discriminate | intros [?|[?|?]]; lia]
     | rewrite !andb_true_iff, !Z.leb_le; split;
       [tauto | intros [?|[?|?]]; [contradiction|lia|tauto]] ]).
Qed.

Lemma isColorSimilar_transparent c1 c2 tol :
  alphaOf c1 < 2 -> alphaOf c2 < 2 -> isColorSimilar c1 c2 tol = true.
Proof. intros. apply isColorSimilar_true. auto. Qed.

Lemma isColorSimilar_mono c1 c2 tol tol' :
  tol <= tol' -> isColorSimilar c1 c2 tol = true -> isColorSimilar c1 c2 tol' = true.
Proof.
  intros Hle. rewrite !isColorSimilar_true.
  intros [?|[?|(?&?&?&?)]]; auto. right; right. repeat split; lia.
Qed.

(** C2. For all 32-bit colours and every tolerance, [isColorSimilar]
    returns true exactly when the colours are equal, or both alpha bytes
    are below 2, or the alpha bytes and each of the red, green and blue
    bytes differ by at most the tolerance. The comparator is a total
    function: it is defined, without fuel, on every input. *)
Theorem isColorSimilar_spec (c1 c2 tol : Z) :
  isUint32 c1 -> isUint32 c2 ->
  (isColorSimilar c1 c2 tol = true <-> similarSpec c1 c2 tol).
Proof.
  intros H1 H2. rewrite isColorSimilar_true. unfold similarSpec.
  rewrite !alphaOf_byte, !redOf_byte, !greenOf_byte, !blueOf_byte by assumption.
  reflexivity.
Qed.

Lemma isColorSimilar_spec_witness :
  isUint32 4278190335 /\ isUint32 4278190080
  /\ (isColorSimilar 4278190335 4278190080 255 = true
      <-> similarSpec 4278190335 4278190080 255).
Proof.
  assert (H1 : isUint32 4278190335) by (unfold isUint32; lia).
  assert (H2 : isUint32 4278190080) by (unfold isUint32; lia).
  split; [exact H1|]. split; [exact H2|].
  exact (isColorSimilar_spec 4278190335 4278190080 255 H1 H2).
Defined.

Local Open Scope nat_scope.

(** ** Rounding to binary64 *)

Section F64Facts.
Local Open Scope Q_scope.
Import F64.

Lemma pow2_pos e : 0 < pow2 e.
Proof. unfold pow2. apply Qpower_0_lt. reflexivity. Qed.

Lemma pow2_succ e : pow2 (e + 1) == 2 * pow2 e.
Proof.
  unfold pow2. rewrite Qpower_plus by discriminate.
  change (2 ^ 1) with 2. ring.
Qed.

Lemma pow2_le e1 e2 : (e1 <= e2)%Z -> pow2 e1 <= pow2 e2.
Proof. intros H. unfold pow2. apply Qpower_le_compat_l; [exact H|]. discriminate. Qed.

Lemma pow2_Z e : (0 <= e)%Z -> pow2 e == inject_Z (2 ^ e).
Proof. intros H. unfold pow2. rewrite Zpower_Qpower by exact H. reflexivity. Qed.

Lemma pow2_add a b : pow2 (a + b) == pow2 a * pow2 b.
Proof. unfold pow2. apply Qpower_plus. discriminate. Qed.

Lemma pow2_0 : pow2 0 == 1.
Proof. reflexivity. Qed.

Lemma pow2_frac a b :
  (0 <= a)%Z -> (0 <= b)%Z -> pow2 (a - b) == (2 ^ a) # Z.to_pos (2 ^ b).
Proof.
  intros Ha Hb. unfold pow2. rewrite Qpower_minus by discriminate.
  change 2 with (inject_Z 2).
  rewrite <- !Zpower_Qpower by assumption.
  rewrite (Qmake_Qdiv (2 ^ a) (Z.to_pos (2 ^ b))).
  rewrite Z2Pos.id by (apply Z.pow_pos_nonneg; lia).
  reflexivity.
Qed.

Lemma ilog2_spec q : 0 < q -> pow2 (ilog2 q) <= q /\ q < pow2 (ilog2 q + 1).
Proof.
  intros Hq. destruct q as [n d].
  assert (Hn : (0 < n)%Z) by (unfold Qlt in Hq; simpl in Hq; lia).
  unfold ilog2. cbn [Qnum Qden].
  set (a := Z.log2 n). set (b := Z.log2 (Z.pos d)).
  destruct (Z.log2_spec n Hn) as [Ha1 Ha2]. fold a in Ha1, Ha2.
  destruct (Z.log2_spec (Z.pos d) (Pos2Z.is_pos d)) as [Hb1 Hb2]. fold b in Hb1, Hb2.
  assert (Ha0 : (0 <= a)%Z) by apply Z.log2_nonneg.
  assert (Hb0 : (0 <= b)%Z) by apply Z.log2_nonneg.
  assert (HA : (0 < 2 ^ a)%Z) by (apply Z.pow_pos_nonneg; lia).
  assert (HB : (0 < 2 ^ b)%Z) by (apply Z.pow_pos_nonneg; lia).
  rewrite Z.pow_succ_r in Ha2, Hb2 by assumption.
  assert (Hup : n # d < pow2 (a - b + 1)).
  { rewrite pow2_succ, pow2_frac by assumption.
    unfold Qlt, Qmult; simpl. rewrite ?Pos.mul_1_l, Z2Pos.id by exact HB. nia. }
  assert (Hlo : pow2 (a - b - 1) <= n # d).
  { assert (E : pow2 (a - b) == 2 * pow2 (a - b - 1)).
    { rewrite <- pow2_succ. replace (a - b - 1 + 1)%Z with (a - b)%Z by lia. reflexivity. }
    assert (L : pow2 (a - b) <= 2 * (n # d)).
    { rewrite pow2_frac by assumption.
      unfold Qle, Qmult; simpl. rewrite ?Pos.mul_1_l, Z2Pos.id by exact HB. nia. }
    lra. }
  destruct (Qle_bool (pow2 (a - b)) (n # d)) eqn:E.
  - apply Qle_bool_iff in E. split; assumption.
  - assert (~ pow2 (a - b) <= n # d) by (rewrite <- Qle_bool_iff, E; discriminate).
    replace (a - b - 1 + 1)%Z with (a - b)%Z by lia.
    split; [assumption|]. apply Qnot_le_lt. assumption.
Qed.

Lemma pow2_lt e1 e2 : (e1 < e2)%Z -> pow2 e1 < pow2 e2.
Proof.
  intros H. apply Qlt_le_trans with (pow2 (e1 + 1)).
  - rewrite pow2_succ. pose proof (pow2_pos e1). lra.
  - apply pow2_le. lia.
Qed.

Lemma ilog2_unique q k : pow2 k <= q -> q < pow2 (k + 1) -> ilog2 q = k.
Proof.
  intros H1 H2.
  assert (Hq : 0 < q) by (pose proof (pow2_pos k); lra).
  destruct (ilog2_spec q Hq) as [L1 L2].
  destruct (Z.lt_trichotomy (ilog2 q) k) as [Hlt|[Heq|Hgt]]; [|exact Heq|].
  - pose proof (pow2_le (ilog2 q + 1) k ltac:(lia)). lra.
  - pose proof (pow2_le (k + 1) (ilog2 q) ltac:(lia)). lra.
Qed.

Lemma ilog2_compat q q' : 0 < q -> q == q' -> ilog2 q = ilog2 q'.
Proof.
  intros Hq E. symmetry. destruct (ilog2_spec q Hq).
  apply ilog2_unique; rewrite <- E; assumption.
Qed.

Lemma ilog2_mono q q' : 0 < q -> q <= q' -> (ilog2 q <= ilog2 q')%Z.
Proof.
  intros Hq Hle.
  destruct (ilog2_spec q Hq) as [L1 L2].
  destruct (ilog2_spec q' ltac:(lra)) as [L1' L2'].
  destruct (Z_le_gt_dec (ilog2 q) (ilog2 q')) as [H|H]; [exact H|].
  pose proof (pow2_le (ilog2 q' + 1) (ilog2 q) ltac:(lia)). lra.
Qed.

Lemma rne_compat q q' : q == q' -> rne q = rne q'.
Proof.
  intros E. unfold rne.
  assert (F : Qfloor q = Qfloor q') by (apply Qfloor_comp; exact E).
  rewrite <- F.
  assert (C : Qcompare (q - inject_Z (Qfloor q)) (1 # 2)
              = Qcompare (q' - inject_Z (Qfloor q)) (1 # 2)).
  { apply Qcompare_comp; [lra|reflexivity]. }
  rewrite C. reflexivity.
Qed.

Lemma rne_Z z : rne (inject_Z z) = z.
Proof.
  unfold rne. rewrite Qfloor_Z.
  destruct (Qcompare_spec (inject_Z z - inject_Z z) (1 # 2)) as [E|E|E];
    [lra | reflexivity | lra].
Qed.

Lemma rne_cases q :
  (rne q = Qfloor q /\ q - inject_Z (Qfloor q) <= 1 # 2)
  \/ (rne q = (Qfloor q + 1)%Z /\ 1 # 2 <= q - inject_Z (Qfloor q)).
Proof.
  unfold rne.
  destruct (Qcompare_spec (q - inject_Z (Qfloor q)) (1 # 2)) as [E|E|E].
  - destruct (Z.even (Qfloor q)); [left|right]; split; try reflexivity; lra.
  - left. split; [reflexivity|lra].
  - right. split; [reflexivity|lra].
Qed.

Lemma rne_mono q q' : q <= q' -> (rne q <= rne q')%Z.
Proof.
  intros Hle.
  pose proof (Qfloor_resp_le _ _ Hle) as Hf.
  destruct (Z.eq_dec (Qfloor q) (Qfloor q')) as [Ef|Nf].
  - unfold rne. rewrite <- Ef.
    destruct (Qcompare_spec (q - inject_Z (Qfloor q)) (1 # 2)) as [E|E|E];
      destruct (Qcompare_spec (q' - inject_Z (Qfloor q)) (1 # 2)) as [E'|E'|E'];
      try lra; try lia; destruct (Z.even (Qfloor q)); lia.
  - destruct (rne_cases q) as [[-> _]|[-> _]];
      destruct (rne_cases q') as [[-> _]|[-> _]]; lia.
Qed.

Lemma scaled_bounds q :
  0 < q ->
  pow2 52 <= q / pow2 (ilog2 q - 52) /\ q / pow2 (ilog2 q - 52) < pow2 53.
Proof.
  intros Hq. destruct (ilog2_spec q Hq) as [L1 L2].
  pose proof (pow2_pos (ilog2 q - 52)) as Hp.
  assert (E1 : pow2 (ilog2 q) == pow2 52 * pow2 (ilog2 q - 52)).
  { rewrite <- pow2_add. replace (52 + (ilog2 q - 52))%Z with (ilog2 q) by lia. reflexivity. }
  assert (E2 : pow2 (ilog2 q + 1) == pow2 53 * pow2 (ilog2 q - 52)).
  { rewrite <- pow2_add. replace (53 + (ilog2 q - 52))%Z with (ilog2 q + 1)%Z by lia. reflexivity. }
  split.
  - apply Qle_shift_div_l; [exact Hp|]. lra.
  - apply Qlt_shift_div_r; [exact Hp|]. lra.
Qed.

Lemma roundPos_lower q : 0 < q -> pow2 (ilog2 q) <= roundPos q.
Proof.
  intros Hq. unfold roundPos.
  destruct (scaled_bounds q Hq) as [B1 _].
  pose proof (pow2_pos (ilog2 q - 52)) as Hp.
  assert (M : (2 ^ 52 <= rne (q / pow2 (ilog2 q - 52)))%Z).
  { rewrite <- (rne_Z (2 ^ 52)). apply rne_mono.
    rewrite <- pow2_Z by lia. exact B1. }
  assert (E1 : pow2 (ilog2 q) == pow2 52 * pow2 (ilog2 q - 52)).
  { rewrite <- pow2_add. replace (52 + (ilog2 q - 52))%Z with (ilog2 q) by lia. reflexivity. }
  rewrite E1. apply Qmult_le_compat_r; [|lra].
  rewrite (pow2_Z 52) by lia. rewrite <- Zle_Qle. exact M.
Qed.

Lemma roundPos_upper q : 0 < q -> roundPos q <= pow2 (ilog2 q + 1).
Proof.
  intros Hq. unfold roundPos.
  destruct (scaled_bounds q Hq) as [_ B2].
  pose proof (pow2_pos (ilog2 q - 52)) as Hp.
  assert (M : (rne (q / pow2 (ilog2 q - 52)) <= 2 ^ 53)%Z).
  { rewrite <- (rne_Z (2 ^ 53)). apply rne_mono.
    rewrite <- pow2_Z by lia. lra. }
  assert (E2 : pow2 (ilog2 q + 1) == pow2 53 * pow2 (ilog2 q - 52)).
  { rewrite <- pow2_add. replace (53 + (ilog2 q - 52))%Z with (ilog2 q + 1)%Z by lia. reflexivity. }
  rewrite E2. apply Qmult_le_compat_r; [|lra].
  rewrite (pow2_Z 53) by lia. rewrite <- Zle_Qle. exact M.
Qed.

Lemma roundPos_pos q : 0 < q -> 0 < roundPos q.
Proof.
  intros Hq. pose proof (roundPos_lower q Hq). pose proof (pow2_pos (ilog2 q)). lra.
Qed.

Lemma roundPos_mono q q' : 0 < q -> q <= q' -> roundPos q <= roundPos q'.
Proof.
  intros Hq Hle.
  pose proof (ilog2_mono q q' Hq Hle) as Hl.
  destruct (Z.eq_dec (ilog2 q) (ilog2 q')) as [E|N].
  - unfold roundPos. rewrite <- E.
    pose proof (pow2_pos (ilog2 q - 52)) as Hp.
    apply Qmult_le_compat_r; [|lra].
    rewrite <- Zle_Qle. apply rne_mono.
    apply Qmult_le_compat_r; [exact Hle|].
    apply Qlt_le_weak, Qinv_lt_0_compat, Hp.
  - apply Qle_trans with (pow2 (ilog2 q + 1)); [apply roundPos_upper; exact Hq|].
    apply Qle_trans with (pow2 (ilog2 q')); [apply pow2_le; lia|].
    apply roundPos_lower. lra.
Qed.

Lemma roundPos_compat q q' : 0 < q -> q == q' -> roundPos q == roundPos q'.
Proof.
  intros Hq E. unfold roundPos.
  rewrite <- (ilog2_compat q q' Hq E).
  rewrite (rne_compat (q / pow2 (ilog2 q - 52)) (q' / pow2 (ilog2 q - 52)))
    by (apply Qdiv_comp; [exact E|reflexivity]).
  reflexivity.
Qed.

Lemma round_pos q : 0 < q -> round q = roundPos q.
Proof.
  intros Hq. unfold round.
  destruct (Qcompare_spec q 0) as [E|E|E]; [lra|lra|reflexivity].
Qed.

Lemma round_0 q : q == 0 -> round q = 0.
Proof.
  intros Hq. unfold round.
  destruct (Qcompare_spec q 0) as [E|E|E]; [reflexivity|lra|lra].
Qed.

Lemma round_nonneg q : 0 <= q -> 0 <= round q.
Proof.
  intros Hq. destruct (Qlt_le_dec 0 q) as [H|H].
  - rewrite round_pos by exact H. apply Qlt_le_weak, roundPos_pos, H.
  - rewrite round_0 by lra. lra.
Qed.

Lemma round_mono q q' : 0 <= q -> q <= q' -> round q <= round q'.
Proof.
  intros Hq Hle. destruct (Qlt_le_dec 0 q) as [H|H].
  - rewrite !round_pos by lra. apply roundPos_mono; assumption.
  - rewrite (round_0 q) by lra. apply round_nonneg. lra.
Qed.

Lemma round_compat q q' : 0 <= q -> q == q' -> round q == round q'.
Proof.
  intros Hq E. destruct (Qlt_le_dec 0 q) as [H|H].
  - rewrite !round_pos by lra. apply roundPos_compat; assumption.
  - rewrite (round_0 q), (round_0 q') by lra. reflexivity.
Qed.

(** Integers below 2^53 are binary64 values. *)
Lemma round_Z z : (0 <= z < 2 ^ 53)%Z -> round (inject_Z z) == inject_Z z.
Proof.
  intros [H0 H1]. destruct (Z.eq_dec z 0%Z) as [->|Hz]; [reflexivity|].
  assert (Hq : 0 < inject_Z z) by (change 0 with (inject_Z 0%Z); rewrite <- Zlt_Qlt; lia).
  rewrite round_pos by exact Hq.
  set (l := Z.log2 z).
  destruct (Z.log2_spec z ltac:(lia)) as [S1 S2]. fold l in S1, S2.
  assert (Hl0 : (0 <= l)%Z) by apply Z.log2_nonneg.
  assert (Hl : (l <= 52)%Z).
  { destruct (Z_le_gt_dec l 52); [assumption|].
    assert (2 ^ 53 <= 2 ^ l)%Z by (apply Z.pow_le_mono_r; lia). lia. }
  assert (El : ilog2 (inject_Z z) = l).
  { apply ilog2_unique; rewrite pow2_Z by lia; [rewrite <- Zle_Qle|rewrite <- Zlt_Qlt];
      [exact S1 | replace (l + 1)%Z with (Z.succ l) by lia; exact S2]. }
  unfold roundPos. rewrite El.
  pose proof (pow2_pos (l - 52)) as Hp.
  assert (I : / pow2 (l - 52) == pow2 (52 - l)).
  { unfold pow2. rewrite <- Qpower_opp.
    replace (- (l - 52))%Z with (52 - l)%Z by lia. reflexivity. }
  assert (Ex : inject_Z z / pow2 (l - 52) == inject_Z (z * 2 ^ (52 - l))).
  { rewrite inject_Z_mult, <- pow2_Z by lia. unfold Qdiv. rewrite I. reflexivity. }
  rewrite (rne_compat _ _ Ex), rne_Z, <- Ex.
  field. lra.
Qed.
(** On a grid of small operands, and on the operands of the examples
    further down, the model computes what [SpecFloat] computes. *)
Lemma F64_agrees_with_SpecFloat :
  forallb (fun a => forallb (fun b => agreesWithSpecFloat a b 100)
                            (map Pos.of_nat (seq 1 12) ++ [49; 255; 6000]%positive))
          (map Pos.of_nat (seq 1 12) ++ [29; 4096]%positive)
  = true.
Proof. vm_compute. reflexivity. Qed.

Lemma rne_upper q : inject_Z (rne q) <= q + (1 # 2).
Proof.
  pose proof (Qfloor_le q) as Hf.
  destruct (rne_cases q) as [[-> _]|[-> Hh]].
  - lra.
  - rewrite inject_Z_plus. change (inject_Z 1) with 1. lra.
Qed.

(** The relative error of one rounding is at most 2^-53. *)
Lemma round_upper q :
  0 <= q -> round q <= q * (1 + (1 # 9007199254740992)).
Proof.
  intros Hq0. destruct (Qlt_le_dec 0 q) as [Hq|Hq]; [|rewrite round_0; lra].
  rewrite round_pos by exact Hq. unfold roundPos.
  set (p := pow2 (ilog2 q - 52)).
  assert (Hp : 0 < p) by apply pow2_pos.
  destruct (ilog2_spec q Hq) as [L _].
  assert (Ep : pow2 (ilog2 q) == p * 4503599627370496).
  { replace (ilog2 q) with ((ilog2 q - 52) + 52)%Z at 1 by lia.
    rewrite pow2_add. fold p. reflexivity. }
  pose proof (rne_upper (q / p)) as Hr.
  assert (Ex : q / p * p == q) by (field; lra).
  assert (Hm : inject_Z (rne (q / p)) * p <= (q / p + (1 # 2)) * p)
    by (apply Qmult_le_compat_r; lra).
  lra.
Qed.

Lemma rne_lower q : q - (1 # 2) <= inject_Z (rne q).
Proof.
  pose proof (Qlt_floor q) as Hf.
  rewrite inject_Z_plus in Hf. change (inject_Z 1) with 1 in Hf.
  destruct (rne_cases q) as [[-> Hh]|[-> _]].
  - lra.
  - rewrite inject_Z_plus. change (inject_Z 1) with 1. lra.
Qed.

Lemma round_lower q :
  0 <= q -> q * (1 - (1 # 9007199254740992)) <= round q.
Proof.
  intros Hq0. destruct (Qlt_le_dec 0 q) as [Hq|Hq]; [|rewrite round_0; lra].
  rewrite round_pos by exact Hq. unfold roundPos.
  set (p := pow2 (ilog2 q - 52)).
  assert (Hp : 0 < p) by apply pow2_pos.
  destruct (ilog2_spec q Hq) as [L _].
  assert (Ep : pow2 (ilog2 q) == p * 4503599627370496).
  { replace (ilog2 q) with ((ilog2 q - 52) + 52)%Z at 1 by lia.
    rewrite pow2_add. fold p. reflexivity. }
  pose proof (rne_lower (q / p)) as Hr.
  assert (Ex : q / p * p == q) by (field; lra).
  assert (Hm : (q / p - (1 # 2)) * p <= inject_Z (rne (q / p)) * p)
    by (apply Qmult_le_compat_r; lra).
  lra.
Qed.

End F64Facts.

(** ** Progress percentages *)

Section Percent.
Local Open Scope Q_scope.

Lemma ofNat_nonneg n : 0 <= F64.ofNat n.
Proof.
  unfold F64.ofNat. change 0 with (inject_Z 0%Z). rewrite <- Zle_Qle. lia.
Qed.

Lemma ofNat_pos n : (0 < n)%nat -> 0 < F64.ofNat n.
Proof.
  intros Hn. unfold F64.ofNat. change 0 with (inject_Z 0%Z). rewrite <- Zlt_Qlt. lia.
Qed.

Lemma ofNat_le n m : (n <= m)%nat -> F64.ofNat n <= F64.ofNat m.
Proof. intros Hn. unfold F64.ofNat. rewrite <- Zle_Qle. lia. Qed.

Lemma div_nonneg x y : 0 <= x -> 0 < y -> 0 <= x / y.
Proof.
  intros Hx Hy. apply Qle_shift_div_l; [exact Hy|]. lra.
Qed.

Lemma div_le_compat x x' y : x <= x' -> 0 < y -> x / y <= x' / y.
Proof.
  intros Hx Hy. unfold Qdiv. apply Qmult_le_compat_r; [exact Hx|].
  apply Qlt_le_weak, Qinv_lt_0_compat, Hy.
Qed.

Lemma F64_div_mono x x' y :
  0 <= x -> x <= x' -> 0 < y -> F64.div x y <= F64.div x' y.
Proof.
  intros Hx Hle Hy. unfold F64.div. apply round_mono.
  - apply div_nonneg; assumption.
  - apply div_le_compat; assumption.
Qed.

Lemma F64_mul_mono x x' y :
  0 <= x -> x <= x' -> 0 <= y -> F64.mul x y <= F64.mul x' y.
Proof.
  intros Hx Hle Hy. unfold F64.mul. apply round_mono.
  - apply Qmult_le_0_compat; assumption.
  - apply Qmult_le_compat_r; assumption.
Qed.

Lemma F64_div_nonneg x y : 0 <= x -> 0 < y -> 0 <= F64.div x y.
Proof. intros. apply round_nonneg, div_nonneg; assumption. Qed.

Lemma F64_div_self y : 0 < y -> F64.div y y == 1.
Proof.
  intros Hy. unfold F64.div.
  assert (E : y / y == 1) by (field; lra).
  assert (N : 0 <= y / y) by (apply div_nonneg; lra).
  rewrite (round_compat _ _ N E). apply (round_Z 1). lia.
Qed.

Lemma F64_mul_compat x x' y : 0 <= x -> 0 <= y -> x == x' -> F64.mul x y == F64.mul x' y.
Proof.
  intros Hx Hy E. unfold F64.mul. apply round_compat.
  - apply Qmult_le_0_compat; assumption.
  - rewrite E. reflexivity.
Qed.

End Percent.

(** [percentOf] on a buffer with pixels. *)
Lemma percentOf_value p t :
  0 < t ->
  percentOf p t
  = Percent (F64.floor (F64.mul (F64.div (F64.ofNat p) (F64.ofNat t)) 100)).
Proof.
  intros Ht. unfold percentOf. destruct (Nat.eqb_spec t 0); [lia|reflexivity].
Qed.

Lemma percentOf_mono p p' t :
  0 < t -> p <= p' -> reportedLe (percentOf p t) (percentOf p' t).
Proof.
  intros Ht Hp. rewrite !percentOf_value by exact Ht. simpl.
  apply Qfloor_resp_le. apply F64_mul_mono.
  - apply F64_div_nonneg; [apply ofNat_nonneg|apply ofNat_pos; exact Ht].
  - apply F64_div_mono; [apply ofNat_nonneg|apply ofNat_le; exact Hp|apply ofNat_pos; exact Ht].
  - discriminate.
Qed.

Lemma percentOf_full t : 0 < t -> percentOf t t = Percent 100.
Proof.
  intros Ht. rewrite percentOf_value by exact Ht. f_equal. unfold F64.floor.
  assert (E : (F64.mul (F64.div (F64.ofNat t) (F64.ofNat t)) 100 == 100)%Q).
  { rewrite (F64_mul_compat _ 1 100).
    - reflexivity.
    - apply F64_div_nonneg; [apply ofNat_nonneg|apply ofNat_pos; exact Ht].
    - discriminate.
    - apply F64_div_self, ofNat_pos, Ht. }
  rewrite (Qfloor_comp _ _ E). reflexivity.
Qed.

Section PercentBracket.
Local Open Scope Q_scope.


End PercentBracket.

(** ** The visited mask *)

Lemma vis_true v i : vis v i = true <-> v !! i = Some true.
Proof.
  unfold vis. destruct (v !! i) as [[]|]; simpl; split; congruence.
Qed.

Lemma vis_insert v i j :
  vis (<[i := true]> v) j = true <-> vis v j = true \/ (i = j /\ i < length v).
Proof.
  rewrite !vis_true. destruct (decide (i = j)) as [->|Hne].
  - destruct (decide (j < length v)) as [Hlt|Hge].
    + rewrite list_lookup_insert_eq by exact Hlt. intuition.
    + rewrite list_insert_ge by lia. intuition lia.
  - rewrite list_lookup_insert_ne by exact Hne. intuition.
Qed.

Lemma vis_replicate_false n i : vis (replicate n false) i = false.
Proof.
  unfold vis. destruct (replicate n false !! i) as [b|] eqn:E; [|reflexivity].
  apply lookup_replicate in E. destruct E as [-> _]. reflexivity.
Qed.

Lemma countTrue_insert v i :
  v !! i = Some false -> countTrue (<[i := true]> v) = S (countTrue v).
Proof.
  revert i. induction v as [|b v IH]; intros [|i] Hi; simpl in *; try discriminate.
  - injection Hi as ->. reflexivity.
  - rewrite (IH i Hi). lia.
Qed.

Lemma countTrue_replicate_false n : countTrue (replicate n false) = 0.
Proof. induction n; simpl; auto. Qed.

Lemma countTrue_all v :
  (forall i, i < length v -> vis v i = true) ->
  countTrue v = length v /\ v = replicate (length v) true.
Proof.
  induction v as [|b v IH]; intros Hall; [split; reflexivity|].
  assert (Hb : b = true) by (specialize (Hall 0 ltac:(simpl; lia)); exact Hall).
  destruct IH as [IH1 IH2].
  { intros i Hi. apply (Hall (S i)). simpl. lia. }
  subst b. simpl. rewrite IH1. split; [reflexivity|]. f_equal. exact IH2.
Qed.

(** ** Marking *)

Lemma mark_length vp i : length (fst (mark vp i)) = length (fst vp).
Proof.
  unfold mark. destruct (vis (fst vp) i); [reflexivity|]. simpl. apply length_insert.
Qed.

Lemma mark_vis vp i j :
  i < length (fst vp) ->
  (vis (fst (mark vp i)) j = true <-> vis (fst vp) j = true \/ i = j).
Proof.
  intros Hi. unfold mark. destruct (vis (fst vp) i) eqn:E.
  - split; [auto|]. intros [?| <-]; assumption.
  - simpl. rewrite vis_insert. intuition.
Qed.

Lemma mark_count vp i :
  i < length (fst vp) -> snd vp = countTrue (fst vp) ->
  snd (mark vp i) = countTrue (fst (mark vp i)).
Proof.
  intros Hi Hc. unfold mark. destruct (vis (fst vp) i) eqn:E; [exact Hc|].
  simpl. rewrite countTrue_insert; [congruence|].
  unfold vis in E. destruct (lookup_lt_is_Some_2 (fst vp) i Hi) as [b Hb].
  rewrite Hb in E |- *. simpl in E. congruence.
Qed.

Lemma marks_spec (ixs : list nat) vp :
  (forall i, i ∈ ixs -> i < length (fst vp)) ->
  length (fst (foldl mark vp ixs)) = length (fst vp)
  /\ (forall j, vis (fst (foldl mark vp ixs)) j = true <-> vis (fst vp) j = true \/ j ∈ ixs)
  /\ (snd vp = countTrue (fst vp) ->
      snd (foldl mark vp ixs) = countTrue (fst (foldl mark vp ixs))).
Proof.
  revert vp. induction ixs as [|i ixs IH]; intros vp Hin; simpl.
  - split; [reflexivity|]. split; [|auto]. intros j. rewrite elem_of_nil. tauto.
  - assert (Hi : i < length (fst vp)) by (apply Hin; left).
    destruct (IH (mark vp i)) as (L & V & C).
    { intros k Hk. rewrite mark_length. apply Hin. right. exact Hk. }
    split; [rewrite L; apply mark_length|]. split.
    + intros j. rewrite V, mark_vis by exact Hi. rewrite elem_of_cons.
      intuition congruence.
    + intros Hc. apply C. apply mark_count; assumption.
Qed.

(** ** Cells and indices *)

Lemma cell_index_inj W px py qx qy :
  px < W -> qx < W -> py * W + px = qy * W + qx -> px = qx /\ py = qy.
Proof.
  intros Hp Hq E.
  assert (py = qy) by nia. subst. lia.
Qed.

Lemma cell_index_lt W H px py : px < W -> py < H -> py * W + px < W * H.
Proof. intros. nia. Qed.

Lemma commitRect_indices W vp x y rectW rectH :
  commitRect W vp x y rectW rectH = foldl mark vp (rectIndices W x y rectW rectH).
Proof.
  unfold commitRect, rectIndices.
  revert vp. induction (seq 0 rectH) as [|vY rows IH]; intros vp; simpl; [reflexivity|].
  rewrite foldl_app, <- IH. f_equal.
  generalize (seq 0 rectW) as cols. intros cols. revert vp.
  induction cols as [|vX cols IHc]; intros vp; simpl; [reflexivity|]. apply IHc.
Qed.

Lemma elem_of_rectIndices W x y rectW rectH i :
  i ∈ rectIndices W x y rectW rectH <->
  exists vX vY, vX < rectW /\ vY < rectH /\ i = (y + vY) * W + (x + vX).
Proof.
  unfold rectIndices. rewrite list_elem_of_In, in_flat_map. split.
  - intros (vY & HY & Hi). apply in_map_iff in Hi. destruct Hi as (vX & <- & HX).
    apply in_seq in HY. apply in_seq in HX. exists vX, vY. repeat split; lia.
  - intros (vX & vY & HX & HY & ->). exists vY. split; [apply in_seq; lia|].
    apply in_map_iff. exists vX. split; [reflexivity|apply in_seq; lia].
Qed.

Lemma cell_in_rectIndices W x y rectW rectH px py :
  px < W -> x + rectW <= W ->
  (py * W + px ∈ rectIndices W x y rectW rectH
   <-> (x <= px < x + rectW /\ y <= py < y + rectH)).
Proof.
  intros Hpx Hw. rewrite elem_of_rectIndices. split.
  - intros (vX & vY & HX & HY & E).
    apply cell_index_inj in E; [|lia|lia]. lia.
  - intros [Hx Hy]. exists (px - x), (py - y). repeat split; try lia.
    f_equal; [f_equal|]; lia.
Qed.

Lemma commitRect_spec W H vp x y rectW rectH :
  length (fst vp) = W * H -> x + rectW <= W -> y + rectH <= H ->
  let vp' := commitRect W vp x y rectW rectH in
  length (fst vp') = W * H
  /\ (forall j, vis (fst vp') j = true <->
                vis (fst vp) j = true \/ j ∈ rectIndices W x y rectW rectH)
  /\ (snd vp = countTrue (fst vp) -> snd vp' = countTrue (fst vp')).
Proof.
  intros HL Hw Hh. cbv zeta. rewrite commitRect_indices.
  destruct (marks_spec (rectIndices W x y rectW rectH) vp) as (L & V & C).
  { intros i Hi. apply elem_of_rectIndices in Hi.
    destruct Hi as (vX & vY & HX & HY & ->). rewrite HL.
    apply cell_index_lt; lia. }
  split; [congruence|]. split; assumption.
Qed.

(** ** Greedy growth *)

Section GrowFacts.

Variables W H : nat.
Variable data : list Z.
Variable v : list bool.
Variables x y : nat.
Variable color : Z.

Local Notation "'idx'" := (y * W + x).

Lemma growWidth_ge tol fuel rectW :
  rectW <= growWidth W data tol v x idx color fuel rectW.
Proof.
  revert rectW. induction fuel as [|fuel IH]; intros rectW; simpl; [lia|].
  destruct (_ && _ && _); [|lia]. specialize (IH (S rectW)). lia.
Qed.

Lemma growWidth_bound tol fuel rectW :
  x + rectW <= W -> x + growWidth W data tol v x idx color fuel rectW <= W.
Proof.
  revert rectW. induction fuel as [|fuel IH]; intros rectW Hb; simpl; [lia|].
  destruct (Nat.ltb_spec (x + rectW) W) as [Hlt|Hge]; simpl; [|lia].
  destruct (_ && _); [|lia]. apply IH. lia.
Qed.

Lemma growWidth_cells tol fuel rectW k :
  rectW <= k < growWidth W data tol v x idx color fuel rectW ->
  candidate data v color tol (idx + k).
Proof.
  revert rectW. induction fuel as [|fuel IH]; intros rectW Hk; simpl in Hk; [lia|].
  destruct (x + rectW <? W) eqn:E1; simpl in Hk; [|lia].
  destruct (vis v (idx + rectW)) eqn:E2; simpl in Hk; [lia|].
  destruct (isColorSimilar color (pixel data (idx + rectW)) tol) eqn:E3; [|lia].
  destruct (decide (k = rectW)) as [->|Hne]; [split; assumption|].
  apply (IH (S rectW)). lia.
Qed.

(** At the exit of the loop its condition is false. *)
Lemma growWidth_exit tol fuel rectW :
  W - (x + rectW) <= fuel ->
  let w := growWidth W data tol v x idx color fuel rectW in
  x + w < W -> ~ candidate data v color tol (idx + w).
Proof.
  revert rectW. induction fuel as [|fuel IH]; intros rectW Hf; simpl; [lia|].
  destruct (Nat.ltb_spec (x + rectW) W) as [Hlt|Hge]; simpl; [|lia].
  destruct (vis v (idx + rectW)) eqn:E2; simpl.
  { intros _ [C _]. congruence. }
  destruct (isColorSimilar color (pixel data (idx + rectW)) tol) eqn:E3.
  - apply IH. lia.
  - intros _ [_ C]. congruence.
Qed.

Lemma growWidth_full tol fuel rectW :
  W - (x + rectW) <= fuel -> x + rectW <= W ->
  (forall k, rectW <= k -> x + k < W -> candidate data v color tol (idx + k)) ->
  x + growWidth W data tol v x idx color fuel rectW = W.
Proof.
  intros Hf Hb Hall.
  pose proof (growWidth_bound tol fuel rectW Hb) as Hle.
  pose proof (growWidth_ge tol fuel rectW) as Hge.
  destruct (decide (x + growWidth W data tol v x idx color fuel rectW = W)) as [E|N];
    [exact E|].
  exfalso. apply (growWidth_exit tol fuel rectW Hf); [lia|].
  apply Hall; lia.
Qed.

Lemma growWidth_mono tol tol' fuel rectW :
  (tol <= tol')%Z ->
  growWidth W data tol v x idx color fuel rectW
  <= growWidth W data tol' v x idx color fuel rectW.
Proof.
  intros Ht. revert rectW. induction fuel as [|fuel IH]; intros rectW; simpl; [lia|].
  destruct (x + rectW <? W); simpl; [|lia].
  destruct (vis v (idx + rectW)); simpl; [lia|].
  destruct (isColorSimilar color (pixel data (idx + rectW)) tol) eqn:E.
  - rewrite (isColorSimilar_mono _ _ _ _ Ht E). apply IH.
  - destruct (isColorSimilar color (pixel data (idx + rectW)) tol'); [|lia].
    pose proof (growWidth_ge tol' fuel (S rectW)). lia.
Qed.

Lemma rowQualifies_spec tol row rectW :
  rowQualifies W data tol v x row color rectW = true
  <-> forall dw, dw < rectW -> candidate data v color tol (row * W + (x + dw)).
Proof.
  unfold rowQualifies, candidate. rewrite forallb_forall. split.
  - intros Hall dw Hdw. specialize (Hall dw ltac:(apply in_seq; lia)).
    apply negb_true_iff, orb_false_iff in Hall. destruct Hall as [A B].
    apply negb_false_iff in B. split; assumption.
  - intros Hall dw Hdw. apply in_seq in Hdw. destruct (Hall dw ltac:(lia)) as [A B].
    rewrite A, B. reflexivity.
Qed.

Lemma growHeight_ge tol rectW fuel rectH :
  rectH <= growHeight W H data tol v x y color rectW fuel rectH.
Proof.
  revert rectH. induction fuel as [|fuel IH]; intros rectH; simpl; [lia|].
  destruct (_ <? _); [|lia]. destruct (rowQualifies _ _ _ _ _ _ _ _); [|lia].
  specialize (IH (S rectH)). lia.
Qed.

Lemma growHeight_bound tol rectW fuel rectH :
  y + rectH <= H -> y + growHeight W H data tol v x y color rectW fuel rectH <= H.
Proof.
  revert rectH. induction fuel as [|fuel IH]; intros rectH Hb; simpl; [lia|].
  destruct (Nat.ltb_spec (y + rectH) H); [|lia].
  destruct (rowQualifies _ _ _ _ _ _ _ _); [|lia]. apply IH. lia.
Qed.

Lemma growHeight_rows tol rectW fuel rectH r :
  rectH <= r < growHeight W H data tol v x y color rectW fuel rectH ->
  rowQualifies W data tol v x (y + r) color rectW = true.
Proof.
  revert rectH. induction fuel as [|fuel IH]; intros rectH Hr; simpl in Hr; [lia|].
  destruct (y + rectH <? H); [|lia].
  destruct (rowQualifies W data tol v x (y + rectH) color rectW) eqn:E; [|lia].
  destruct (decide (r = rectH)) as [->|Hne]; [exact E|].
  apply (IH (S rectH)). lia.
Qed.

Lemma growHeight_exit tol rectW fuel rectH :
  H - (y + rectH) <= fuel ->
  let h := growHeight W H data tol v x y color rectW fuel rectH in
  y + h < H -> rowQualifies W data tol v x (y + h) color rectW = false.
Proof.
  revert rectH. induction fuel as [|fuel IH]; intros rectH Hf; simpl; [lia|].
  destruct (Nat.ltb_spec (y + rectH) H); [|lia].
  destruct (rowQualifies W data tol v x (y + rectH) color rectW) eqn:E.
  - apply IH. lia.
  - intros _. exact E.
Qed.

Lemma growHeight_full tol rectW fuel rectH :
  H - (y + rectH) <= fuel -> y + rectH <= H ->
  (forall r, rectH <= r -> y + r < H ->
             rowQualifies W data tol v x (y + r) color rectW = true) ->
  y + growHeight W H data tol v x y color rectW fuel rectH = H.
Proof.
  intros Hf Hb Hall.
  pose proof (growHeight_bound tol rectW fuel rectH Hb) as Hle.
  pose proof (growHeight_ge tol rectW fuel rectH) as Hge.
  destruct (decide (y + growHeight W H data tol v x y color rectW fuel rectH = H))
    as [E|N]; [exact E|].
  exfalso. pose proof (growHeight_exit tol rectW fuel rectH Hf ltac:(lia)) as Hx.
  cbv zeta in Hx. rewrite Hall in Hx; [discriminate|lia|lia].
Qed.

Lemma growHeight_mono tol tol' rectW fuel rectH :
  (tol <= tol')%Z ->
  growHeight W H data tol v x y color rectW fuel rectH
  <= growHeight W H data tol' v x y color rectW fuel rectH.
Proof.
  intros Ht. revert rectH. induction fuel as [|fuel IH]; intros rectH; simpl; [lia|].
  destruct (y + rectH <? H); [|lia].
  destruct (rowQualifies W data tol v x (y + rectH) color rectW) eqn:E.
  - assert (E' : rowQualifies W data tol' v x (y + rectH) color rectW = true).
    { apply rowQualifies_spec. intros dw Hdw.
      destruct (proj1 (rowQualifies_spec tol _ _) E dw Hdw) as [A B].
      split; [exact A|]. eapply isColorSimilar_mono; eassumption. }
    rewrite E'. apply IH.
  - destruct (rowQualifies W data tol' v x (y + rectH) color rectW); [|lia].
    pose proof (growHeight_ge tol' rectW fuel (S rectH)). lia.
Qed.

End GrowFacts.

(** ** First occurrences *)

Lemma existsb_eqb_elem (c : Z) (l : list Z) : existsb (Z.eqb c) l = true <-> c ∈ l.
Proof.
  rewrite existsb_exists, list_elem_of_In. split.
  - intros (k & Hk & E). apply Z.eqb_eq in E. congruence.
  - intros Hc. exists c. split; [exact Hc|apply Z.eqb_refl].
Qed.

Lemma firstOccurrences_snoc cs c :
  firstOccurrences (cs ++ [c]) =
  if existsb (Z.eqb c) (firstOccurrences cs)
  then firstOccurrences cs else firstOccurrences cs ++ [c].
Proof. unfold firstOccurrences. rewrite foldl_app. reflexivity. Qed.

Lemma firstOccurrences_elem cs c : c ∈ firstOccurrences cs <-> c ∈ cs.
Proof.
  induction cs as [|k cs IH] using rev_ind.
  - reflexivity.
  - rewrite firstOccurrences_snoc.
    destruct (existsb (Z.eqb k) (firstOccurrences cs)) eqn:E.
    + apply existsb_eqb_elem in E. rewrite elem_of_app, list_elem_of_singleton.
      split; [tauto|]. intros [?| ->]; tauto.
    + rewrite !elem_of_app. tauto.
Qed.

Lemma firstOccurrences_NoDup cs : NoDup (firstOccurrences cs).
Proof.
  induction cs as [|k cs IH] using rev_ind.
  - constructor.
  - rewrite firstOccurrences_snoc.
    destruct (existsb (Z.eqb k) (firstOccurrences cs)) eqn:E; [exact IH|].
    apply NoDup_app. split; [exact IH|]. split; [|apply NoDup_singleton].
    intros c Hc Hk. apply list_elem_of_singleton in Hk. subst c.
    apply existsb_eqb_elem in Hc. congruence.
Qed.

(** The general accumulator form, and the usual recursive reading: the
    head first, then the first occurrences of the rest without it. *)
Lemma firstOccurrences_acc acc cs :
  NoDup acc ->
  foldl (fun a c => if existsb (Z.eqb c) a then a else a ++ [c]) acc cs
  = acc ++ List.filter (fun c => negb (existsb (Z.eqb c) acc)) (firstOccurrences cs).
Proof.
  intros Hacc. induction cs as [|k cs IH] using rev_ind.
  - simpl. rewrite app_nil_r. reflexivity.
  - rewrite foldl_app, firstOccurrences_snoc. simpl. rewrite IH.
    set (keep := fun c => negb (existsb (Z.eqb c) acc)).
    destruct (existsb (Z.eqb k) (firstOccurrences cs)) eqn:E1.
    + apply existsb_eqb_elem in E1.
      destruct (existsb (Z.eqb k) (acc ++ List.filter keep (firstOccurrences cs))) eqn:E2;
        [reflexivity|].
      exfalso. apply not_true_iff_false in E2. apply E2. apply existsb_eqb_elem.
      destruct (existsb (Z.eqb k) acc) eqn:E3.
      * apply elem_of_app. left. apply existsb_eqb_elem. exact E3.
      * apply elem_of_app. right. apply list_elem_of_In, filter_In.
        split; [apply list_elem_of_In; exact E1|]. unfold keep. rewrite E3. reflexivity.
    + rewrite List.filter_app. simpl.
      assert (Hk : keep k = negb (existsb (Z.eqb k) acc)) by reflexivity.
      rewrite Hk.
      destruct (existsb (Z.eqb k) acc) eqn:E3; simpl.
      * rewrite app_nil_r.
        assert (E2 : existsb (Z.eqb k) (acc ++ List.filter keep (firstOccurrences cs)) = true).
        { apply existsb_eqb_elem, elem_of_app. left. apply existsb_eqb_elem. exact E3. }
        rewrite E2. reflexivity.
      * assert (E2 : existsb (Z.eqb k) (acc ++ List.filter keep (firstOccurrences cs)) = false).
        { apply not_true_iff_false. intros C. apply existsb_eqb_elem, elem_of_app in C.
          destruct C as [C|C].
          - apply existsb_eqb_elem in C. congruence.
          - apply list_elem_of_In, filter_In in C. destruct C as [C _].
            apply list_elem_of_In, existsb_eqb_elem in C. congruence. }
        rewrite E2, app_assoc. reflexivity.
Qed.

Lemma firstOccurrences_cons c cs :
  firstOccurrences (c :: cs)
  = c :: List.filter (fun k => negb (k =? c)%Z) (firstOccurrences cs).
Proof.
  unfold firstOccurrences at 1. simpl.
  rewrite firstOccurrences_acc by apply NoDup_singleton. simpl.
  f_equal. apply filter_ext. intros k. rewrite orb_false_r. reflexivity.
Qed.

(** ** The insertion-ordered map over a list of distinct keys *)

Section Keyed.

Variable f : Z -> list string.

Local Notation "'keyed'" := (map (fun k => (k, f k))).

Lemma mapHas_keyed keys c : mapHas (keyed keys) c = existsb (Z.eqb c) keys.
Proof.
  induction keys as [|k keys IH]; simpl; [reflexivity|].
  rewrite (Z.eqb_sym c k). destruct (k =? c)%Z; [reflexivity|exact IH].
Qed.

Lemma mapGet_keyed keys c : c ∈ keys -> mapGet (keyed keys) c = f c.
Proof.
  induction keys as [|k keys IH]; intros Hc; simpl.
  - apply elem_of_nil in Hc. contradiction.
  - destruct (Z.eqb_spec k c) as [->|Hne]; [reflexivity|].
    apply IH. apply elem_of_cons in Hc. destruct Hc; [congruence|assumption].
Qed.

Lemma mapSet_keyed_in keys c d :
  NoDup keys -> c ∈ keys ->
  mapSet (keyed keys) c d = map (fun k => (k, if (k =? c)%Z then d else f k)) keys.
Proof.
  induction keys as [|k keys IH]; intros Hnd Hc; simpl.
  - apply elem_of_nil in Hc. contradiction.
  - apply NoDup_cons in Hnd. destruct Hnd as [Hk Hnd].
    destruct (Z.eqb_spec k c) as [->|Hne].
    + f_equal. apply map_ext_in. intros k Hk'.
      destruct (Z.eqb_spec k c) as [->|]; [|reflexivity].
      exfalso. apply Hk, list_elem_of_In. exact Hk'.
    + f_equal. apply IH; [exact Hnd|].
      apply elem_of_cons in Hc. destruct Hc; [congruence|assumption].
Qed.

Lemma mapSet_keyed_out keys c d :
  c ∉ keys -> mapSet (keyed keys) c d = keyed keys ++ [(c, d)].
Proof.
  induction keys as [|k keys IH]; intros Hc; simpl; [reflexivity|].
  destruct (Z.eqb_spec k c) as [->|Hne].
  - exfalso. apply Hc. left.
  - f_equal. apply IH. intros C. apply Hc. right. exact C.
Qed.

End Keyed.

(** ** Grouping the commands by colour *)

Lemma commandsFor_snoc c rs r :
  commandsFor c (rs ++ [r])
  = commandsFor c rs ++ (if (rcolor r =? c)%Z then [commandOf r] else []).
Proof.
  unfold commandsFor. rewrite List.filter_app, map_app. simpl.
  destruct (rcolor r =? c)%Z; reflexivity.
Qed.

Lemma commandsFor_absent c rs : c ∉ map rcolor rs -> commandsFor c rs = [].
Proof.
  induction rs as [|r rs IH]; intros Hc; [reflexivity|].
  unfold commandsFor. simpl. destruct (Z.eqb_spec (rcolor r) c) as [E|N].
  - exfalso. apply Hc. simpl. rewrite E. left.
  - apply IH. intros C. apply Hc. simpl. right. exact C.
Qed.

(** Pushing the command of a new rectangle keeps the map equal to the
    grouping of the stream. *)
Lemma pushPath_groupPaths rs r :
  pushPath (groupPaths rs) (rcolor r) (commandOf r) = groupPaths (rs ++ [r]).
Proof.
  unfold pushPath, groupPaths.
  rewrite map_app. change (map rcolor [r]) with [rcolor r].
  rewrite firstOccurrences_snoc.
  set (keys := firstOccurrences (map rcolor rs)).
  rewrite mapHas_keyed.
  pose proof (firstOccurrences_NoDup (map rcolor rs)) as Hnd. fold keys in Hnd.
  destruct (existsb (Z.eqb (rcolor r)) keys) eqn:E.
  - apply existsb_eqb_elem in E.
    rewrite mapGet_keyed by exact E.
    rewrite mapSet_keyed_in by assumption.
    apply map_ext. intros k. f_equal. rewrite commandsFor_snoc.
    rewrite (Z.eqb_sym (rcolor r) k).
    destruct (Z.eqb_spec k (rcolor r)) as [->|]; [reflexivity|].
    rewrite app_nil_r. reflexivity.
  - assert (Hout : rcolor r ∉ keys).
    { intros C. apply existsb_eqb_elem in C. congruence. }
    rewrite (mapSet_keyed_out _ keys (rcolor r) []) by exact Hout.
    assert (Hget : mapGet (map (fun k => (k, commandsFor k rs)) keys ++ [(rcolor r, [])])
                          (rcolor r) = []).
    { clear -Hout. induction keys as [|k keys IH]; simpl.
      - rewrite Z.eqb_refl. reflexivity.
      - destruct (Z.eqb_spec k (rcolor r)) as [->|].
        + exfalso. apply Hout. left.
        + apply IH. intros C. apply Hout. right. exact C. }
    rewrite Hget. simpl.
    assert (Hset : forall (m : PathMap) c d d',
               c ∉ map fst m -> mapSet (m ++ [(c, d)]) c d' = m ++ [(c, d')]).
    { clear. induction m as [|[k e] m IH]; intros c d d' Hc; simpl.
      - rewrite Z.eqb_refl. reflexivity.
      - destruct (Z.eqb_spec k c) as [->|].
        + exfalso. apply Hc. simpl. left.
        + f_equal. apply IH. intros C. apply Hc. simpl. right. exact C. }
    rewrite Hset.
    2:{ rewrite map_map. simpl. rewrite map_id. exact Hout. }
    rewrite map_app. simpl. f_equal.
    + apply map_ext_in. intros k Hk. f_equal. rewrite commandsFor_snoc.
      destruct (Z.eqb_spec (rcolor r) k) as [<-|]; [|rewrite app_nil_r; reflexivity].
      exfalso. apply Hout, list_elem_of_In. exact Hk.
    + rewrite commandsFor_snoc, Z.eqb_refl.
      rewrite commandsFor_absent; [reflexivity|].
      intros C. apply Hout. apply firstOccurrences_elem. exact C.
Qed.

Lemma commits_app l1 l2 : commits (l1 ++ l2) = commits l1 ++ commits l2.
Proof.
  induction l1 as [|[r|x y] l1 IH]; simpl; [reflexivity| |exact IH].
  rewrite IH. reflexivity.
Qed.

Lemma commits_elem r log : r ∈ commits log <-> Commit r ∈ log.
Proof.
  induction log as [|[r'|x y] log IH]; simpl.
  - rewrite !elem_of_nil. tauto.
  - rewrite !elem_of_cons, IH. split; intros [E|E]; auto; left; congruence.
  - rewrite elem_of_cons, IH. split; [auto|]. intros [E|E]; [discriminate|exact E].
Qed.

(** ** The rectangle grown from an unvisited anchor *)

Lemma grownRect_spec W H data tol v x y :
  x < W -> y < H -> vis v (y * W + x) = false ->
  let r := grownRect W H data tol v x y in
  rx r = x /\ ry r = y /\ rcolor r = pixel data (y * W + x)
  /\ 1 <= rw r /\ 1 <= rh r /\ x + rw r <= W /\ y + rh r <= H
  /\ (forall dx dy, dx < rw r -> dy < rh r ->
        candidate data v (pixel data (y * W + x)) tol ((y + dy) * W + (x + dx))).
Proof.
  intros Hx Hy Hv. unfold grownRect. cbn [rx ry rw rh rcolor].
  set (color := pixel data (y * W + x)).
  set (w := growWidth W data tol v x (y * W + x) color W 0).
  set (h := growHeight W H data tol v x y color w H 1).
  assert (Hw1 : 1 <= w).
  { unfold w. destruct W as [|W']; [lia|]. cbn [growWidth].
    rewrite !Nat.add_0_r, Hv. fold color.
    rewrite isColorSimilar_refl.
    destruct (Nat.ltb_spec x (S W')); [|lia]. cbn [andb negb].
    apply growWidth_ge. }
  assert (Hh1 : 1 <= h) by apply growHeight_ge.
  assert (Hwb : x + w <= W) by (apply growWidth_bound; lia).
  assert (Hhb : y + h <= H) by (apply growHeight_bound; lia).
  split; [reflexivity|]. split; [reflexivity|]. split; [reflexivity|].
  split; [exact Hw1|]. split; [exact Hh1|]. split; [exact Hwb|]. split; [exact Hhb|].
  intros dx dy Hdx Hdy. destruct dy as [|dy].
  - replace ((y + 0) * W + (x + dx)) with (y * W + x + dx) by lia.
    apply (growWidth_cells W data v x y color tol W 0 dx). fold w. lia.
  - assert (Hr : rowQualifies W data tol v x (y + S dy) color w = true).
    { apply (growHeight_rows W H data v x y color tol w H 1 (S dy)). fold h. lia. }
    apply (proj1 (rowQualifies_spec W data v x color tol (y + S dy) w) Hr dx Hdx).
Qed.

(** The loops stop for a reason: the rectangle cannot be extended to the
    right on the anchor row, nor downwards over its full width. *)
Lemma grownRect_maximal W H data tol v x y :
  let r := grownRect W H data tol v x y in
  (x + rw r < W ->
   ~ candidate data v (pixel data (y * W + x)) tol (y * W + x + rw r))
  /\ (y + rh r < H ->
      rowQualifies W data tol v x (y + rh r) (pixel data (y * W + x)) (rw r) = false).
Proof.
  cbv zeta. unfold grownRect. cbn [rw rh]. split.
  - apply (growWidth_exit W data v x y (pixel data (y * W + x)) tol W 0). lia.
  - apply (growHeight_exit W H data v x y (pixel data (y * W + x)) tol _ H 1). lia.
Qed.

(** ** One pixel of the scan *)

Lemma coverCount_snoc log e px py :
  coverCount (log ++ [e]) px py
  = coverCount log px py + (if covers e px py then 1 else 0).
Proof.
  unfold coverCount. rewrite List.filter_app, length_app. simpl.
  destruct (covers e px py); reflexivity.
Qed.

Lemma covers_commit_cell W r px py :
  px < W -> rx r + rw r <= W ->
  (covers (Commit r) px py = true
   <-> py * W + px ∈ rectIndices W (rx r) (ry r) (rw r) (rh r)).
Proof.
  intros Hpx Hw. rewrite cell_in_rectIndices by assumption.
  simpl. rewrite !andb_true_iff, !Nat.leb_le, !Nat.ltb_lt. lia.
Qed.

Lemma covers_skip_cell W x y px py :
  px < W -> x < W ->
  (covers (SkipTransparent x y) px py = true <-> y * W + x = py * W + px).
Proof.
  intros Hpx Hx. simpl. rewrite andb_true_iff, !Nat.eqb_eq. split.
  - intros [-> ->]. reflexivity.
  - intros E. exact (cell_index_inj W x y px py Hx Hpx E).
Qed.

Lemma marks_processed_le ixs vp : snd vp <= snd (foldl mark vp ixs).
Proof.
  revert vp. induction ixs as [|i ixs IH]; intros vp; simpl; [lia|].
  specialize (IH (mark vp i)).
  assert (snd vp <= snd (mark vp i)).
  { unfold mark. destruct (vis (fst vp) i); simpl; lia. }
  lia.
Qed.

(** How the cover count of a cell follows its visited bit when an event
    is appended. *)
Lemma cover_update (old new cov : bool) (n : nat) :
  n = (if old then 1 else 0) ->
  (new = true <-> old = true \/ cov = true) ->
  (cov = true -> old = false) ->
  n + (if cov then 1 else 0) = if new then 1 else 0.
Proof.
  intros -> [H1 H2] Hfresh.
  destruct old, cov, new; try reflexivity; exfalso;
    try (specialize (Hfresh eq_refl); discriminate);
    try (assert (false = true) by (apply H2; auto); discriminate).
  destruct (H1 eq_refl); discriminate.
Qed.

(** ** The invariant is kept by every pixel *)

Section Scan.

Variables W H : nat.
Variable data : list Z.
Variable tol : Z.

Lemma advances_refl st : advances st st.
Proof. split; [auto|lia]. Qed.

Lemma advances_trans st1 st2 st3 :
  advances st1 st2 -> advances st2 st3 -> advances st1 st3.
Proof. intros [A1 B1] [A2 B2]. split; [auto|lia]. Qed.

Lemma Inv_initial : Inv W H data tol (initialState W H).
Proof.
  constructor; simpl.
  - apply length_replicate.
  - rewrite countTrue_replicate_false. reflexivity.
  - intros px py _ _. rewrite vis_replicate_false. reflexivity.
  - constructor.
  - reflexivity.
Qed.

Lemma pixelStep_visited y st x :
  vis (visited st) (y * W + x) = true -> pixelStep W H data tol y st x = st.
Proof. intros Hv. unfold pixelStep. rewrite Hv. reflexivity. Qed.

Lemma pixelStep_inv y st x :
  x < W -> y < H -> Inv W H data tol st ->
  Inv W H data tol (pixelStep W H data tol y st x)
  /\ vis (visited (pixelStep W H data tol y st x)) (y * W + x) = true
  /\ advances st (pixelStep W H data tol y st x).
Proof.
  intros Hx Hy [IL IC IV IE IP].
  assert (Hidx : y * W + x < length (visited st)).
  { rewrite IL. apply cell_index_lt; assumption. }
  unfold pixelStep.
  destruct (vis (visited st) (y * W + x)) eqn:Hv.
  { split; [constructor; assumption|]. split; [exact Hv|apply advances_refl]. }
  destruct (Z.ltb_spec (alphaOf (pixel data (y * W + x))) 2) as [Ha|Ha].
  - (* a transparent pixel is recorded and skipped *)
    assert (Hnew : forall j, vis (<[y * W + x := true]> (visited st)) j = true
                             <-> vis (visited st) j = true \/ y * W + x = j).
    { intros j. rewrite vis_insert. intuition. }
    split; [constructor; cbn [visited processed colorPaths regions]|].
    + rewrite length_insert. exact IL.
    + rewrite countTrue_insert; [congruence|].
      unfold vis in Hv. destruct (lookup_lt_is_Some_2 _ _ Hidx) as [b Hb].
      rewrite Hb in Hv |- *. simpl in Hv. congruence.
    + intros px py Hpx Hpy. rewrite coverCount_snoc.
      apply cover_update with (old := vis (visited st) (py * W + px)).
      * apply IV; assumption.
      * rewrite Hnew, (covers_skip_cell W x y px py Hpx Hx). reflexivity.
      * intros Hc. apply (covers_skip_cell W x y px py Hpx Hx) in Hc.
        rewrite <- Hc. exact Hv.
    + apply Forall_app. split; [exact IE|]. constructor; [|constructor].
      simpl. auto.
    + rewrite commits_app. simpl. rewrite app_nil_r. exact IP.
    + unfold advances. cbn [visited processed]. split; [apply Hnew; auto|]. split; [|lia].
      intros i Hi. apply Hnew. auto.
  - (* a rectangle is grown and committed *)
    destruct (grownRect_spec W H data tol (visited st) x y Hx Hy Hv)
      as (Rx & Ry & Rc & Rw1 & Rh1 & Rwb & Rhb & Rcells).
    set (r := grownRect W H data tol (visited st) x y) in *.
    destruct (commitRect_spec W H (visited st, processed st) x y (rw r) (rh r)
                IL Rwb Rhb) as (CL & CV & CC).
    set (vp := commitRect W (visited st, processed st) x y (rw r) (rh r)) in *.
    cbn [fst snd] in CV, CC.
    assert (Hcov : forall px py, px < W ->
               (covers (Commit r) px py = true
                <-> py * W + px ∈ rectIndices W x y (rw r) (rh r))).
    { intros px py Hpx. pose proof (covers_commit_cell W r px py Hpx) as Hc.
      rewrite Rx, Ry in Hc. apply Hc. exact Rwb. }
    assert (Hfresh : forall px py, px < W -> covers (Commit r) px py = true ->
               candidate data (visited st) (pixel data (y * W + x)) tol (py * W + px)).
    { intros px py Hpx Hc. apply Hcov in Hc; [|exact Hpx].
      apply cell_in_rectIndices in Hc; [|assumption|assumption].
      replace px with (x + (px - x)) by lia. replace py with (y + (py - y)) by lia.
      apply Rcells; lia. }
    split; [constructor; cbn [visited processed colorPaths regions]|].
    + exact CL.
    + apply CC. exact IC.
    + intros px py Hpx Hpy. rewrite coverCount_snoc.
      apply cover_update with (old := vis (visited st) (py * W + px)).
      * apply IV; assumption.
      * rewrite CV, (Hcov px py Hpx). reflexivity.
      * intros Hc. apply (Hfresh px py Hpx Hc).
    + apply Forall_app. split; [exact IE|]. constructor; [|constructor].
      cbn [wellFormed]. rewrite Rx, Ry.
      split; [exact Rw1|]. split; [exact Rh1|]. split; [exact Rwb|].
      split; [exact Rhb|]. split; [exact Rc|]. split; [rewrite Rc; lia|].
      intros px py Hc. rewrite Rc.
      assert (Hpx : px < W).
      { cbn [covers] in Hc. rewrite Rx in Hc.
        rewrite !andb_true_iff, !Nat.leb_le, !Nat.ltb_lt in Hc. lia. }
      apply (Hfresh px py Hpx Hc).
    + rewrite commits_app. simpl. rewrite IP, <- Rc.
      apply pushPath_groupPaths.
    + unfold advances. cbn [visited processed]. split; [|split].
      * apply CV. right. replace (y * W + x) with ((y + 0) * W + (x + 0)) by lia.
        apply elem_of_rectIndices. exists 0, 0. repeat split; lia.
      * intros i Hi. apply CV. auto.
      * unfold vp. rewrite commitRect_indices.
        apply (marks_processed_le _ (visited st, processed st)).
Qed.

End Scan.

(** ** Rows, batches and the final state *)

Section Rows.

Variables W H : nat.
Variable data : list Z.
Variable tol : Z.

Lemma scanRow_prefix y st n :
  n <= W -> y < H -> Inv W H data tol st ->
  let st' := foldl (pixelStep W H data tol y) st (seq 0 n) in
  Inv W H data tol st' /\ advances st st'
  /\ (forall x, x < n -> vis (visited st') (y * W + x) = true).
Proof.
  intros Hn Hy HI. induction n as [|n IH]; cbv zeta.
  - simpl. split; [exact HI|]. split; [apply advances_refl|]. intros x Hx. lia.
  - rewrite seq_S, foldl_app. simpl.
    destruct (IH ltac:(lia)) as (I1 & A1 & V1).
    set (st1 := foldl (pixelStep W H data tol y) st (seq 0 n)) in *.
    destruct (pixelStep_inv W H data tol y st1 n ltac:(lia) Hy I1) as (I2 & V2 & A2).
    split; [exact I2|]. split; [eapply advances_trans; eassumption|].
    intros x Hx. destruct (decide (x = n)) as [->|Hne]; [exact V2|].
    apply A2. apply V1. lia.
Qed.

Lemma scanRow_inv y st :
  y < H -> Inv W H data tol st ->
  Inv W H data tol (scanRow W H data tol st y)
  /\ advances st (scanRow W H data tol st y)
  /\ (forall x, x < W -> vis (visited (scanRow W H data tol st y)) (y * W + x) = true).
Proof. intros Hy HI. apply (scanRow_prefix y st W); auto. Qed.

Lemma scanRows_inv st a b :
  b <= H -> Inv W H data tol st ->
  Inv W H data tol (scanRows W H data tol st a b) /\ advances st (scanRows W H data tol st a b)
  /\ (forall x y, x < W -> a <= y < b ->
                  vis (visited (scanRows W H data tol st a b)) (y * W + x) = true).
Proof.
  intros Hb HI. unfold scanRows.
  destruct (le_lt_dec b a) as [Hba|Hab].
  { replace (b - a) with 0 by lia. simpl.
    split; [exact HI|]. split; [apply advances_refl|]. intros x y _ Hy. lia. }
  remember (b - a) as n eqn:En.
  assert (Hn : a + n <= H) by lia.
  assert (Hcells : forall y, a <= y < b -> a <= y < a + n) by lia.
  clear En Hb.
  enough (Inv W H data tol (foldl (scanRow W H data tol) st (seq a n))
          /\ advances st (foldl (scanRow W H data tol) st (seq a n))
          /\ (forall x y, x < W -> a <= y < a + n ->
                 vis (visited (foldl (scanRow W H data tol) st (seq a n))) (y * W + x) = true))
    as (I & A & V).
  { split; [exact I|]. split; [exact A|]. intros x y Hx Hy. apply V; auto. }
  clear Hcells. induction n as [|n IH].
  - simpl. split; [exact HI|]. split; [apply advances_refl|]. intros x y _ Hy. lia.
  - rewrite seq_S, foldl_app. simpl.
    destruct (IH ltac:(lia)) as (I1 & A1 & V1).
    set (st1 := foldl (scanRow W H data tol) st (seq a n)) in *.
    destruct (scanRow_inv (a + n) st1 ltac:(lia) I1) as (I2 & A2 & V2).
    split; [exact I2|]. split; [eapply advances_trans; eassumption|].
    intros x y Hx Hy. destruct (decide (y = a + n)) as [->|Hne]; [apply V2; exact Hx|].
    apply A2. apply V1; [exact Hx|lia].
Qed.

Lemma scanRows_empty st a b : b <= a -> scanRows W H data tol st a b = st.
Proof. intros Hle. unfold scanRows. replace (b - a) with 0 by lia. reflexivity. Qed.

Lemma scanRows_compose st a b c :
  a <= b -> b <= c ->
  scanRows W H data tol (scanRows W H data tol st a b) b c = scanRows W H data tol st a c.
Proof.
  intros Hab Hbc. unfold scanRows.
  replace (c - a) with ((b - a) + (c - b)) by lia.
  rewrite seq_app, foldl_app. replace (a + (b - a)) with b by lia. reflexivity.
Qed.

(** ** The batch loop *)

Lemma batchLoop_state fuel batchY st reports :
  H - batchY <= fuel ->
  fst (batchLoop W H data tol fuel batchY st reports) = scanRows W H data tol st batchY H.
Proof.
  revert batchY st reports. induction fuel as [|fuel IH]; intros batchY st reports Hf.
  - simpl. rewrite scanRows_empty by lia. reflexivity.
  - simpl. destruct (Nat.ltb_spec batchY H) as [Hlt|Hge].
    + rewrite IH by (unfold BATCH_ROWS; lia).
      destruct (Nat.min_spec (batchY + BATCH_ROWS) H) as [[Hm ->]|[Hm ->]].
      * apply scanRows_compose; unfold BATCH_ROWS in *; lia.
      * rewrite (scanRows_empty _ (batchY + BATCH_ROWS) H) by lia. reflexivity.
    + simpl. rewrite scanRows_empty by lia. reflexivity.
Qed.

Lemma batchesFrom_done batchY : H <= batchY -> batchesFrom H batchY = 0.
Proof.
  intros Hle. unfold batchesFrom. replace (H - batchY) with 0 by lia. reflexivity.
Qed.

Lemma batchesFrom_step batchY :
  batchY < H -> batchesFrom H batchY = S (batchesFrom H (batchY + 25)).
Proof.
  intros Hlt. unfold batchesFrom.
  destruct (le_lt_dec (batchY + 25) H) as [Hle|Hgt].
  - replace (H - batchY + 24) with ((H - (batchY + 25) + 24) + 1 * 25) by lia.
    rewrite Nat.div_add by lia. lia.
  - replace (H - (batchY + 25) + 24) with 24 by lia.
    change (24 / 25) with 0. symmetry.
    apply Nat.div_unique with (r := H - batchY - 1); lia.
Qed.

Lemma batchLoop_reports fuel batchY st reports :
  H - batchY <= fuel ->
  snd (batchLoop W H data tol fuel batchY st reports)
  = reports ++ map (fun k => percentOf
                       (processed (scanRows W H data tol st batchY (Nat.min (batchY + 25 * S k) H)))
                       (W * H))
                   (seq 0 (batchesFrom H batchY)).
Proof.
  revert batchY st reports. induction fuel as [|fuel IH]; intros batchY st reports Hf.
  - simpl. rewrite batchesFrom_done by lia. simpl. rewrite app_nil_r. reflexivity.
  - cbn [batchLoop]. destruct (Nat.ltb_spec batchY H) as [Hlt|Hge].
    + rewrite IH by (unfold BATCH_ROWS; lia).
      rewrite (batchesFrom_step batchY Hlt).
      change (seq 0 (S (batchesFrom H (batchY + 25))))
        with (0 :: seq 1 (batchesFrom H (batchY + 25))).
      rewrite <- seq_shift, map_cons, map_map, <- app_assoc.
      change (batchY + BATCH_ROWS) with (batchY + 25).
      change (batchY + 25 * 1) with (batchY + 25).
      cbn [app]. f_equal. f_equal.
      apply map_ext_in. intros k Hk. apply in_seq in Hk. do 2 f_equal.
      destruct (le_lt_dec (batchY + 25) H) as [Hle|Hgt].
      * rewrite (Nat.min_l (batchY + 25) H) by lia.
        replace (batchY + 25 * S (S k)) with (batchY + 25 + 25 * S k) by lia.
        apply scanRows_compose; lia.
      * exfalso. rewrite batchesFrom_done in Hk by lia. lia.
    + simpl. rewrite batchesFrom_done by lia. simpl. rewrite app_nil_r. reflexivity.
Qed.

(** ** The whole grow phase *)

Lemma growPhase_state : fst (growPhase W H data tol) = afterRows W H data tol H.
Proof. unfold growPhase. apply batchLoop_state. lia. Qed.

Lemma growPhase_reports :
  snd (growPhase W H data tol)
  = map (fun k => percentOf (processed (afterRows W H data tol (Nat.min (25 * S k) H))) (W * H))
        (seq 0 ((H + 24) / 25)).
Proof.
  unfold growPhase. rewrite batchLoop_reports by lia. simpl.
  unfold batchesFrom. rewrite Nat.sub_0_r. reflexivity.
Qed.

Lemma afterRows_inv n :
  n <= H ->
  Inv W H data tol (afterRows W H data tol n)
  /\ (forall x y, x < W -> y < n -> vis (visited (afterRows W H data tol n)) (y * W + x) = true).
Proof.
  intros Hn. unfold afterRows.
  destruct (scanRows_inv (initialState W H) 0 n Hn (Inv_initial W H data tol))
    as (I & _ & V).
  split; [exact I|]. intros x y Hx Hy. apply V; [exact Hx|lia].
Qed.


Lemma final_all_visited i :
  i < W * H -> vis (visited (afterRows W H data tol H)) i = true.
Proof.
  intros Hi. destruct (afterRows_inv H (Nat.le_refl H)) as [_ V].
  assert (HW : 0 < W) by (destruct W; lia).
  rewrite (Nat.div_mod_eq i W), (Nat.mul_comm W).
  apply V.
  - apply Nat.mod_upper_bound. lia.
  - apply Nat.Div0.div_lt_upper_bound. lia.
Qed.

Lemma final_visited : visited (afterRows W H data tol H) = replicate (W * H) true.
Proof.
  destruct (afterRows_inv H (Nat.le_refl H)) as [[IL _ _ _ _] _].
  destruct (countTrue_all (visited (afterRows W H data tol H))) as [_ E].
  { intros i Hi. apply final_all_visited. rewrite <- IL. exact Hi. }
  rewrite E, IL. reflexivity.
Qed.

Lemma final_processed : processed (afterRows W H data tol H) = W * H.
Proof.
  destruct (afterRows_inv H (Nat.le_refl H)) as [[IL IC _ _ _] _].
  destruct (countTrue_all (visited (afterRows W H data tol H))) as [E _].
  { intros i Hi. apply final_all_visited. rewrite <- IL. exact Hi. }
  rewrite IC, E, IL. reflexivity.
Qed.

End Rows.

(** ** Coverage *)

Lemma wellFormed_inGrid W H data tol e : wellFormed W H data tol e -> inGrid W H e.
Proof. destruct e as [r|x y]; simpl; tauto. Qed.

Lemma final_inv W H data tol : Inv W H data tol (fst (growPhase W H data tol)).
Proof. rewrite growPhase_state. apply afterRows_inv. lia. Qed.

Lemma final_wellFormed W H data tol e :
  e ∈ regions (fst (growPhase W H data tol)) -> wellFormed W H data tol e.
Proof.
  intros He. destruct (final_inv W H data tol) as [_ _ _ IE _].
  rewrite Forall_forall in IE. apply IE. exact He.
Qed.

Lemma final_cover_one W H data tol px py :
  px < W -> py < H ->
  coverCount (regions (fst (growPhase W H data tol))) px py = 1.
Proof.
  intros Hpx Hpy. pose proof (final_inv W H data tol) as [_ _ IV _ _].
  rewrite (IV px py Hpx Hpy), growPhase_state.
  rewrite final_all_visited; [reflexivity|]. apply cell_index_lt; assumption.
Qed.

Lemma final_mask W H data tol :
  visited (fst (growPhase W H data tol)) = replicate (W * H) true.
Proof. rewrite growPhase_state. apply final_visited. Qed.

Lemma coverCount_app l1 l2 px py :
  coverCount (l1 ++ l2) px py = coverCount l1 px py + coverCount l2 px py.
Proof. unfold coverCount. rewrite List.filter_app, length_app. reflexivity. Qed.

Lemma coverCount_elem log e px py :
  e ∈ log -> covers e px py = true -> 1 <= coverCount log px py.
Proof.
  intros He Hc. apply list_elem_of_In in He.
  assert (Hin : In e (List.filter (fun e => covers e px py) log))
    by (apply filter_In; split; assumption).
  unfold coverCount. destruct (List.filter _ log); [destruct Hin|simpl; lia].
Qed.

(** Two events at different positions of the stream that cover one cell
    make its cover count at least 2. *)
Lemma coverCount_two log i j ei ej px py :
  i < j -> log !! i = Some ei -> log !! j = Some ej ->
  covers ei px py = true -> covers ej px py = true ->
  2 <= coverCount log px py.
Proof.
  intros Hij Hi Hj Ci Cj.
  rewrite <- (take_drop_middle log i ei Hi).
  rewrite coverCount_app. change (ei :: drop (S i) log) with ([ei] ++ drop (S i) log).
  rewrite coverCount_app.
  assert (H1 : 1 <= coverCount [ei] px py).
  { apply (coverCount_elem _ ei); [left|exact Ci]. }
  assert (H2 : 1 <= coverCount (drop (S i) log) px py).
  { apply (coverCount_elem _ ej); [|exact Cj].
    apply list_elem_of_lookup. exists (j - S i).
    rewrite lookup_drop. replace (S i + (j - S i)) with j by lia. exact Hj. }
  lia.
Qed.

(** C1. At the end of the grow phase the committed rectangles and the
    skipped transparent pixels partition the grid: every cell of the
    W x H grid is accounted for by exactly one event, every event lies
    inside the grid, no two events of the stream share a cell, every entry
    of the visited mask has gone from unset to set, and the counter of
    those transitions equals the number of pixels. *)
Theorem coverage_partition (W H : nat) (data : list Z) (tol : Z) :
  let st := fst (growPhase W H data tol) in
  (forall px py, px < W -> py < H -> coverCount (regions st) px py = 1)
  /\ Forall (inGrid W H) (regions st)
  /\ (forall i j ei ej px py,
        i <> j -> regions st !! i = Some ei -> regions st !! j = Some ej ->
        covers ei px py = true -> covers ej px py = false)
  /\ visited (initialState W H) = replicate (W * H) false
  /\ visited st = replicate (W * H) true
  /\ processed st = W * H.
Proof.
  cbv zeta. pose proof (final_inv W H data tol) as [_ _ _ IE _].
  assert (Hgrid : Forall (inGrid W H) (regions (fst (growPhase W H data tol)))).
  { eapply Forall_impl; [exact IE|]. intros e. apply wellFormed_inGrid. }
  split; [|split; [|split; [|split; [|split]]]].
  - intros px py. apply final_cover_one.
  - exact Hgrid.
  - intros i j ei ej px py Hij Hi Hj Ci.
    destruct (covers ej px py) eqn:Cj; [exfalso|reflexivity].
    assert (Hin : px < W /\ py < H).
    { rewrite Forall_forall in Hgrid.
      specialize (Hgrid ei ltac:(apply list_elem_of_lookup; eauto)).
      destruct ei as [r|x y]; simpl in Hgrid, Ci.
      - rewrite !andb_true_iff, !Nat.leb_le, !Nat.ltb_lt in Ci. lia.
      - rewrite andb_true_iff, !Nat.eqb_eq in Ci. lia. }
    destruct Hin as [Hpx Hpy].
    pose proof (final_cover_one W H data tol px py Hpx Hpy) as Hone.
    destruct (Nat.lt_gt_cases i j) as [Hne _]. destruct (Hne Hij) as [Hlt|Hgt].
    + pose proof (coverCount_two _ i j ei ej px py Hlt Hi Hj Ci Cj). lia.
    + pose proof (coverCount_two _ j i ej ei px py Hgt Hj Hi Cj Ci). lia.
  - reflexivity.
  - apply final_mask.
  - rewrite growPhase_state. apply final_processed.
Qed.

(** C10. Every committed rectangle is at least one pixel wide and one
    pixel high, is recorded under the colour of its anchor pixel, and
    contains that anchor. *)
Theorem committed_rect_nonempty (W H : nat) (data : list Z) (tol : Z) (r : RegionRect) :
  Commit r ∈ regions (fst (growPhase W H data tol)) ->
  1 <= rw r /\ 1 <= rh r
  /\ rcolor r = pixel data (ry r * W + rx r)
  /\ covers (Commit r) (rx r) (ry r) = true.
Proof.
  intros Hr. apply final_wellFormed in Hr.
  destruct Hr as (Hw & Hh & _ & _ & Hc & _).
  split; [exact Hw|]. split; [exact Hh|]. split; [exact Hc|].
  simpl. rewrite !andb_true_iff, !Nat.leb_le, !Nat.ltb_lt. lia.
Qed.

Lemma committed_rect_nonempty_witness :
  Commit (mkRect 0 0 2 1 4278190335)
    ∈ regions (fst (growPhase 2 1 [4278190335; 4278190335]%Z 0))
  /\ 1 <= 2 /\ 1 <= 1
  /\ 4278190335%Z = pixel [4278190335; 4278190335]%Z (0 * 2 + 0)
  /\ covers (Commit (mkRect 0 0 2 1 4278190335)) 0 0 = true.
Proof.
  assert (Hin : Commit (mkRect 0 0 2 1 4278190335)
                  ∈ regions (fst (growPhase 2 1 [4278190335; 4278190335]%Z 0))).
  { vm_compute. apply list_elem_of_here. }
  split; [exact Hin|].
  exact (committed_rect_nonempty 2 1 [4278190335; 4278190335]%Z 0 _ Hin).
Defined.

(** ** Progress *)



(** The percentage of 29 pixels out of 50 is 58 in exact arithmetic and 57
    in binary64, where 29 / 50 * 100 is 57.99999999999999. *)
Example percent_rounded_down :
  percentOf 29 50 = Percent 57 /\ (100 * 29 / 50 = 58)%Z.
Proof. split; [vm_compute; reflexivity|reflexivity]. Qed.

(** ** The document *)


(** ** Scanning a fully visited buffer changes nothing *)

Section Settled.

Variables W H : nat.
Variable data : list Z.
Variable tol : Z.
Variable st : GrowState.
Hypothesis settled : forall x y, x < W -> y < H -> vis (visited st) (y * W + x) = true.

Lemma settled_pixels y xs :
  y < H -> Forall (fun x => x < W) xs -> foldl (pixelStep W H data tol y) st xs = st.
Proof.
  intros Hy Hxs. induction Hxs as [|x xs Hx _ IH]; simpl; [reflexivity|].
  rewrite pixelStep_visited by (apply settled; assumption). exact IH.
Qed.

Lemma settled_rows ys :
  Forall (fun y => y < H) ys -> foldl (scanRow W H data tol) st ys = st.
Proof.
  intros Hys. induction Hys as [|y ys Hy _ IH]; simpl; [reflexivity|].
  unfold scanRow at 2. rewrite settled_pixels; [exact IH|exact Hy|].
  apply Forall_forall. intros x Hx. apply list_elem_of_In, in_seq in Hx. lia.
Qed.

End Settled.

Lemma seq_head n : 1 <= n -> seq 0 n = 0 :: seq 1 (n - 1).
Proof. intros Hn. destruct n; [lia|]. simpl. rewrite Nat.sub_0_r. reflexivity. Qed.

(** ** A buffer of one colour *)

Section Uniform.

Variables W H : nat.
Variable c : Z.
Variable tol : Z.
Hypothesis HW : 1 <= W.
Hypothesis HH : 1 <= H.
Hypothesis Hopaque : (2 <= alphaOf c)%Z.

Local Notation "'data'" := (replicate (W * H) c).

Lemma uniform_pixel i : i < W * H -> pixel data i = c.
Proof.
  intros Hi. unfold pixel. rewrite lookup_replicate_2 by exact Hi. reflexivity.
Qed.

Lemma uniform_candidate i :
  i < W * H -> candidate data (replicate (W * H) false) c tol i.
Proof.
  intros Hi. split; [apply vis_replicate_false|].
  rewrite uniform_pixel by exact Hi. apply isColorSimilar_refl.
Qed.

Lemma uniform_grownRect :
  grownRect W H data tol (replicate (W * H) false) 0 0 = mkRect 0 0 W H c.
Proof.
  unfold grownRect.
  assert (E0 : pixel data (0 * W + 0) = c) by (apply uniform_pixel; nia).
  rewrite E0.
  assert (Ew : growWidth W data tol (replicate (W * H) false) 0 (0 * W + 0) c W 0 = W).
  { pose proof (growWidth_full W data (replicate (W * H) false) 0 0 c tol W 0) as F.
    simpl in F. apply F; [lia|lia|].
    intros k _ Hk. apply uniform_candidate. nia. }
  rewrite Ew.
  assert (Eh : growHeight W H data tol (replicate (W * H) false) 0 0 c W H 1 = H).
  { pose proof (growHeight_full W H data (replicate (W * H) false) 0 0 c tol W H 1) as F.
    simpl in F. apply F; [lia|lia|].
    intros r _ Hr. apply rowQualifies_spec. intros dw Hdw.
    apply uniform_candidate. apply cell_index_lt; lia. }
  rewrite Eh. reflexivity.
Qed.

Lemma uniform_first_step :
  let st1 := pixelStep W H data tol 0 (initialState W H) 0 in
  regions st1 = [Commit (mkRect 0 0 W H c)]
  /\ colorPaths st1 = [(c, [rectCommand 0 0 W H])]
  /\ (forall x y, x < W -> y < H -> vis (visited st1) (y * W + x) = true).
Proof.
  cbv zeta.
  destruct (pixelStep_inv W H data tol 0 (initialState W H) 0 ltac:(lia) ltac:(lia)
              (Inv_initial W H data tol)) as ([_ _ IV _ _] & _ & _).
  assert (E : regions (pixelStep W H data tol 0 (initialState W H) 0)
              = [Commit (mkRect 0 0 W H c)]
              /\ colorPaths (pixelStep W H data tol 0 (initialState W H) 0)
                 = [(c, [rectCommand 0 0 W H])]).
  { unfold pixelStep. cbn [visited processed colorPaths regions initialState].
    rewrite vis_replicate_false.
    assert (E0 : pixel data (0 * W + 0) = c) by (apply uniform_pixel; nia).
    rewrite E0. destruct (Z.ltb_spec (alphaOf c) 2); [lia|].
    rewrite uniform_grownRect. cbn [visited processed colorPaths regions].
    split; [reflexivity|].
    unfold pushPath, commandOf. cbn [mapHas mapSet mapGet rx ry rw rh].
    rewrite Z.eqb_refl. reflexivity. }
  destruct E as [Er Ec]. split; [exact Er|]. split; [exact Ec|].
  intros x y Hx Hy. specialize (IV x y Hx Hy). rewrite Er in IV.
  unfold coverCount in IV. simpl in IV.
  destruct (Nat.ltb_spec x W); [|lia]. destruct (Nat.ltb_spec y H); [|lia].
  simpl in IV.
  destruct (vis _ (y * W + x)); [reflexivity|discriminate].
Qed.

Lemma uniform_final :
  let st := fst (growPhase W H data tol) in
  regions st = [Commit (mkRect 0 0 W H c)]
  /\ colorPaths st = [(c, [rectCommand 0 0 W H])].
Proof.
  cbv zeta. rewrite growPhase_state.
  destruct uniform_first_step as (Er & Ec & Hv).
  set (st1 := pixelStep W H data tol 0 (initialState W H) 0) in *.
  assert (Est : afterRows W H data tol H = st1).
  { unfold afterRows, scanRows.
    rewrite Nat.sub_0_r, (seq_head H HH). cbn [foldl].
    unfold scanRow at 2. rewrite (seq_head W HW). cbn [foldl]. fold st1.
    rewrite (settled_pixels W H data tol st1 Hv 0); [|lia|].
    - apply (settled_rows W H data tol st1 Hv).
      apply Forall_forall. intros y Hy. apply list_elem_of_In, in_seq in Hy. lia.
    - apply Forall_forall. intros x Hx. apply list_elem_of_In, in_seq in Hx. lia. }
  rewrite Est. split; assumption.
Qed.

End Uniform.

Lemma bledOrigin_0 : bledOrigin 0 = "-0.2"%string.
Proof. vm_compute. reflexivity. Qed.

(** The printed numbers, checked against their decimals on a range of
    sizes: [x - 0.2] prints as the integer below [x] followed by [.8], and
    [n + 0.4] as [n] followed by [.4]. *)
Lemma bledExtent_decimal n :
  n <= 256 -> bledExtent n = pretty n +:+ ".4".
Proof.
  intros Hn.
  assert (Hall : forallb (fun k => String.eqb (bledExtent k) (pretty k +:+ ".4"))
                         (seq 0 257) = true) by (vm_compute; reflexivity).
  rewrite forallb_forall in Hall. apply String.eqb_eq, Hall, in_seq. lia.
Qed.

Lemma bledOrigin_decimal n :
  n <= 256 -> bledOrigin (S n) = pretty n +:+ ".8".
Proof.
  intros Hn.
  assert (Hall : forallb (fun k => String.eqb (bledOrigin (S k)) (pretty k +:+ ".8"))
                         (seq 0 257) = true) by (vm_compute; reflexivity).
  rewrite forallb_forall in Hall. apply String.eqb_eq, Hall, in_seq. lia.
Qed.


(** ** Decimal digits *)

Lemma append_cons c (s1 s2 : string) : String c s1 +:+ s2 = String c (s1 +:+ s2).
Proof. reflexivity. Qed.

Lemma append_assoc (s1 s2 s3 : string) : (s1 +:+ s2) +:+ s3 = s1 +:+ s2 +:+ s3.
Proof.
  induction s1 as [|a s1 IH]; [reflexivity|].
  rewrite !append_cons, IH. reflexivity.
Qed.

Lemma length_append (s1 s2 : string) :
  String.length (s1 +:+ s2) = String.length s1 + String.length s2.
Proof.
  induction s1 as [|a s1 IH]; [reflexivity|].
  rewrite append_cons. simpl. rewrite IH. reflexivity.
Qed.

Lemma substring_prefix (s1 s2 : string) :
  String.substring 0 (String.length s1) (s1 +:+ s2) = s1.
Proof.
  induction s1 as [|a s1 IH].
  - destruct s2; reflexivity.
  - rewrite append_cons. simpl. rewrite IH. reflexivity.
Qed.

Lemma substring_suffix (s1 s2 : string) m :
  String.substring (String.length s1) m (s1 +:+ s2) = String.substring 0 m s2.
Proof.
  induction s1 as [|a s1 IH]; [reflexivity|].
  rewrite append_cons. simpl. exact IH.
Qed.

Lemma pretty_N_go_app x s : pretty_N_go x s = pretty_N_go x EmptyString +:+ s.
Proof.
  revert s. induction (N.lt_wf_0 x) as [x _ IH]. intros s.
  destruct (N.eq_dec x 0%N) as [->|Nx]; [reflexivity|].
  assert (Hx : (0 < x)%N) by lia.
  rewrite !(pretty_N_go_step x) by exact Hx.
  rewrite (IH (x `div` 10)%N) by (apply N.div_lt; lia).
  rewrite (IH (x `div` 10)%N ltac:(apply N.div_lt; lia) (String _ EmptyString)).
  rewrite append_assoc. reflexivity.
Qed.

Lemma pretty_N_snoc (x d : N) :
  (0 < x)%N -> (d < 10)%N ->
  pretty (10 * x + d)%N = pretty x +:+ String (pretty_N_char d) EmptyString.
Proof.
  intros Hx Hd. unfold pretty, pretty_N.
  destruct (decide (10 * x + d = 0)%N); [lia|].
  destruct (decide (x = 0)%N); [lia|].
  rewrite pretty_N_go_step by lia.
  replace ((10 * x + d) `div` 10)%N with x.
  2:{ apply (N.div_unique _ _ x d); lia. }
  replace ((10 * x + d) `mod` 10)%N with d.
  2:{ apply (N.mod_unique _ _ x d); lia. }
  apply pretty_N_go_app.
Qed.

Lemma pretty_N_bounds (x : N) :
  (0 < x)%N ->
  1 <= String.length (pretty x)
  /\ (10 ^ (Z.of_nat (String.length (pretty x)) - 1) <= Z.of_N x
      < 10 ^ Z.of_nat (String.length (pretty x)))%Z.
Proof.
  induction (N.lt_wf_0 x) as [x _ IH]. intros Hx.
  destruct (N.lt_ge_cases x 10%N) as [Hlt|Hge].
  - assert (E : pretty x = String (pretty_N_char x) EmptyString).
    { unfold pretty, pretty_N. destruct (decide (x = 0)%N); [lia|].
      rewrite pretty_N_go_step by lia.
      rewrite (N.div_small x 10), (N.mod_small x 10) by lia. reflexivity. }
    rewrite E. simpl. split; [lia|]. lia.
  - assert (E : x = (10 * (x `div` 10) + x `mod` 10)%N) by (apply N.div_mod; lia).
    assert (Hq : (0 < x `div` 10)%N) by (apply N.div_str_pos; lia).
    assert (Hm : (x `mod` 10 < 10)%N) by (apply N.mod_lt; lia).
    destruct (IH (x `div` 10)%N ltac:(apply N.div_lt; lia) Hq) as [L1 [B1 B2]].
    assert (Ep : pretty x
                 = pretty (x `div` 10)%N
                   +:+ String (pretty_N_char (x `mod` 10)) EmptyString).
    { rewrite E at 1. apply pretty_N_snoc; assumption. }
    rewrite Ep, length_append. simpl String.length.
    set (L := String.length (pretty (x `div` 10)%N)) in *.
    split; [lia|].
    assert (P1 : (10 ^ Z.of_nat (L + 1) = 10 * 10 ^ Z.of_nat L)%Z).
    { replace (Z.of_nat (L + 1)) with (Z.succ (Z.of_nat L)) by lia.
      apply Z.pow_succ_r. lia. }
    assert (P2 : (10 ^ (Z.of_nat (L + 1) - 1) = 10 * 10 ^ (Z.of_nat L - 1))%Z).
    { replace (Z.of_nat (L + 1) - 1)%Z with (Z.succ (Z.of_nat L - 1)) by lia.
      apply Z.pow_succ_r. lia. }
    rewrite P1, P2.
    assert (Ez : Z.of_N x = (10 * Z.of_N (x `div` 10) + Z.of_N (x `mod` 10))%Z).
    { rewrite E at 1. rewrite N2Z.inj_add, N2Z.inj_mul. reflexivity. }
    assert (Hm' : (0 <= Z.of_N (x `mod` 10) < 10)%Z).
    { split; [apply N2Z.is_nonneg|]. change 10%Z with (Z.of_N 10).
      apply N2Z.inj_lt. exact Hm. }
    generalize dependent (Z.of_N (x `mod` 10)). generalize dependent (Z.of_N (x `div` 10)).
    generalize (10 ^ Z.of_nat L)%Z (10 ^ (Z.of_nat L - 1))%Z. intros. lia.
Qed.

Lemma pretty_Z_of_nat (n : nat) : pretty (Z.of_nat n) = pretty n.
Proof. destruct n; reflexivity. Qed.

Lemma pretty_Z_of_N (x : N) : pretty (Z.of_N x) = pretty x.
Proof. destruct x; reflexivity. Qed.

(** Appending the digit 4 multiplies by 10 and adds 4. *)
Lemma pretty_Z_snoc4 (n : Z) :
  (0 < n)%Z -> pretty (10 * n + 4)%Z = pretty n +:+ "4".
Proof.
  intros Hn.
  rewrite <- (Z2N.id n) by lia.
  replace (10 * Z.of_N (Z.to_N n) + 4)%Z with (Z.of_N (10 * Z.to_N n + 4)) by lia.
  rewrite !pretty_Z_of_N. rewrite pretty_N_snoc by lia. reflexivity.
Qed.

Lemma pretty_Z_bounds (n : Z) :
  (0 < n)%Z ->
  1 <= String.length (pretty n)
  /\ (10 ^ (Z.of_nat (String.length (pretty n)) - 1) <= n
      < 10 ^ Z.of_nat (String.length (pretty n)))%Z.
Proof.
  intros Hn.
  assert (E : pretty n = pretty (Z.to_N n)).
  { rewrite <- (Z2N.id n) at 1 by lia. apply pretty_Z_of_N. }
  rewrite E. pose proof (pretty_N_bounds (Z.to_N n) ltac:(lia)) as B.
  rewrite Z2N.id in B by lia. exact B.
Qed.

(** ** The number [n + 0.4] *)

Section BledValue.
Local Open Scope Q_scope.
Import F64.

Lemma Qfloor_unique x (a : Z) :
  inject_Z a <= x -> x < inject_Z a + 1 -> Qfloor x = a.
Proof.
  intros H1 H2.
  pose proof (Qfloor_le x) as F1. pose proof (Qlt_floor x) as F2.
  rewrite inject_Z_plus in F2. change (inject_Z 1) with 1 in F2.
  assert (A : (Qfloor x < a + 1)%Z).
  { rewrite Zlt_Qlt, inject_Z_plus. change (inject_Z 1) with 1. lra. }
  assert (B : (a < Qfloor x + 1)%Z).
  { rewrite Zlt_Qlt, inject_Z_plus. change (inject_Z 1) with 1. lra. }
  lia.
Qed.

Lemma rne_down x (a : Z) :
  inject_Z a <= x -> x - inject_Z a < 1 # 2 -> rne x = a.
Proof.
  intros H1 H2. unfold rne.
  rewrite (Qfloor_unique x a H1 ltac:(lra)).
  destruct (Qcompare_spec (x - inject_Z a) (1 # 2)) as [E|E|E]; [lra|reflexivity|lra].
Qed.

Lemma rne_up x (a : Z) :
  1 # 2 < x - inject_Z a -> x < inject_Z a + 1 -> rne x = (a + 1)%Z.
Proof.
  intros H1 H2. unfold rne.
  rewrite (Qfloor_unique x a ltac:(lra) H2).
  destruct (Qcompare_spec (x - inject_Z a) (1 # 2)) as [E|E|E]; [lra|lra|reflexivity].
Qed.

(** A number of fifths that is not whole rounds the same way when less
    than a twentieth is added. *)
Lemma rne_fifths (N : Z) (x d : Q) :
  (N mod 5 <> 0)%Z -> x == inject_Z N / 5 -> 0 <= d -> d <= 1 # 20 ->
  rne (x + d) = rne x.
Proof.
  intros Hr Ex Hd0 Hd.
  pose proof (Z.div_mod N 5 ltac:(lia)) as E.
  pose proof (Z.mod_pos_bound N 5 ltac:(lia)) as Hb.
  set (a := (N / 5)%Z) in *. set (r := (N mod 5)%Z) in *. clearbody a r.
  assert (En : inject_Z N == 5 * inject_Z a + inject_Z r).
  { rewrite E, inject_Z_plus, inject_Z_mult. reflexivity. }
  assert (Ex' : x == inject_Z a + inject_Z r * (1 # 5)) by (rewrite Ex, En; field).
  assert (Hr1 : 1 <= inject_Z r <= 4).
  { split; [change 1 with (inject_Z 1)|change 4 with (inject_Z 4)];
      rewrite <- Zle_Qle; lia. }
  destruct (Z_le_gt_dec r 2) as [Hle|Hgt].
  - assert (Hr2 : inject_Z r <= 2)
      by (change 2 with (inject_Z 2); rewrite <- Zle_Qle; exact Hle).
    rewrite (rne_down (x + d) a), (rne_down x a); [reflexivity|lra..].
  - assert (Hr3 : 3 <= inject_Z r)
      by (change 3 with (inject_Z 3); rewrite <- Zle_Qle; clear - Hgt; lia).
    rewrite (rne_up (x + d) a), (rne_up x a); [reflexivity|lra..].
Qed.

Lemma pow2_mod5 (k : Z) : (0 <= k)%Z -> (2 ^ k mod 5 <> 0)%Z.
Proof.
  intros Hk. pattern k. apply natlike_ind; [discriminate| |exact Hk].
  intros x Hx IH. rewrite Z.pow_succ_r by exact Hx.
  pose proof (Z.mod_pos_bound (2 ^ x) 5 ltac:(lia)) as Hb.
  rewrite <- Z.mul_mod_idemp_r by lia.
  set (m := (2 ^ x mod 5)%Z) in *. clearbody m.
  assert (Hm : (m = 1 \/ m = 2 \/ m = 3 \/ m = 4)%Z) by lia.
  destruct Hm as [-> |[-> |[-> | ->]]]; discriminate.
Qed.

(** [0.2 * 2] in binary64: two fifths and a fifth of 2^-53. *)
Lemma bleed2_value : F64.mul bleed 2 == 3602879701896397 # 9007199254740992.
Proof. vm_compute. reflexivity. Qed.

(** Adding the binary64 [0.4] to an integer gives the binary64 number
    nearest to the integer plus two fifths. *)
Lemma add_bleed_nearest (n : Z) :
  (2 <= n < 2 ^ 52)%Z ->
  F64.add (inject_Z n) (F64.mul bleed 2) == round (inject_Z n + (2 # 5)).
Proof.
  intros [Hn1 Hn2]. unfold F64.add.
  assert (Qn : 2 <= inject_Z n) by (change 2 with (inject_Z 2); rewrite <- Zle_Qle; lia).
  set (c := 3602879701896397 # 9007199254740992).
  assert (E0 : round (inject_Z n + F64.mul bleed 2) == round (inject_Z n + c)).
  { apply round_compat.
    - pose proof bleed2_value as B. fold c in B. rewrite B. unfold c. lra.
    - rewrite bleed2_value. reflexivity. }
  rewrite E0. clear E0.
  set (e := Z.log2 n).
  destruct (Z.log2_spec n ltac:(lia)) as [S1 S2]. fold e in S1, S2.
  assert (He1 : (1 <= e)%Z).
  { unfold e. change 1%Z with (Z.log2 2). apply Z.log2_le_mono. lia. }
  assert (He2 : (e <= 51)%Z).
  { destruct (Z_le_gt_dec e 51); [assumption|].
    assert (2 ^ 52 <= 2 ^ e)%Z by (apply Z.pow_le_mono_r; lia). lia. }
  assert (B1 : pow2 e <= inject_Z n).
  { rewrite pow2_Z by lia. rewrite <- Zle_Qle. exact S1. }
  assert (B2 : inject_Z n + 1 <= pow2 (e + 1)).
  { rewrite pow2_Z by lia. change 1 with (inject_Z 1). rewrite <- inject_Z_plus, <- Zle_Qle.
    replace (e + 1)%Z with (Z.succ e) by lia. lia. }
  assert (L1 : ilog2 (inject_Z n + (2 # 5)) = e) by (apply ilog2_unique; lra).
  assert (L2 : ilog2 (inject_Z n + c) = e) by (apply ilog2_unique; unfold c; lra).
  rewrite !round_pos by (unfold c; lra). unfold roundPos. rewrite L1, L2.
  set (p := pow2 (e - 52)).
  assert (Hp : 0 < p) by apply pow2_pos.
  set (M := (2 ^ (52 - e))%Z).
  assert (HM : (1 <= M <= 2 ^ 51)%Z).
  { unfold M. split.
    - apply (Z.pow_le_mono_r 2 0); lia.
    - apply Z.pow_le_mono_r; lia. }
  assert (Ip : / p == inject_Z M).
  { unfold p, pow2, M. rewrite <- Qpower_opp.
    replace (- (e - 52))%Z with (52 - e)%Z by lia.
    rewrite Zpower_Qpower by lia. reflexivity. }
  assert (QM : 1 <= inject_Z M <= 2251799813685248).
  { split; [change 1 with (inject_Z 1)|change 2251799813685248 with (inject_Z (2 ^ 51))];
      rewrite <- Zle_Qle; lia. }
  assert (X1 : (inject_Z n + (2 # 5)) / p == inject_Z ((5 * n + 2) * M) / 5).
  { unfold Qdiv at 1. rewrite Ip, inject_Z_mult, inject_Z_plus, inject_Z_mult.
    change (inject_Z 5) with 5. change (inject_Z 2) with 2. field. }
  assert (X2 : (inject_Z n + c) / p
               == (inject_Z n + (2 # 5)) / p + inject_Z M * (1 # 45035996273704960)).
  { unfold Qdiv. rewrite Ip. unfold c. field. }
  assert (Hmod : (((5 * n + 2) * M) mod 5 <> 0)%Z).
  { replace ((5 * n + 2) * M)%Z with (2 * M + n * M * 5)%Z by ring.
    rewrite Z.mod_add by lia. unfold M. rewrite <- Z.pow_succ_r by lia.
    apply pow2_mod5. lia. }
  rewrite (rne_compat _ _ X2).
  rewrite (rne_fifths ((5 * n + 2) * M) _ _ Hmod X1); [reflexivity|lra|lra].
Qed.

End BledValue.

(** ** Printing [n + 0.4] *)

Section BledText.
Local Open Scope Q_scope.
Import F64.

Lemma Qle_bool_true x y : x <= y -> Qle_bool x y = true.
Proof. apply Qle_bool_iff. Qed.

Lemma Qle_bool_false x y : y < x -> Qle_bool x y = false.
Proof.
  intros H. destruct (Qle_bool x y) eqn:E; [|reflexivity].
  apply Qle_bool_iff in E. lra.
Qed.

Lemma pow10_Z e : (0 <= e)%Z -> JSNumber.pow10 e == inject_Z (10 ^ e).
Proof.
  intros H. unfold JSNumber.pow10. rewrite Zpower_Qpower by exact H. reflexivity.
Qed.

Lemma pow10_neg e : (0 <= e)%Z -> JSNumber.pow10 (- e) == / inject_Z (10 ^ e).
Proof.
  intros H. unfold JSNumber.pow10. rewrite Qpower_opp.
  rewrite Zpower_Qpower by exact H. reflexivity.
Qed.

Lemma shortest_eq fuel k v n :
  JSNumber.shortest fuel k v n
  = (let x := v * JSNumber.pow10 (k - n) in
     let lo := Qfloor x in
     let hi := (lo + 1)%Z in
     let loFirst := Qle_bool (x - inject_Z lo) (inject_Z hi - x) in
     let c1 := if loFirst then lo else hi in
     let c2 := if loFirst then hi else lo in
     if JSNumber.denotes v c1 n k then (c1, k)
     else if JSNumber.denotes v c2 n k then (c2, k)
     else match fuel with
          | O => (lo, k)
          | S fuel' => JSNumber.shortest fuel' (k + 1) v n
          end).
Proof. destruct fuel; reflexivity. Qed.

(** No decimal without fraction digits denotes a number strictly between
    two consecutive integers. *)
Lemma denotes_whole v (a s e n k : Z) :
  inject_Z a < v -> v < inject_Z a + 1 ->
  (n - k = e)%Z -> (0 <= e)%Z -> (0 <= s)%Z -> (s * 10 ^ e < 2 ^ 53)%Z ->
  JSNumber.denotes v s n k = false.
Proof.
  intros Ha1 Ha2 He He0 Hs Hm. unfold JSNumber.denotes. rewrite He.
  destruct (Qeq_bool _ v) eqn:E; [exfalso|reflexivity].
  apply Qeq_bool_iff in E.
  assert (P : (0 < 10 ^ e)%Z) by (apply Z.pow_pos_nonneg; lia).
  assert (Em : inject_Z s * JSNumber.pow10 e == inject_Z (s * 10 ^ e)).
  { rewrite pow10_Z by exact He0. rewrite inject_Z_mult. reflexivity. }
  assert (M0 : (0 <= s * 10 ^ e)%Z) by (clear - Hs P; nia).
  assert (R : round (inject_Z s * JSNumber.pow10 e) == inject_Z (s * 10 ^ e)).
  { apply Qeq_trans with (round (inject_Z (s * 10 ^ e))).
    - apply round_compat; [|exact Em]. rewrite Em.
      change 0 with (inject_Z 0%Z). rewrite <- Zle_Qle. exact M0.
    - apply round_Z. split; assumption. }
  rewrite R in E.
  destruct (Z_le_gt_dec (s * 10 ^ e) a) as [Hle|Hgt].
  - rewrite Zle_Qle in Hle. lra.
  - assert (Hge : (a + 1 <= s * 10 ^ e)%Z) by (clear - Hgt; lia).
    rewrite Zle_Qle, inject_Z_plus in Hge. change (inject_Z 1) with 1 in Hge. lra.
Qed.

Variable n : Z.
Hypothesis Hn : (2 <= n < 2 ^ 48)%Z.

Variable v : Q.
Hypothesis Hv : v = F64.add (inject_Z n) (F64.mul bleed 2).
Variable L : Z.
Hypothesis HL : L = Z.of_nat (String.length (pretty n)).

Lemma bled_value : v == round (inject_Z n + (2 # 5)).
Proof. rewrite Hv. apply add_bleed_nearest. clear - Hn. lia. Qed.

Lemma bled_near : inject_Z n + (7 # 20) < v /\ v < inject_Z n + (9 # 20).
Proof.
  assert (Qn : 2 <= inject_Z n <= 281474976710656).
  { split; [change 2 with (inject_Z 2)|change 281474976710656 with (inject_Z (2 ^ 48))];
      rewrite <- Zle_Qle; clear - Hn; lia. }
  pose proof (round_lower (inject_Z n + (2 # 5)) ltac:(lra)) as R1.
  pose proof (round_upper (inject_Z n + (2 # 5)) ltac:(lra)) as R2.
  rewrite <- bled_value in R1, R2. split; lra.
Qed.

Lemma digits_bounds : (1 <= L)%Z /\ (L <= 15)%Z /\ (10 ^ (L - 1) <= n < 10 ^ L)%Z.
Proof.
  destruct (pretty_Z_bounds n ltac:(clear - Hn; lia)) as [L1 [B1 B2]].
  rewrite <- HL in B1, B2.
  split; [rewrite HL; clear - L1; lia|]. split; [|split; assumption].
  destruct (Z_le_gt_dec L 15) as [H|H]; [exact H|exfalso].
  assert (10 ^ 15 <= 10 ^ (L - 1))%Z by (apply Z.pow_le_mono_r; lia).
  assert (2 ^ 48 < 10 ^ 15)%Z by reflexivity.
  clear - Hn B1 H0 H1. lia.
Qed.

Lemma bled_decExp : JSNumber.decExp v = L.
Proof.
  destruct bled_near as [V1 V2]. destruct digits_bounds as (L1 & L2 & B1 & B2).
  assert (Qn : 2 <= inject_Z n)
    by (change 2 with (inject_Z 2); rewrite <- Zle_Qle; clear - Hn; lia).
  unfold JSNumber.decExp.
  rewrite (Qle_bool_true 1 v) by lra.
  rewrite (Qfloor_unique v n) by lra. rewrite <- HL. cbv zeta.
  rewrite (Qle_bool_false (JSNumber.pow10 L) v).
  2:{ rewrite pow10_Z by lia.
      assert (inject_Z n + 1 <= inject_Z (10 ^ L)).
      { change 1 with (inject_Z 1). rewrite <- inject_Z_plus, <- Zle_Qle.
        clear - B2. lia. }
      lra. }
  rewrite (Qle_bool_true (JSNumber.pow10 (L - 1)) v); [reflexivity|].
  rewrite pow10_Z by lia.
  assert (inject_Z (10 ^ (L - 1)) <= inject_Z n) by (rewrite <- Zle_Qle; exact B1).
  lra.
Qed.

(** The levels with too few digits. *)
Lemma bled_skip fuel (k : Z) :
  (1 <= k <= L)%Z ->
  JSNumber.shortest (S fuel) k v L = JSNumber.shortest fuel (k + 1) v L.
Proof.
  intros Hk. destruct bled_near as [V1 V2]. destruct digits_bounds as (L1 & L2 & B1 & B2).
  assert (Qn : 2 <= inject_Z n)
    by (change 2 with (inject_Z 2); rewrite <- Zle_Qle; clear - Hn; lia).
  set (E := (10 ^ (L - k))%Z).
  assert (HE : (1 <= E <= 10 ^ (L - 1))%Z).
  { unfold E. split.
    - apply (Z.pow_le_mono_r 10 0); lia.
    - apply Z.pow_le_mono_r; lia. }
  assert (QE : 1 <= inject_Z E)
    by (change 1 with (inject_Z 1); rewrite <- Zle_Qle; clear - HE; lia).
  assert (Ep : JSNumber.pow10 (k - L) == / inject_Z E).
  { replace (k - L)%Z with (- (L - k))%Z by lia. apply pow10_neg. lia. }
  set (x := v * JSNumber.pow10 (k - L)).
  assert (Ex : x * inject_Z E == v).
  { unfold x. rewrite Ep. field. lra. }
  pose proof (Qfloor_le x) as Fl.
  assert (X0 : 0 <= x).
  { unfold x. rewrite Ep. apply Qmult_le_0_compat; [lra|].
    apply Qlt_le_weak, Qinv_lt_0_compat. lra. }
  assert (Lo0 : (0 <= Qfloor x)%Z).
  { change 0%Z with (Qfloor 0). apply Qfloor_resp_le. exact X0. }
  assert (LoE : inject_Z (Qfloor x) * inject_Z E <= v).
  { rewrite <- Ex. apply Qmult_le_compat_r; [exact Fl|lra]. }
  assert (M1 : (Qfloor x * E <= n)%Z).
  { assert (H : (Qfloor x * E < n + 1)%Z).
    { rewrite Zlt_Qlt, inject_Z_mult, inject_Z_plus. change (inject_Z 1) with 1. lra. }
    clear - H. lia. }
  assert (Big : (2 * 2 ^ 48 < 2 ^ 53)%Z) by reflexivity.
  assert (D1 : JSNumber.denotes v (Qfloor x) L k = false).
  { apply (denotes_whole v n (Qfloor x) (L - k)); try lra; try reflexivity.
    - clear - Hk. lia.
    - exact Lo0.
    - fold E. clear - M1 Hn Big. lia. }
  assert (D2 : JSNumber.denotes v (Qfloor x + 1) L k = false).
  { apply (denotes_whole v n (Qfloor x + 1) (L - k)); try lra; try reflexivity.
    - clear - Hk. lia.
    - clear - Lo0. lia.
    - fold E. clear - M1 Hn Big HE B1. lia. }
  rewrite shortest_eq. cbv zeta. fold x.
  destruct (Qle_bool (x - inject_Z (Qfloor x)) (inject_Z (Qfloor x + 1) - x));
    rewrite D1, D2; reflexivity.
Qed.

(** The level with one fraction digit. *)
Lemma bled_hit fuel :
  JSNumber.shortest fuel (L + 1) v L = ((10 * n + 4)%Z, (L + 1)%Z).
Proof.
  destruct bled_near as [V1 V2].
  assert (Qn : 2 <= inject_Z n)
    by (change 2 with (inject_Z 2); rewrite <- Zle_Qle; clear - Hn; lia).
  assert (E10 : JSNumber.pow10 (L + 1 - L) == 10).
  { replace (L + 1 - L)%Z with 1%Z by lia. reflexivity. }
  set (x := v * JSNumber.pow10 (L + 1 - L)).
  assert (Ex : x == v * 10) by (unfold x; rewrite E10; reflexivity).
  assert (I : inject_Z (10 * n + 4) == 10 * inject_Z n + 4).
  { rewrite inject_Z_plus, inject_Z_mult. reflexivity. }
  assert (D : JSNumber.denotes v (10 * n + 4) L (L + 1) = true).
  { unfold JSNumber.denotes. apply Qeq_bool_iff.
    rewrite bled_value. apply round_compat.
    - replace (L - (L + 1))%Z with (- (1))%Z by lia. rewrite pow10_neg by lia.
      rewrite I. change (inject_Z (10 ^ 1)) with 10.
      apply Qmult_le_0_compat; [lra|]. apply Qlt_le_weak, Qinv_lt_0_compat. reflexivity.
    - replace (L - (L + 1))%Z with (- (1))%Z by lia. rewrite pow10_neg by lia.
      rewrite I. change (inject_Z (10 ^ 1)) with 10. field. }
  rewrite shortest_eq. cbv zeta. fold x.
  destruct (Qlt_le_dec x (inject_Z (10 * n + 4))) as [Hlt|Hge].
  - assert (F : Qfloor x = (10 * n + 3)%Z).
    { apply Qfloor_unique.
      - rewrite inject_Z_plus, inject_Z_mult. change (inject_Z 10) with 10.
        change (inject_Z 3) with 3. lra.
      - rewrite inject_Z_plus, inject_Z_mult. change (inject_Z 10) with 10.
        change (inject_Z 3) with 3. lra. }
    rewrite F. replace (10 * n + 3 + 1)%Z with (10 * n + 4)%Z by lia.
    rewrite Qle_bool_false.
    + rewrite D. reflexivity.
    + rewrite I, inject_Z_plus, inject_Z_mult. change (inject_Z 10) with 10.
      change (inject_Z 3) with 3. lra.
  - assert (F : Qfloor x = (10 * n + 4)%Z).
    { apply Qfloor_unique; [exact Hge|]. rewrite I. lra. }
    rewrite F. rewrite Qle_bool_true.
    + rewrite D. reflexivity.
    + assert (I2 : inject_Z (10 * n + 4 + 1) == inject_Z (10 * n + 4) + 1)
        by (rewrite inject_Z_plus; reflexivity).
      lra.
Qed.

Lemma bled_shortest_from (j : nat) :
  forall fuel (k : Z),
    (1 <= k)%Z -> (k + Z.of_nat j = L + 1)%Z -> (j <= fuel)%nat ->
    JSNumber.shortest fuel k v L = ((10 * n + 4)%Z, (L + 1)%Z).
Proof.
  induction j as [|j IH]; intros fuel k Hk1 Hk Hf.
  - replace k with (L + 1)%Z by lia. apply bled_hit.
  - destruct fuel as [|fuel]; [lia|].
    rewrite bled_skip by lia. apply IH; lia.
Qed.

Lemma bled_toString : JSNumber.toString v = pretty n +:+ ".4".
Proof.
  destruct bled_near as [V1 V2]. destruct digits_bounds as (L1 & L2 & B1 & B2).
  assert (Qn : 2 <= inject_Z n)
    by (change 2 with (inject_Z 2); rewrite <- Zle_Qle; clear - Hn; lia).
  unfold JSNumber.toString.
  assert (G : Qcompare v 0 = Gt) by (apply Qgt_alt; lra).
  rewrite G. unfold JSNumber.toStringPos. rewrite bled_decExp.
  rewrite (bled_shortest_from (Z.to_nat L) 16 1) by (clear - L1 L2; lia).
  assert (Ne : ((10 * n + 4 =? 10 ^ (L + 1)) = false)%Z).
  { apply Z.eqb_neq. replace (L + 1)%Z with (Z.succ L) by lia.
    rewrite Z.pow_succ_r by lia. clear - B2. lia. }
  rewrite Ne. unfold JSNumber.render.
  assert (C1 : ((L + 1 <=? L) && (L <=? 21) = false)%Z).
  { destruct (Z.leb_spec (L + 1) L); [lia|reflexivity]. }
  assert (C2 : ((0 <? L) && (L <=? 21) = true)%Z).
  { destruct (Z.ltb_spec 0 L); [|lia]. destruct (Z.leb_spec L 21); [reflexivity|lia]. }
  rewrite C1, C2.
  rewrite pretty_Z_snoc4 by (clear - Hn; lia).
  replace (L + 1 - L)%Z with 1%Z by lia.
  rewrite HL, Nat2Z.id.
  rewrite substring_prefix, substring_suffix. reflexivity.
Qed.

End BledText.

(** [rectW + b * 2] prints as the integer followed by [.4]. *)
Lemma bledExtent_text (n : nat) :
  1 <= n -> (Z.of_nat n < 2 ^ 48)%Z -> bledExtent n = pretty n +:+ ".4".
Proof.
  intros H1 H2. destruct (le_lt_dec n 256) as [Hs|Hl].
  - apply bledExtent_decimal. exact Hs.
  - unfold bledExtent, F64.ofNat.
    rewrite (bled_toString (Z.of_nat n) ltac:(lia) _ eq_refl _ eq_refl).
    rewrite pretty_Z_of_nat. reflexivity.
Qed.

(** C3. Tracing a fully opaque, single-colour W x H buffer with any
    tolerance from 0 up yields exactly one rectangle, W x H at (0,0),
    exactly one path group, and a document with exactly one shape element
    whose path data is the one command M-0.2,-0.2hW.4vH.4h-W.4z, where W.4
    and H.4 are the decimals of W and H followed by .4, that is, W + 0.4
    and H + 0.4 as they print (for sides below 2^48). *)
Theorem uniform_image (W H : nat) (c tol : Z) :
  1 <= W -> 1 <= H -> (Z.of_nat W < 2 ^ 48)%Z -> (Z.of_nat H < 2 ^ 48)%Z ->
  isUint32 c -> alphaOf c = 255%Z -> (0 <= tol)%Z ->
  let st := fst (growPhase W H (replicate (W * H) c) tol) in
  let d := "M-0.2,-0.2h" +:+ pretty W +:+ ".4v" +:+ pretty H +:+ ".4h-"
           +:+ pretty W +:+ ".4z" in
  regions st = [Commit (mkRect 0 0 W H c)]
  /\ colorPaths st = [(c, [d])]
  /\ serialize W H (colorPaths st)
     = svgOpen W H
       +:+ ("<path d=" +:+ dq +:+ d +:+ dq
            +:+ " fill=" +:+ dq +:+ rgbaOf c +:+ dq
            +:+ " stroke=" +:+ dq +:+ rgbaOf c +:+ dq
            +:+ " stroke-width=" +:+ dq +:+ "0.5" +:+ dq
            +:+ " stroke-linejoin=" +:+ dq +:+ "round" +:+ dq +:+ " />")
       +:+ svgClose
  /\ serialize W H (colorPaths st) = svgOpen W H +:+ pathElement (c, [d]) +:+ svgClose
  /\ String.concat EmptyString [d] = d.
Proof.
  intros HW HH BW BH _ Ha _. cbv zeta.
  destruct (uniform_final W H c tol HW HH ltac:(lia)) as [Er Ec].
  assert (Ed : rectCommand 0 0 W H
               = "M-0.2,-0.2h" +:+ pretty W +:+ ".4v" +:+ pretty H +:+ ".4h-"
                 +:+ pretty W +:+ ".4z").
  { unfold rectCommand.
    rewrite bledOrigin_0, (bledExtent_text W HW BW), (bledExtent_text H HH BH).
    rewrite !append_assoc. reflexivity. }
  rewrite Ed in Ec.
  split; [exact Er|]. split; [exact Ec|].
  rewrite Ec. unfold serialize. cbn [map String.concat].
  split; [reflexivity|]. split; reflexivity.
Qed.

Lemma uniform_image_witness :
  1 <= 3 /\ 1 <= 2 /\ (Z.of_nat 3 < 2 ^ 48)%Z /\ (Z.of_nat 2 < 2 ^ 48)%Z
  /\ isUint32 4278190335 /\ alphaOf 4278190335 = 255%Z /\ (0 <= 1)%Z
  /\ let st := fst (growPhase 3 2 (replicate (3 * 2) 4278190335%Z) 1) in
     regions st = [Commit (mkRect 0 0 3 2 4278190335)]
     /\ colorPaths st = [(4278190335%Z, ["M-0.2,-0.2h3.4v2.4h-3.4z"%string])].
Proof.
  assert (H1 : 1 <= 3) by lia.
  assert (H2 : 1 <= 2) by lia.
  assert (B1 : (Z.of_nat 3 < 2 ^ 48)%Z) by reflexivity.
  assert (B2 : (Z.of_nat 2 < 2 ^ 48)%Z) by reflexivity.
  assert (H3 : isUint32 4278190335) by (unfold isUint32; lia).
  assert (H4 : alphaOf 4278190335 = 255%Z) by reflexivity.
  assert (H5 : (0 <= 1)%Z) by lia.
  split; [exact H1|]. split; [exact H2|]. split; [exact B1|]. split; [exact B2|].
  split; [exact H3|]. split; [exact H4|]. split; [exact H5|].
  destruct (uniform_image 3 2 4278190335 1 H1 H2 B1 B2 H3 H4 H5) as (Er & Ec & _).
  split; [exact Er|exact Ec].
Defined.


(** The four-quadrant scenario: four opaque colours in 2 x 2 blocks of a
    4 x 4 buffer, traced with tolerance 0. *)
Example four_quadrants :
  let red := 4278190335%Z in
  let green := 4278255360%Z in
  let blue := 4294901760%Z in
  let black := 4278190080%Z in
  let data := [red; red; green; green; red; red; green; green;
               blue; blue; black; black; blue; blue; black; black] in
  let st := fst (growPhase 4 4 data 0) in
  regions st = [Commit (mkRect 0 0 2 2 red); Commit (mkRect 2 0 2 2 green);
                Commit (mkRect 0 2 2 2 blue); Commit (mkRect 2 2 2 2 black)]
  /\ colorPaths st = [(red, ["M-0.2,-0.2h2.4v2.4h-2.4z"%string]);
                      (green, ["M1.8,-0.2h2.4v2.4h-2.4z"%string]);
                      (blue, ["M-0.2,1.8h2.4v2.4h-2.4z"%string]);
                      (black, ["M1.8,1.8h2.4v2.4h-2.4z"%string])]
  /\ map rgbaOf [red; green; blue; black]
     = ["rgba(255,0,0,1.0000)"; "rgba(0,255,0,1.0000)";
        "rgba(0,0,255,1.0000)"; "rgba(0,0,0,1.0000)"]%string
  /\ snd (growPhase 4 4 data 0) = [Percent 100].
Proof. cbv zeta. repeat split; vm_compute; reflexivity. Qed.

(** ** Tolerance *)

(** C4, as stated, fails: with a larger tolerance the anchor row grows
    wider, and the wider strip no longer qualifies on the next row. On the
    3 x 2 buffer [A A B / A A C], with B one unit of red away from A and C
    far from A, the rectangle grown from (0,0) has area 4 with tolerance 0
    and area 3 with tolerance 1, both as the first rectangle of the trace. *)
Lemma area_not_monotone :
  let A := 4278190080%Z in
  let B := 4278190081%Z in
  let C := 4278190335%Z in
  let data := [A; A; B; A; A; C] in
  grownRect 3 2 data 0 (replicate 6 false) 0 0 = mkRect 0 0 2 2 A
  /\ grownRect 3 2 data 1 (replicate 6 false) 0 0 = mkRect 0 0 3 1 A
  /\ head (regions (fst (growPhase 3 2 data 0))) = Some (Commit (mkRect 0 0 2 2 A))
  /\ head (regions (fst (growPhase 3 2 data 1))) = Some (Commit (mkRect 0 0 3 1 A))
  /\ ~ areaMonotone.
Proof.
  cbv zeta.
  assert (E0 : grownRect 3 2 [4278190080; 4278190080; 4278190081;
                              4278190080; 4278190080; 4278190335]%Z
                         0 (replicate 6 false) 0 0 = mkRect 0 0 2 2 4278190080)
    by (vm_compute; reflexivity).
  assert (E1 : grownRect 3 2 [4278190080; 4278190080; 4278190081;
                              4278190080; 4278190080; 4278190335]%Z
                         1 (replicate 6 false) 0 0 = mkRect 0 0 3 1 4278190080)
    by (vm_compute; reflexivity).
  split; [exact E0|]. split; [exact E1|].
  split; [vm_compute; reflexivity|]. split; [vm_compute; reflexivity|].
  intros Hmono.
  specialize (Hmono 3 2 [4278190080; 4278190080; 4278190081;
                         4278190080; 4278190080; 4278190335]%Z
                    (replicate 6 false) 0 0 0%Z 1%Z ltac:(lia)).
  rewrite E0, E1 in Hmono. unfold area in Hmono. simpl in Hmono. lia.
Qed.

(** C4, amended. For one buffer, one visited mask and one anchor, a larger
    tolerance accepts every pixel a smaller one accepts, never yields a
    narrower rectangle, and never a lower one when the width is the same;
    so the area cannot decrease unless the width has grown. *)
Theorem tolerance_monotone (W H : nat) (data : list Z) (v : list bool)
    (x y : nat) (tol tol' : Z) :
  (tol <= tol')%Z ->
  let r := grownRect W H data tol v x y in
  let r' := grownRect W H data tol' v x y in
  (forall c1 c2, isColorSimilar c1 c2 tol = true -> isColorSimilar c1 c2 tol' = true)
  /\ rw r <= rw r'
  /\ (rw r = rw r' -> rh r <= rh r' /\ area r <= area r').
Proof.
  intros Ht. cbv zeta. split; [|split].
  - intros c1 c2. apply isColorSimilar_mono. exact Ht.
  - unfold grownRect. cbn [rw]. apply growWidth_mono. exact Ht.
  - unfold grownRect, area. cbn [rw rh].
    set (w := growWidth W data tol v x (y * W + x) (pixel data (y * W + x)) W 0).
    set (w' := growWidth W data tol' v x (y * W + x) (pixel data (y * W + x)) W 0).
    clearbody w w'. intros <-.
    assert (Hh : growHeight W H data tol v x y (pixel data (y * W + x)) w H 1
                 <= growHeight W H data tol' v x y (pixel data (y * W + x)) w H 1)
      by (apply growHeight_mono; exact Ht).
    split; [exact Hh|]. apply Nat.mul_le_mono_l. exact Hh.
Qed.

Lemma tolerance_monotone_witness :
  (0 <= 1)%Z
  /\ let data := [4278190080; 4278190080; 4278190081;
                  4278190080; 4278190080; 4278190335]%Z in
     let r := grownRect 3 2 data 0 (replicate 6 false) 0 0 in
     let r' := grownRect 3 2 data 1 (replicate 6 false) 0 0 in
     (forall c1 c2, isColorSimilar c1 c2 0 = true -> isColorSimilar c1 c2 1 = true)
     /\ rw r <= rw r'
     /\ (rw r = rw r' -> rh r <= rh r' /\ area r <= area r').
Proof.
  assert (H1 : (0 <= 1)%Z) by lia.
  split; [exact H1|].
  exact (tolerance_monotone 3 2 _ (replicate 6 false) 0 0 0 1 H1).
Defined.

(** ** Failures of the entry point *)

(** C7. When the image fails to load the promise rejects with the load
    error, and when the 2d context cannot be acquired it rejects with the
    runtime error; in both cases no document is returned and the progress
    callback is never called. *)
Theorem trace_failures (host : Host) (imgUrl : string) (options : VectorOptions) :
  (loadImage host imgUrl = None ->
   traceImageToSVG host imgUrl options = (Rejected LoadError, []))
  /\ (forall img,
        loadImage host imgUrl = Some img ->
        getContext host (Z.to_nat (targetWidthOf options img))
                        (Z.to_nat (targetHeightOf options img)) = false ->
        traceImageToSVG host imgUrl options
        = (Rejected (RuntimeError "Canvas initialization failed"), [])).
Proof.
  unfold traceImageToSVG. split.
  - intros ->. reflexivity.
  - intros img -> ->. reflexivity.
Qed.

Lemma trace_failures_witness :
  let broken := mkHost (fun _ => None) (fun _ _ => true) (fun _ _ _ => []) in
  let blind := mkHost (fun _ => Some (mkImage 2 2)) (fun _ _ => false)
                      (fun _ _ _ => []) in
  (loadImage broken "blob:a" = None
   /\ traceImageToSVG broken "blob:a" defaultOptions = (Rejected LoadError, []))
  /\ (loadImage blind "blob:b" = Some (mkImage 2 2)
      /\ getContext blind (Z.to_nat (targetWidthOf defaultOptions (mkImage 2 2)))
                          (Z.to_nat (targetHeightOf defaultOptions (mkImage 2 2)))
         = false
      /\ traceImageToSVG blind "blob:b" defaultOptions
         = (Rejected (RuntimeError "Canvas initialization failed"), [])).
Proof.
  cbv zeta. split.
  - split; [reflexivity|].
    apply (proj1 (trace_failures _ "blob:a" defaultOptions)). reflexivity.
  - split; [reflexivity|]. split; [reflexivity|].
    apply (proj2 (trace_failures _ "blob:b" defaultOptions) (mkImage 2 2));
      reflexivity.
Defined.

Lemma trace_resolved (host : Host) (imgUrl : string) (options : VectorOptions) img :
  loadImage host imgUrl = Some img ->
  let W := Z.to_nat (targetWidthOf options img) in
  let H := Z.to_nat (targetHeightOf options img) in
  getContext host W H = true -> 0 < W -> 0 < H ->
  let run := growPhase W H (getImageData host img W H) (tolerance options) in
  traceImageToSVG host imgUrl options
  = (Resolved (serialize W H (colorPaths (fst run))), snd run).
Proof.
  intros Hl W H Hc HW HH. cbv zeta. unfold traceImageToSVG. rewrite Hl.
  fold W H. rewrite Hc. cbn [negb].
  destruct (Nat.eqb_spec W 0); [lia|]. destruct (Nat.eqb_spec H 0); [lia|].
  cbn [orb].
  destruct (growPhase W H (getImageData host img W H) (tolerance options)).
  reflexivity.
Qed.

(** ** Target dimensions *)

Section Scale.
Local Open Scope Q_scope.
Import F64.

Lemma inject_Z_pos z : (0 < z)%Z -> 0 < inject_Z z.
Proof. intros Hz. change 0 with (inject_Z 0%Z). rewrite <- Zlt_Qlt. exact Hz. Qed.

Lemma F64_div_pos x y : 0 < x -> 0 < y -> 0 < F64.div x y.
Proof.
  intros Hx Hy. unfold F64.div.
  assert (0 < x / y) by (apply Qlt_shift_div_l; [exact Hy|lra]).
  rewrite round_pos by assumption. apply roundPos_pos. assumption.
Qed.

Lemma F64_min_le_r x y : F64.min x y <= y.
Proof.
  unfold F64.min. destruct (Qle_bool x y) eqn:E; [|lra].
  apply Qle_bool_iff. exact E.
Qed.

Lemma F64_min_pos x y : 0 < x -> 0 < y -> 0 < F64.min x y.
Proof. intros Hx Hy. unfold F64.min. destruct (Qle_bool x y); assumption. Qed.

Lemma F64_mul_nonneg x y : 0 <= x -> 0 <= y -> 0 <= F64.mul x y.
Proof. intros Hx Hy. apply round_nonneg, Qmult_le_0_compat; assumption. Qed.

Lemma F64_mul_mono_r x y y' :
  0 <= x -> 0 <= y -> y <= y' -> F64.mul x y <= F64.mul x y'.
Proof.
  intros Hx Hy Hle. unfold F64.mul. apply round_mono.
  - apply Qmult_le_0_compat; assumption.
  - rewrite !(Qmult_comm x). apply Qmult_le_compat_r; assumption.
Qed.

Lemma F64_mul_Z a b :
  (0 <= a)%Z -> (0 <= b)%Z -> (a * b < 2 ^ 53)%Z ->
  F64.mul (inject_Z a) (inject_Z b) == inject_Z (a * b).
Proof.
  intros Ha Hb Hab. unfold F64.mul.
  assert (E : inject_Z a * inject_Z b == inject_Z (a * b))
    by (rewrite inject_Z_mult; reflexivity).
  assert (N : 0 <= inject_Z a * inject_Z b).
  { rewrite E. change 0 with (inject_Z 0%Z). rewrite <- Zle_Qle. nia. }
  rewrite (round_compat _ _ N E). apply round_Z. nia.
Qed.

(** The size computed from an image side [s] with a scale of at most 1
    is at most the size computed with the scale 1. *)
Lemma target_le_unscaled s scale ss :
  (0 < s)%Z -> 0 <= scale -> scale <= 1 -> (0 < ss)%Z ->
  (0 <= F64.floor (F64.mul (F64.mul (inject_Z s) scale) (inject_Z ss))
   <= F64.floor (F64.mul (F64.mul (inject_Z s) 1) (inject_Z ss)))%Z.
Proof.
  intros Hs H0 H1 Hss.
  pose proof (inject_Z_pos s Hs) as Qs. pose proof (inject_Z_pos ss Hss) as Qss.
  assert (M0 : 0 <= F64.mul (inject_Z s) scale) by (apply F64_mul_nonneg; lra).
  assert (M1 : F64.mul (inject_Z s) scale <= F64.mul (inject_Z s) 1)
    by (apply F64_mul_mono_r; lra).
  unfold F64.floor. split.
  - change 0%Z with (Qfloor 0). apply Qfloor_resp_le.
    apply F64_mul_nonneg; lra.
  - apply Qfloor_resp_le. apply F64_mul_mono; lra.
Qed.

Lemma unscaled_exact s ss :
  (0 < s)%Z -> (0 < ss)%Z -> (s * ss < 2 ^ 53)%Z ->
  F64.floor (F64.mul (F64.mul (inject_Z s) 1) (inject_Z ss)) = (s * ss)%Z.
Proof.
  intros Hs Hss Hb. unfold F64.floor.
  assert (E1 : F64.mul (inject_Z s) 1 == inject_Z s).
  { change 1 with (inject_Z 1%Z). rewrite F64_mul_Z by nia.
    rewrite Z.mul_1_r. reflexivity. }
  assert (E2 : F64.mul (F64.mul (inject_Z s) 1) (inject_Z ss) == inject_Z (s * ss)).
  { rewrite (F64_mul_compat _ (inject_Z s) (inject_Z ss)).
    - apply F64_mul_Z; lia.
    - apply F64_mul_nonneg; [|lra]. pose proof (inject_Z_pos s Hs). lra.
    - pose proof (inject_Z_pos ss Hss). lra.
    - exact E1. }
  rewrite (Qfloor_comp _ _ E2). apply Qfloor_Z.
Qed.

Lemma F64_min_le_l x y : F64.min x y <= x.
Proof.
  unfold F64.min. destruct (Qle_bool x y) eqn:E; [lra|].
  destruct (Qlt_le_dec y x) as [Hlt|Hle]; [lra|].
  apply Qle_bool_iff in Hle. congruence.
Qed.

(** One target side against the side of the box, for the quotient
    [d = box / s] the scale is bounded by. *)
Lemma target_within s box scale ss :
  (0 < s)%Z -> (0 < box)%Z -> (0 < ss)%Z -> (box * ss <= 2 ^ 51)%Z ->
  0 <= scale -> scale <= F64.div (inject_Z box) (inject_Z s) ->
  (F64.floor (F64.mul (F64.mul (inject_Z s) scale) (inject_Z ss)) <= box * ss)%Z.
Proof.
  intros Hs Hbox Hss Hb H0 Hd.
  pose proof (inject_Z_pos s Hs) as Qs.
  pose proof (inject_Z_pos box Hbox) as Qb.
  pose proof (inject_Z_pos ss Hss) as Qss.
  set (S := inject_Z s) in *. set (B := inject_Z box) in *. set (K := inject_Z ss) in *.
  set (u := 1 # 9007199254740992).
  assert (HBK : B * K <= 2251799813685248).
  { unfold B, K. rewrite <- inject_Z_mult.
    change 2251799813685248 with (inject_Z (2 ^ 51)). rewrite <- Zle_Qle. exact Hb. }
  assert (Q0 : 0 <= B / S) by (apply Qlt_le_weak, Qlt_shift_div_l; lra).
  assert (D1 : F64.div B S <= B / S * (1 + u)) by (apply round_upper; exact Q0).
  assert (E1 : S * (B / S) == B) by (field; lra).
  assert (P0 : 0 <= S * scale) by (apply Qmult_le_0_compat; lra).
  assert (P1 : S * scale <= B * (1 + u)).
  { apply Qle_trans with (S * (B / S * (1 + u))).
    - apply Qmult_le_l; [exact Qs|]. lra.
    - rewrite Qmult_assoc, E1. lra. }
  assert (M0 : 0 <= F64.mul S scale) by (apply round_nonneg; exact P0).
  assert (M1 : F64.mul S scale <= B * (1 + u) * (1 + u)).
  { apply Qle_trans with (S * scale * (1 + u)); [apply round_upper; exact P0|].
    apply Qmult_le_compat_r; [exact P1|]. unfold u. lra. }
  assert (N0 : 0 <= F64.mul S scale * K) by (apply Qmult_le_0_compat; lra).
  assert (N1 : F64.mul (F64.mul S scale) K <= B * K * ((1 + u) * (1 + u) * (1 + u))).
  { apply Qle_trans with (F64.mul S scale * K * (1 + u)); [apply round_upper; exact N0|].
    apply Qle_trans with (B * (1 + u) * (1 + u) * K * (1 + u)).
    - apply Qmult_le_compat_r; [|unfold u; lra].
      apply Qmult_le_compat_r; [exact M1|lra].
    - apply Qle_lteq. right. ring. }
  assert (N2 : B * K * ((1 + u) * (1 + u) * (1 + u)) < B * K + 1).
  { set (c := (1 + u) * (1 + u) * (1 + u)).
    assert (Hc : c < 1 + (1 # 2251799813685248)) by (unfold c, u; reflexivity).
    assert (Hc1 : 1 <= c) by (unfold c, u; discriminate).
    assert (HBK0 : 0 < B * K) by (apply Qmult_lt_0_compat; assumption).
    apply Qlt_le_trans with (B * K * (1 + (1 # 2251799813685248))).
    - apply Qmult_lt_l; assumption.
    - lra. }
  unfold F64.floor.
  pose proof (Qfloor_le (F64.mul (F64.mul S scale) K)) as Hf.
  assert (Hlt : inject_Z (Qfloor (F64.mul (F64.mul S scale) K)) < inject_Z (box * ss + 1)).
  { rewrite inject_Z_plus, inject_Z_mult. change (inject_Z 1) with 1.
    fold B K. lra. }
  rewrite <- Zlt_Qlt in Hlt. lia.
Qed.

Lemma scaleOf_positive_sides options img :
  (0 < width img)%Z -> (0 < height img)%Z ->
  scaleOf options img
  = F64.min (F64.min (F64.div (inject_Z (maxWidth options)) (inject_Z (width img)))
                     (F64.div (inject_Z (maxHeight options)) (inject_Z (height img))))
            1.
Proof.
  intros Hw Hh. unfold scaleOf, quotientOf.
  destruct (Z.eqb_spec (width img) 0); [lia|].
  destruct (Z.eqb_spec (height img) 0); [lia|]. reflexivity.
Qed.

Lemma scale_one options img :
  (0 < width img <= maxWidth options)%Z -> (0 < height img <= maxHeight options)%Z ->
  scaleOf options img == 1.
Proof.
  intros [Hw Hmw] [Hh Hmh].
  pose proof (inject_Z_pos _ Hw) as Qw. pose proof (inject_Z_pos _ Hh) as Qh.
  assert (R1 : round 1 == 1) by (apply (round_Z 1); lia).
  assert (Hdiv : forall m s, (0 < s <= m)%Z -> 1 <= F64.div (inject_Z m) (inject_Z s)).
  { intros m s [Hs Hm]. pose proof (inject_Z_pos _ Hs) as Qs.
    unfold F64.div. rewrite <- R1. apply round_mono; [lra|].
    apply Qle_shift_div_l; [exact Qs|]. rewrite Qmult_1_l, <- Zle_Qle. exact Hm. }
  pose proof (Hdiv _ _ (conj Hw Hmw)) as D1. pose proof (Hdiv _ _ (conj Hh Hmh)) as D2.
  rewrite scaleOf_positive_sides by assumption.
  set (d1 := F64.div (inject_Z (maxWidth options)) (inject_Z (width img))) in *.
  set (d2 := F64.div (inject_Z (maxHeight options)) (inject_Z (height img))) in *.
  assert (Hm : 1 <= F64.min d1 d2) by (unfold F64.min; destruct (Qle_bool d1 d2); assumption).
  unfold F64.min at 1. destruct (Qle_bool (F64.min d1 d2) 1) eqn:E; [|reflexivity].
  apply Qle_bool_iff in E. lra.
Qed.

Lemma side_unscaled s scale ss :
  (0 < s)%Z -> (0 < ss)%Z -> (s * ss < 2 ^ 53)%Z -> scale == 1 ->
  F64.floor (F64.mul (F64.mul (inject_Z s) scale) (inject_Z ss)) = (s * ss)%Z.
Proof.
  intros Hs Hss Hb E.
  pose proof (inject_Z_pos s Hs) as Qs. pose proof (inject_Z_pos ss Hss) as Qss.
  rewrite <- (unscaled_exact s ss Hs Hss Hb). unfold F64.floor.
  apply Qfloor_comp. apply F64_mul_compat; [|lra|].
  - apply round_nonneg, Qmult_le_0_compat; lra.
  - unfold F64.mul. apply round_compat.
    + apply Qmult_le_0_compat; lra.
    + rewrite E. reflexivity.
Qed.

Lemma F64_min_cases x y : F64.min x y = x \/ F64.min x y = y.
Proof. unfold F64.min. destruct (Qle_bool x y); [left|right]; reflexivity. Qed.

(** The scale is the least of 1 and the quotients by the sides that are
    not 0. *)
Lemma scaleOf_least options img :
  (0 < maxWidth options)%Z -> (0 < maxHeight options)%Z ->
  (0 <= width img)%Z -> (0 <= height img)%Z ->
  let scale := scaleOf options img in
  let dw := F64.div (inject_Z (maxWidth options)) (inject_Z (width img)) in
  let dh := F64.div (inject_Z (maxHeight options)) (inject_Z (height img)) in
  0 < scale /\ scale <= 1
  /\ ((0 < width img)%Z -> scale <= dw)
  /\ ((0 < height img)%Z -> scale <= dh)
  /\ (scale == 1
      \/ ((0 < width img)%Z /\ scale == dw)
      \/ ((0 < height img)%Z /\ scale == dh)).
Proof.
  intros HmW HmH Hw Hh. cbv zeta.
  pose proof (inject_Z_pos _ HmW) as QmW. pose proof (inject_Z_pos _ HmH) as QmH.
  set (dw := F64.div (inject_Z (maxWidth options)) (inject_Z (width img))).
  set (dh := F64.div (inject_Z (maxHeight options)) (inject_Z (height img))).
  assert (Pw : (0 < width img)%Z -> 0 < dw).
  { intros H. apply F64_div_pos; [exact QmW|apply inject_Z_pos; exact H]. }
  assert (Ph : (0 < height img)%Z -> 0 < dh).
  { intros H. apply F64_div_pos; [exact QmH|apply inject_Z_pos; exact H]. }
  unfold scaleOf, quotientOf. fold dw dh.
  destruct (Z.eqb_spec (width img) 0) as [Ew|Nw];
    destruct (Z.eqb_spec (height img) 0) as [Eh|Nh].
  - split; [reflexivity|]. split; [apply Qle_refl|].
    split; [intros; lia|]. split; [intros; lia|]. left. reflexivity.
  - assert (H : (0 < height img)%Z) by lia. specialize (Ph H).
    split; [apply F64_min_pos; [exact Ph|reflexivity]|].
    split; [apply F64_min_le_r|]. split; [intros; lia|].
    split; [intros _; apply F64_min_le_l|].
    destruct (F64_min_cases dh 1) as [-> | ->];
      [right; right; split; [exact H|reflexivity]|left; reflexivity].
  - assert (H : (0 < width img)%Z) by lia. specialize (Pw H).
    split; [apply F64_min_pos; [exact Pw|reflexivity]|].
    split; [apply F64_min_le_r|]. split; [intros _; apply F64_min_le_l|].
    split; [intros; lia|].
    destruct (F64_min_cases dw 1) as [-> | ->];
      [right; left; split; [exact H|reflexivity]|left; reflexivity].
  - assert (H1 : (0 < width img)%Z) by lia. assert (H2 : (0 < height img)%Z) by lia.
    specialize (Pw H1). specialize (Ph H2).
    split; [apply F64_min_pos; [apply F64_min_pos; assumption|reflexivity]|].
    split; [apply F64_min_le_r|].
    split; [intros _; apply Qle_trans with (F64.min dw dh); apply F64_min_le_l|].
    split; [intros _; apply Qle_trans with (F64.min dw dh);
            [apply F64_min_le_l|apply F64_min_le_r]|].
    destruct (F64_min_cases (F64.min dw dh) 1) as [-> | ->]; [|left; reflexivity].
    destruct (F64_min_cases dw dh) as [-> | ->];
      [right; left; split; [exact H1|reflexivity]
      |right; right; split; [exact H2|reflexivity]].
Qed.

(** A binary64 quotient against the exact one. *)
Lemma quotient_rounded a b :
  0 < a -> 0 < b ->
  a / b * (1 - (1 # 9007199254740992)) <= F64.div a b
  /\ F64.div a b <= a / b * (1 + (1 # 9007199254740992)).
Proof.
  intros Ha Hb.
  assert (Q0 : 0 <= a / b) by (apply Qlt_le_weak, Qlt_shift_div_l; lra).
  split; [apply round_lower|apply round_upper]; exact Q0.
Qed.

(** A binary64 product of three factors against the exact one. *)
Lemma product_rounded a s k :
  0 <= a -> 0 <= s -> 0 <= k ->
  let u := 1 # 9007199254740992 in
  a * s * k * ((1 - u) * (1 - u)) <= F64.mul (F64.mul a s) k
  /\ F64.mul (F64.mul a s) k <= a * s * k * ((1 + u) * (1 + u)).
Proof.
  intros Ha Hs Hk. cbv zeta. set (u := 1 # 9007199254740992).
  assert (P0 : 0 <= a * s) by (apply Qmult_le_0_compat; assumption).
  pose proof (round_lower (a * s) P0) as L1. pose proof (round_upper (a * s) P0) as U1.
  fold u in L1, U1. fold (F64.mul a s) in L1, U1.
  assert (M0 : 0 <= F64.mul a s) by (apply round_nonneg; exact P0).
  assert (N0 : 0 <= F64.mul a s * k) by (apply Qmult_le_0_compat; assumption).
  pose proof (round_lower _ N0) as L2. pose proof (round_upper _ N0) as U2.
  fold u in L2, U2. fold (F64.mul (F64.mul a s) k) in L2, U2.
  assert (Hu1 : 0 <= 1 - u) by (unfold u; lra).
  assert (Hu2 : 0 <= 1 + u) by (unfold u; lra).
  split.
  - apply Qle_trans with (F64.mul a s * k * (1 - u)); [|exact L2].
    apply Qle_trans with (a * s * (1 - u) * k * (1 - u)).
    + apply Qle_lteq. right. ring.
    + apply Qmult_le_compat_r; [|exact Hu1].
      apply Qmult_le_compat_r; [exact L1|exact Hk].
  - apply Qle_trans with (F64.mul a s * k * (1 + u)); [exact U2|].
    apply Qle_trans with (a * s * (1 + u) * k * (1 + u)).
    + apply Qmult_le_compat_r; [|exact Hu2].
      apply Qmult_le_compat_r; [exact U1|exact Hk].
    + apply Qle_lteq. right. ring.
Qed.

(** A target side against the exact product it is the floor of, and
    against the side computed with the scale 1. *)
Lemma target_side s scale ss :
  (0 <= s)%Z -> 0 <= scale -> scale <= 1 -> (0 < ss)%Z ->
  let u := 1 # 9007199254740992 in
  let t := F64.floor (F64.mul (F64.mul (inject_Z s) scale) (inject_Z ss)) in
  inject_Z s * scale * inject_Z ss * ((1 - u) * (1 - u)) - 1 < inject_Z t
  /\ inject_Z t <= inject_Z s * scale * inject_Z ss * ((1 + u) * (1 + u))
  /\ F64.mul (inject_Z s) scale <= F64.mul (inject_Z s) 1
  /\ (0 <= t <= F64.floor (F64.mul (F64.mul (inject_Z s) 1) (inject_Z ss)))%Z
  /\ ((s * ss < 2 ^ 53)%Z -> (t <= s * ss)%Z).
Proof.
  intros Hs H0 H1 Hss. cbv zeta.
  assert (Qs : 0 <= inject_Z s) by (change 0 with (inject_Z 0%Z); rewrite <- Zle_Qle; exact Hs).
  pose proof (inject_Z_pos ss Hss) as Qss.
  destruct (product_rounded (inject_Z s) scale (inject_Z ss) Qs H0 ltac:(lra)) as [L U].
  cbv zeta in L, U. unfold F64.floor.
  pose proof (Qfloor_le (F64.mul (F64.mul (inject_Z s) scale) (inject_Z ss))) as Fl.
  pose proof (Qlt_floor (F64.mul (F64.mul (inject_Z s) scale) (inject_Z ss))) as Fu.
  rewrite inject_Z_plus in Fu. change (inject_Z 1) with 1 in Fu.
  assert (M0 : 0 <= F64.mul (inject_Z s) scale) by (apply F64_mul_nonneg; lra).
  assert (M1 : F64.mul (inject_Z s) scale <= F64.mul (inject_Z s) 1)
    by (apply F64_mul_mono_r; lra).
  assert (T0 : (0 <= Qfloor (F64.mul (F64.mul (inject_Z s) scale) (inject_Z ss)))%Z).
  { change 0%Z with (Qfloor 0). apply Qfloor_resp_le. apply F64_mul_nonneg; lra. }
  assert (T1 : (Qfloor (F64.mul (F64.mul (inject_Z s) scale) (inject_Z ss))
                <= Qfloor (F64.mul (F64.mul (inject_Z s) 1) (inject_Z ss)))%Z).
  { apply Qfloor_resp_le. apply F64_mul_mono; lra. }
  split; [lra|]. split; [lra|]. split; [exact M1|]. split; [split; assumption|].
  intros Hb. destruct (Z.eq_dec s 0%Z) as [->|Ns].
  - assert (E0 : F64.mul (F64.mul (inject_Z 0%Z) 1) (inject_Z ss) = 0).
    { unfold F64.mul. rewrite (round_0 (inject_Z 0%Z * 1)) by reflexivity.
      apply round_0. apply Qmult_0_l. }
    rewrite E0 in T1. change (Qfloor 0) with 0%Z in T1. lia.
  - pose proof (unscaled_exact s ss ltac:(lia) Hss Hb) as E. unfold F64.floor in E.
    rewrite E in T1. exact T1.
Qed.
End Scale.



(** The four-quadrant scenario: a 2 x 2 source under the default options
    is traced at 4 x 4, and a source wider than the bounding box is scaled
    down. *)
Example target_dimensions_samples :
  targetWidthOf defaultOptions (mkImage 2 2) = 4%Z
  /\ targetHeightOf defaultOptions (mkImage 2 2) = 4%Z
  /\ targetWidthOf defaultOptions (mkImage 6000 3000) = 8192%Z
  /\ targetHeightOf defaultOptions (mkImage 6000 3000) = 4096%Z.
Proof. repeat split; vm_compute; reflexivity. Qed.

(** ** Transparent pixels *)

Lemma coverCount_pos log px py :
  0 < coverCount log px py -> exists e, e ∈ log /\ covers e px py = true.
Proof.
  unfold coverCount. intros Hc.
  destruct (List.filter (fun e => covers e px py) log) as [|e l] eqn:E; [simpl in Hc; lia|].
  assert (Hin : In e (List.filter (fun e => covers e px py) log)) by (rewrite E; left; reflexivity).
  apply filter_In in Hin. exists e. split; [apply list_elem_of_In|]; tauto.
Qed.

Lemma similar_opaque_anchor c p tol :
  (2 <= alphaOf c)%Z -> (tol <= 0)%Z -> isColorSimilar c p tol = true ->
  (2 <= alphaOf p)%Z.
Proof.
  intros Hc Ht Hs. apply isColorSimilar_true in Hs.
  destruct Hs as [<-|[[? ?]|(Ha & _)]]; lia.
Qed.

(** C9, as stated, fails. On the 3 x 1 buffer whose pixels have alpha 2,
    1 and 0, the first two with the same RGB and the third with another,
    traced with the default tolerance 1, the rectangle anchored at the
    first pixel absorbs the second: a pixel of alpha 1 lies under geometry,
    and the adjacent pair with alphas 1 and 0 is not merged into one
    skipped region (one is drawn, the other skipped). *)
Lemma transparent_pixel_absorbed :
  let p0 := 35525642%Z in
  let p1 := 18748426%Z in
  let p2 := 3302600%Z in
  let st := fst (growPhase 3 1 [p0; p1; p2] 1) in
  alphaOf p0 = 2%Z /\ alphaOf p1 = 1%Z /\ alphaOf p2 = 0%Z
  /\ (redOf p1, greenOf p1, blueOf p1) <> (redOf p2, greenOf p2, blueOf p2)
  /\ regions st = [Commit (mkRect 0 0 2 1 p0); SkipTransparent 2 0]
  /\ covers (Commit (mkRect 0 0 2 1 p0)) 1 0 = true
  /\ colorPaths st = [(p0, ["M-0.2,-0.2h2.4v1.4h-2.4z"%string])]
  /\ ~ transparentUncovered 3 1 [p0; p1; p2] 1.
Proof.
  cbv zeta.
  assert (Er : regions (fst (growPhase 3 1 [35525642; 18748426; 3302600]%Z 1))
               = [Commit (mkRect 0 0 2 1 35525642); SkipTransparent 2 0])
    by (vm_compute; reflexivity).
  split; [vm_compute; reflexivity|]. split; [vm_compute; reflexivity|].
  split; [vm_compute; reflexivity|]. split; [vm_compute; discriminate|].
  split; [exact Er|]. split; [reflexivity|]. split; [vm_compute; reflexivity|].
  intros Hclaim.
  specialize (Hclaim (mkRect 0 0 2 1 35525642) 1 0 ltac:(lia) ltac:(lia)).
  rewrite Er in Hclaim.
  assert (Hcov : covers (Commit (mkRect 0 0 2 1 35525642)) 1 0 = false).
  { apply Hclaim; [vm_compute; reflexivity|apply list_elem_of_here]. }
  discriminate Hcov.
Qed.

(** C9, amended. Every pixel ends visited. No rectangle is anchored at a
    pixel whose alpha is below 2, and no path group has such a colour:
    a pixel of alpha below 2 that the scan reaches unvisited is skipped
    without geometry, whatever its RGB and the tolerance. Two colours
    whose alphas are both below 2 are similar for every tolerance. With a
    tolerance of at most 0 no rectangle covers a pixel of alpha below 2,
    and each such pixel is recorded as skipped. A buffer whose pixels all
    have alpha below 2 commits no rectangle and yields a document with no
    shape element. *)
Theorem transparent_pixels (W H : nat) (data : list Z) (tol : Z) :
  let st := fst (growPhase W H data tol) in
  visited st = replicate (W * H) true
  /\ (forall r, Commit r ∈ regions st ->
        (2 <= alphaOf (rcolor r))%Z /\ rcolor r = pixel data (ry r * W + rx r))
  /\ (forall x y, SkipTransparent x y ∈ regions st ->
        (alphaOf (pixel data (y * W + x)) < 2)%Z)
  /\ (forall c d, (c, d) ∈ colorPaths st -> (2 <= alphaOf c)%Z)
  /\ (forall c1 c2 t, (alphaOf c1 < 2)%Z -> (alphaOf c2 < 2)%Z ->
        isColorSimilar c1 c2 t = true)
  /\ ((tol <= 0)%Z ->
      forall px py, px < W -> py < H -> (alphaOf (pixel data (py * W + px)) < 2)%Z ->
        SkipTransparent px py ∈ regions st
        /\ forall r, Commit r ∈ regions st -> covers (Commit r) px py = false)
  /\ ((forall i, i < W * H -> (alphaOf (pixel data i) < 2)%Z) ->
      commits (regions st) = [] /\ colorPaths st = []
      /\ serialize W H (colorPaths st) = svgOpen W H +:+ svgClose).
Proof.
  cbv zeta.
  pose proof (final_inv W H data tol) as [_ _ _ _ IP].
  pose proof (final_cover_one W H data tol) as Hcover.
  pose proof (final_mask W H data tol) as Hvis.
  assert (Hanchor : forall r, Commit r ∈ regions (fst (growPhase W H data tol)) ->
            (2 <= alphaOf (rcolor r))%Z /\ rcolor r = pixel data (ry r * W + rx r)).
  { intros r Hr. apply final_wellFormed in Hr.
    destruct Hr as (_ & _ & _ & _ & Hc & Ha & _). split; assumption. }
  assert (Hnocover : (tol <= 0)%Z -> forall r px py,
            Commit r ∈ regions (fst (growPhase W H data tol)) ->
            (alphaOf (pixel data (py * W + px)) < 2)%Z ->
            covers (Commit r) px py = false).
  { intros Ht r px py Hr Ha. pose proof (final_wellFormed _ _ _ _ _ Hr) as Hwf.
    destruct Hwf as (_ & _ & _ & _ & _ & Hac & Hsim).
    destruct (covers (Commit r) px py) eqn:E; [|reflexivity].
    pose proof (similar_opaque_anchor _ _ _ Hac Ht (Hsim px py E)). lia. }
  split; [exact Hvis|]. split; [exact Hanchor|]. split; [|split; [|split; [|split]]].
  - intros x y Hs. apply final_wellFormed in Hs. destruct Hs as (_ & _ & Ha). exact Ha.
  - intros c d Hcd. rewrite IP in Hcd. unfold groupPaths in Hcd.
    apply list_elem_of_In, in_map_iff in Hcd. destruct Hcd as (k & E & Hk).
    injection E as <- _.
    apply list_elem_of_In, firstOccurrences_elem, list_elem_of_In, in_map_iff in Hk.
    destruct Hk as (r & <- & Hr).
    apply list_elem_of_In, commits_elem in Hr. apply Hanchor. exact Hr.
  - intros c1 c2 t. apply isColorSimilar_transparent.
  - intros Ht px py Hpx Hpy Ha.
    split; [|intros r Hr; apply (Hnocover Ht r px py Hr Ha)].
    destruct (coverCount_pos _ px py ltac:(rewrite (Hcover px py Hpx Hpy); lia))
      as ([r|x y] & He & Hc).
    + rewrite (Hnocover Ht r px py He Ha) in Hc. discriminate.
    + simpl in Hc. apply andb_true_iff in Hc. destruct Hc as [Ex Ey].
      apply Nat.eqb_eq in Ex, Ey. subst. exact He.
  - intros Hall.
    assert (Enone : commits (regions (fst (growPhase W H data tol))) = []).
    { destruct (commits (regions (fst (growPhase W H data tol)))) as [|r rs] eqn:E;
        [reflexivity|].
      assert (Hr : Commit r ∈ regions (fst (growPhase W H data tol))).
      { apply commits_elem. rewrite E. left. }
      destruct (Hanchor r Hr) as [Ha Hc].
      pose proof (final_wellFormed _ _ _ _ _ Hr) as (Hw & Hh & Hwb & Hhb & _).
      specialize (Hall (ry r * W + rx r) ltac:(apply cell_index_lt; lia)).
      rewrite <- Hc in Hall. lia. }
    split; [exact Enone|].
    assert (Ec : colorPaths (fst (growPhase W H data tol)) = [])
      by (rewrite IP, Enone; reflexivity).
    split; [exact Ec|]. rewrite Ec. reflexivity.
Qed.

Lemma transparent_pixels_witness :
  let W := 2 in
  let H := 1 in
  let data := [18748426%Z; 3302600%Z] in
  let st := fst (growPhase W H data 0) in
  (0 <= 0)%Z /\ (alphaOf (pixel data (0 * W + 0)) < 2)%Z
  /\ (forall i, i < W * H -> (alphaOf (pixel data i) < 2)%Z)
  /\ (SkipTransparent 0 0 ∈ regions st
      /\ forall r, Commit r ∈ regions st -> covers (Commit r) 0 0 = false)
  /\ (commits (regions st) = [] /\ colorPaths st = []
      /\ serialize W H (colorPaths st) = svgOpen W H +:+ svgClose).
Proof.
  cbv zeta.
  assert (H1 : (0 <= 0)%Z) by lia.
  assert (H2 : (alphaOf (pixel [18748426%Z; 3302600%Z] (0 * 2 + 0)) < 2)%Z)
    by (vm_compute; reflexivity).
  assert (H3 : forall i, i < 2 * 1 ->
                 (alphaOf (pixel [18748426%Z; 3302600%Z] i) < 2)%Z).
  { intros i Hi.
    destruct i as [|[|i]];
      [vm_compute; reflexivity|vm_compute; reflexivity|simpl in Hi; lia]. }
  pose proof (transparent_pixels 2 1 [18748426%Z; 3302600%Z] 0) as T.
  cbv zeta in T. destruct T as (_ & _ & _ & _ & _ & Tzero & Tall).
  split; [exact H1|]. split; [exact H2|]. split; [exact H3|]. split.
  - apply (Tzero H1 0 0); [lia|lia|exact H2].
  - apply Tall. exact H3.
Defined.

(** * Further properties *)

Local Open Scope nat_scope.

(** * Further properties of the engine *)

(** ** The comparator as a relation *)

Section Comparator.
Local Open Scope Z_scope.

Lemma channel_range a : 0 <= JS.band a 255 < 256.
Proof. rewrite band_255. apply Z.mod_pos_bound. lia. Qed.

Lemma channels_range c :
  0 <= redOf c < 256 /\ 0 <= greenOf c < 256
  /\ 0 <= blueOf c < 256 /\ 0 <= alphaOf c < 256.
Proof. unfold redOf, greenOf, blueOf, alphaOf. repeat split; apply channel_range. Qed.

(** X1. The comparator is symmetric in its two colours. *)
Theorem isColorSimilar_sym (c1 c2 tol : Z) :
  isColorSimilar c1 c2 tol = isColorSimilar c2 c1 tol.
Proof.
  apply eq_true_iff_eq. rewrite !isColorSimilar_true.
  split; (intros [E|[[A B]|(A & R & G & B)]];
          [left; congruence | right; left; split; assumption
          | right; right; repeat split; lia]).
Qed.

Lemma channels_sum c :
  isUint32 c ->
  c = redOf c + 256 * greenOf c + 65536 * blueOf c + 16777216 * alphaOf c.
Proof.
  intros Hc.
  rewrite redOf_byte, greenOf_byte, blueOf_byte, alphaOf_byte by exact Hc.
  unfold byteAt. change (2 ^ (8 * 0)) with 1. change (2 ^ (8 * 1)) with 256.
  change (2 ^ (8 * 2)) with 65536. change (2 ^ (8 * 3)) with 16777216.
  destruct Hc as [H0 H1]. change (2 ^ 32) with 4294967296 in H1.
  Z.div_mod_to_equations. lia.
Qed.

(** X2. A 32-bit pixel is its four channels: red in the low byte, then
    green, blue and alpha, each between 0 and 255. *)
Theorem channels_compose (c : Z) :
  isUint32 c ->
  c = redOf c + 256 * greenOf c + 65536 * blueOf c + 16777216 * alphaOf c
  /\ 0 <= redOf c < 256 /\ 0 <= greenOf c < 256
  /\ 0 <= blueOf c < 256 /\ 0 <= alphaOf c < 256.
Proof.
  intros Hc. split; [apply channels_sum; exact Hc|apply channels_range].
Qed.

Lemma channels_compose_witness :
  isUint32 4278255360
  /\ 4278255360 = redOf 4278255360 + 256 * greenOf 4278255360
                  + 65536 * blueOf 4278255360 + 16777216 * alphaOf 4278255360
  /\ 0 <= redOf 4278255360 < 256 /\ 0 <= greenOf 4278255360 < 256
  /\ 0 <= blueOf 4278255360 < 256 /\ 0 <= alphaOf 4278255360 < 256.
Proof.
  assert (H : isUint32 4278255360) by (unfold isUint32; lia).
  split; [exact H|]. exact (channels_compose 4278255360 H).
Defined.

Lemma channels_inj c1 c2 :
  isUint32 c1 -> isUint32 c2 ->
  redOf c1 = redOf c2 -> greenOf c1 = greenOf c2 ->
  blueOf c1 = blueOf c2 -> alphaOf c1 = alphaOf c2 -> c1 = c2.
Proof.
  intros H1 H2 R G B A.
  rewrite (channels_sum c1 H1), (channels_sum c2 H2), R, G, B, A. reflexivity.
Qed.

(** X3. A tolerance of 255 or more makes every two colours similar. *)
Theorem isColorSimilar_saturated (c1 c2 tol : Z) :
  255 <= tol -> isColorSimilar c1 c2 tol = true.
Proof.
  intros Ht. apply isColorSimilar_true. right; right.
  pose proof (channels_range c1) as (R1 & G1 & B1 & A1).
  pose proof (channels_range c2) as (R2 & G2 & B2 & A2).
  repeat split; lia.
Qed.

Lemma isColorSimilar_saturated_witness :
  255 <= 255 /\ isColorSimilar 4278190335 16711680 255 = true.
Proof.
  assert (H : 255 <= 255) by lia.
  split; [exact H|]. exact (isColorSimilar_saturated 4278190335 16711680 255 H).
Defined.

(** X4. With a tolerance of 0 or less, two 32-bit colours are similar
    only when they are equal or both have alpha below 2. *)
Theorem isColorSimilar_exact (c1 c2 tol : Z) :
  isUint32 c1 -> isUint32 c2 -> tol <= 0 ->
  (isColorSimilar c1 c2 tol = true
   <-> c1 = c2 \/ (alphaOf c1 < 2 /\ alphaOf c2 < 2)).
Proof.
  intros H1 H2 Ht. rewrite isColorSimilar_true. split.
  - intros [E|[T|(A & R & G & B)]]; [left; exact E|right; exact T|].
    left. apply channels_inj; try assumption; lia.
  - intros [E|T]; [left; exact E|right; left; exact T].
Qed.

Lemma isColorSimilar_exact_witness :
  isUint32 4278190335 /\ isUint32 4278190334 /\ 0 <= 0
  /\ (isColorSimilar 4278190335 4278190334 0 = true
      <-> 4278190335 = 4278190334
          \/ (alphaOf 4278190335 < 2 /\ alphaOf 4278190334 < 2)).
Proof.
  assert (H1 : isUint32 4278190335) by (unfold isUint32; lia).
  assert (H2 : isUint32 4278190334) by (unfold isUint32; lia).
  assert (H3 : 0 <= 0) by lia.
  split; [exact H1|]. split; [exact H2|]. split; [exact H3|].
  exact (isColorSimilar_exact 4278190335 4278190334 0 H1 H2 H3).
Defined.

End Comparator.

(** ** What a rectangle covers *)

(** X5. Every pixel under a committed rectangle has the rectangle's colour
    or differs from it by at most the tolerance in each of the four
    channels. *)
Theorem covered_within_tolerance (W H : nat) (data : list Z) (tol : Z)
    (r : RegionRect) (px py : nat) :
  Commit r ∈ regions (fst (growPhase W H data tol)) ->
  covers (Commit r) px py = true ->
  let p := pixel data (py * W + px) in
  p = rcolor r
  \/ ((Z.abs (alphaOf (rcolor r) - alphaOf p) <= tol)%Z
      /\ (Z.abs (redOf (rcolor r) - redOf p) <= tol)%Z
      /\ (Z.abs (greenOf (rcolor r) - greenOf p) <= tol)%Z
      /\ (Z.abs (blueOf (rcolor r) - blueOf p) <= tol)%Z).
Proof.
  intros Hr Hc. cbv zeta. apply final_wellFormed in Hr.
  destruct Hr as (_ & _ & _ & _ & _ & Ha & Hsim).
  specialize (Hsim px py Hc). apply isColorSimilar_true in Hsim.
  destruct Hsim as [E|[[A _]|Hch]]; [left; congruence|lia|right; exact Hch].
Qed.

Lemma covered_within_tolerance_witness :
  let data := [35525642; 18748426; 3302600]%Z in
  let r := mkRect 0 0 2 1 35525642 in
  Commit r ∈ regions (fst (growPhase 3 1 data 1))
  /\ covers (Commit r) 1 0 = true
  /\ (pixel data (0 * 3 + 1) = rcolor r
      \/ ((Z.abs (alphaOf (rcolor r) - alphaOf (pixel data (0 * 3 + 1))) <= 1)%Z
          /\ (Z.abs (redOf (rcolor r) - redOf (pixel data (0 * 3 + 1))) <= 1)%Z
          /\ (Z.abs (greenOf (rcolor r) - greenOf (pixel data (0 * 3 + 1))) <= 1)%Z
          /\ (Z.abs (blueOf (rcolor r) - blueOf (pixel data (0 * 3 + 1))) <= 1)%Z)).
Proof.
  cbv zeta.
  assert (H1 : Commit (mkRect 0 0 2 1 35525642)
                 ∈ regions (fst (growPhase 3 1 [35525642; 18748426; 3302600]%Z 1))).
  { vm_compute. apply list_elem_of_here. }
  assert (H2 : covers (Commit (mkRect 0 0 2 1 35525642)) 1 0 = true) by reflexivity.
  split; [exact H1|]. split; [exact H2|].
  exact (covered_within_tolerance 3 1 _ 1 _ 1 0 H1 H2).
Defined.

Lemma pixel_uint32 data i : Forall isUint32 data -> isUint32 (pixel data i).
Proof.
  intros Hd. unfold pixel. destruct (data !! i) as [c|] eqn:E; simpl.
  - rewrite Forall_forall in Hd. apply Hd. apply list_elem_of_lookup. eauto.
  - unfold isUint32. lia.
Qed.

(** X6. With a tolerance of 0 or less the trace is exact: every pixel
    under a committed rectangle has exactly the rectangle's colour. *)
Theorem exact_at_zero_tolerance (W H : nat) (data : list Z) (tol : Z)
    (r : RegionRect) (px py : nat) :
  Forall isUint32 data -> (tol <= 0)%Z ->
  Commit r ∈ regions (fst (growPhase W H data tol)) ->
  covers (Commit r) px py = true ->
  pixel data (py * W + px) = rcolor r.
Proof.
  intros Hd Ht Hr Hc. apply final_wellFormed in Hr.
  destruct Hr as (_ & _ & _ & _ & Hanchor & Ha & Hsim).
  specialize (Hsim px py Hc).
  apply isColorSimilar_true in Hsim.
  destruct Hsim as [E|[[A _]|(A & R & G & B)]]; [congruence|lia|].
  symmetry. apply channels_inj; try lia.
  - rewrite Hanchor. apply pixel_uint32. exact Hd.
  - apply pixel_uint32. exact Hd.
Qed.

Lemma exact_at_zero_tolerance_witness :
  let data := [4278190080; 4278190080; 4278190081;
               4278190080; 4278190080; 4278190335]%Z in
  let r := mkRect 0 0 2 2 4278190080 in
  Forall isUint32 data /\ (0 <= 0)%Z
  /\ Commit r ∈ regions (fst (growPhase 3 2 data 0))
  /\ covers (Commit r) 1 1 = true
  /\ pixel data (1 * 3 + 1) = rcolor r.
Proof.
  cbv zeta.
  assert (H1 : Forall isUint32 [4278190080; 4278190080; 4278190081;
                                4278190080; 4278190080; 4278190335]%Z).
  { repeat constructor; unfold isUint32; lia. }
  assert (H2 : (0 <= 0)%Z) by lia.
  assert (H3 : Commit (mkRect 0 0 2 2 4278190080)
                 ∈ regions (fst (growPhase 3 2 [4278190080; 4278190080; 4278190081;
                                               4278190080; 4278190080; 4278190335]%Z 0))).
  { vm_compute. apply list_elem_of_here. }
  assert (H4 : covers (Commit (mkRect 0 0 2 2 4278190080)) 1 1 = true) by reflexivity.
  split; [exact H1|]. split; [exact H2|]. split; [exact H3|]. split; [exact H4|].
  exact (exact_at_zero_tolerance 3 2 _ 0 _ 1 1 H1 H2 H3 H4).
Defined.

Lemma forallb_false_exists {A} (f : A -> bool) (l : list A) :
  forallb f l = false -> exists a, In a l /\ f a = false.
Proof.
  induction l as [|a l IH]; simpl; [discriminate|].
  destruct (f a) eqn:E; simpl.
  - intros Hl. destruct (IH Hl) as (b & Hb & Fb). exists b. auto.
  - intros _. exists a. auto.
Qed.

Lemma rowQualifies_false W data tol v x row color rectW :
  rowQualifies W data tol v x row color rectW = false ->
  exists dw, dw < rectW /\ ~ candidate data v color tol (row * W + (x + dw)).
Proof.
  unfold rowQualifies. intros Hf.
  apply forallb_false_exists in Hf. destruct Hf as (dw & Hin & Hdw).
  apply in_seq in Hin. exists dw. split; [lia|].
  intros [C1 C2]. cbv zeta in Hdw. rewrite C1, C2 in Hdw. discriminate.
Qed.

(** X7. The rectangle grown from an unvisited anchor inside the buffer
    stays inside the buffer, covers only pixels that were unvisited and
    similar to the anchor, and is greedy: the pixel right of its first row
    is not such a pixel (or the row ends at the buffer edge), and the row
    below it does not qualify over its full width (or the buffer ends). *)
Theorem grown_rect_greedy (W H : nat) (data : list Z) (tol : Z) (v : list bool)
    (x y : nat) :
  x < W -> y < H -> vis v (y * W + x) = false ->
  let r := grownRect W H data tol v x y in
  let c := pixel data (y * W + x) in
  rx r + rw r <= W /\ ry r + rh r <= H
  /\ (forall px py, covers (Commit r) px py = true ->
        candidate data v c tol (py * W + px))
  /\ (x + rw r < W -> ~ candidate data v c tol (y * W + (x + rw r)))
  /\ (y + rh r < H ->
      exists dw, dw < rw r /\ ~ candidate data v c tol ((y + rh r) * W + (x + dw))).
Proof.
  intros Hx Hy Hv. cbv zeta.
  destruct (grownRect_spec W H data tol v x y Hx Hy Hv)
    as (Rx & Ry & _ & _ & _ & Rwb & Rhb & Rcells).
  destruct (grownRect_maximal W H data tol v x y) as [Mw Mh].
  set (r := grownRect W H data tol v x y) in *.
  split; [rewrite Rx; exact Rwb|]. split; [rewrite Ry; exact Rhb|].
  split; [|split].
  - intros px py Hc. cbn [covers] in Hc. rewrite Rx, Ry in Hc.
    rewrite !andb_true_iff, !Nat.leb_le, !Nat.ltb_lt in Hc.
    replace px with (x + (px - x)) by lia. replace py with (y + (py - y)) by lia.
    apply Rcells; lia.
  - intros Hlt. rewrite Nat.add_assoc. apply Mw. exact Hlt.
  - intros Hlt. apply rowQualifies_false. apply Mh. exact Hlt.
Qed.

Lemma grown_rect_greedy_witness :
  let data := [4278190080; 4278190080; 4278190081;
               4278190080; 4278190080; 4278190335]%Z in
  let v := replicate 6 false in
  let r := grownRect 3 2 data 0 v 0 0 in
  let c := pixel data (0 * 3 + 0) in
  0 < 3 /\ 0 < 2 /\ vis v (0 * 3 + 0) = false
  /\ rx r + rw r <= 3 /\ ry r + rh r <= 2
  /\ (forall px py, covers (Commit r) px py = true ->
        candidate data v c 0 (py * 3 + px))
  /\ (0 + rw r < 3 -> ~ candidate data v c 0 (0 * 3 + (0 + rw r)))
  /\ (0 + rh r < 2 ->
      exists dw, dw < rw r /\ ~ candidate data v c 0 ((0 + rh r) * 3 + (0 + dw))).
Proof.
  cbv zeta.
  assert (H1 : 0 < 3) by lia.
  assert (H2 : 0 < 2) by lia.
  assert (H3 : vis (replicate 6 false) (0 * 3 + 0) = false) by reflexivity.
  split; [exact H1|]. split; [exact H2|]. split; [exact H3|].
  exact (grown_rect_greedy 3 2 _ 0 (replicate 6 false) 0 0 H1 H2 H3).
Defined.

(** ** The order of the events *)

Lemma anchorsBelow_weaken W n m log :
  n <= m -> anchorsBelow W n log -> anchorsBelow W m log.
Proof.
  intros Hnm Hb. eapply Forall_impl; [exact Hb|]. intros e He. simpl in He. lia.
Qed.

Lemma anchorsAscending_snoc W log e :
  anchorsAscending W log -> anchorsBelow W (anchorIndex W e) log ->
  anchorsAscending W (log ++ [e]).
Proof.
  unfold anchorsAscending, anchorsBelow. intros Hs Hb.
  induction Hs as [|a l Hs IH Ha]; simpl.
  - constructor; constructor.
  - apply Forall_cons in Hb. destruct Hb as [Hae Hb].
    constructor; [apply IH; exact Hb|].
    apply Forall_app. split; [exact Ha|]. constructor; [exact Hae|constructor].
Qed.

Section Order.

Variables W H : nat.
Variable data : list Z.
Variable tol : Z.

Lemma pixelStep_order y st x n :
  n <= y * W + x ->
  anchorsBelow W n (regions st) -> anchorsAscending W (regions st) ->
  anchorsBelow W (S (y * W + x)) (regions (pixelStep W H data tol y st x))
  /\ anchorsAscending W (regions (pixelStep W H data tol y st x)).
Proof.
  intros Hn Hb Hs.
  assert (Hb' : anchorsBelow W (y * W + x) (regions st))
    by (eapply anchorsBelow_weaken; eassumption).
  assert (Hnew : forall e, anchorIndex W e = y * W + x ->
            anchorsBelow W (S (y * W + x)) (regions st ++ [e])
            /\ anchorsAscending W (regions st ++ [e])).
  { intros e He. split.
    - apply Forall_app. split.
      + apply (anchorsBelow_weaken W (y * W + x)); [lia|exact Hb'].
      + constructor; [simpl; lia|constructor].
    - apply anchorsAscending_snoc; [exact Hs|]. rewrite He. exact Hb'. }
  unfold pixelStep. destruct (vis (visited st) (y * W + x)).
  { split; [|exact Hs]. apply (anchorsBelow_weaken W (y * W + x)); [lia|exact Hb']. }
  destruct (alphaOf (pixel data (y * W + x)) <? 2)%Z; cbn [regions];
    apply Hnew; reflexivity.
Qed.

Lemma scanRow_order y st n k :
  n <= y * W -> k <= W ->
  anchorsBelow W n (regions st) -> anchorsAscending W (regions st) ->
  anchorsBelow W (y * W + k) (regions (foldl (pixelStep W H data tol y) st (seq 0 k)))
  /\ anchorsAscending W (regions (foldl (pixelStep W H data tol y) st (seq 0 k))).
Proof.
  intros Hn Hk Hb Hs. induction k as [|k IH].
  - simpl. split; [|exact Hs]. eapply anchorsBelow_weaken; [|exact Hb]. lia.
  - rewrite seq_S, foldl_app. simpl.
    destruct (IH ltac:(lia)) as [Hb1 Hs1].
    destruct (pixelStep_order y _ k (y * W + k) (Nat.le_refl _) Hb1 Hs1) as [Hb2 Hs2].
    split; [|exact Hs2]. eapply anchorsBelow_weaken; [|exact Hb2]. lia.
Qed.

Lemma scanRows_order st k :
  anchorsBelow W 0 (regions st) -> anchorsAscending W (regions st) ->
  anchorsBelow W (k * W) (regions (foldl (scanRow W H data tol) st (seq 0 k)))
  /\ anchorsAscending W (regions (foldl (scanRow W H data tol) st (seq 0 k))).
Proof.
  intros Hb Hs. induction k as [|k IH].
  - simpl. split; assumption.
  - rewrite seq_S, foldl_app. simpl. destruct IH as [Hb1 Hs1].
    destruct (scanRow_order k _ (k * W) W (Nat.le_refl _) (Nat.le_refl _) Hb1 Hs1)
      as [Hb2 Hs2].
    split; [|exact Hs2]. eapply anchorsBelow_weaken; [|exact Hb2]. lia.
Qed.

End Order.

(** X8. Reporting progress in batches of rows does not change what is
    traced: the final state is the one of a single scan of the rows 0 to
    H - 1, each scanned from column 0 to W - 1. *)
Theorem batching_is_transparent (W H : nat) (data : list Z) (tol : Z) :
  fst (growPhase W H data tol)
  = foldl (fun st y => foldl (pixelStep W H data tol y) st (seq 0 W))
          (initialState W H) (seq 0 H).
Proof.
  rewrite growPhase_state. unfold afterRows, scanRows.
  rewrite Nat.sub_0_r. reflexivity.
Qed.

(** X9. The events of a trace are recorded in scan order: the row-major
    indices of their anchor pixels are strictly ascending. *)
Theorem events_in_scan_order (W H : nat) (data : list Z) (tol : Z) :
  anchorsAscending W (regions (fst (growPhase W H data tol))).
Proof.
  rewrite growPhase_state. unfold afterRows, scanRows. rewrite Nat.sub_0_r.
  apply (scanRows_order W H data tol (initialState W H) H).
  - constructor.
  - constructor.
Qed.

(** ** The range of the progress values *)

Lemma countTrue_le v : countTrue v <= length v.
Proof. induction v as [|[] v IH]; simpl; lia. Qed.

Lemma percentOf_zero t : 0 < t -> percentOf 0 t = Percent 0.
Proof. intros Ht. rewrite percentOf_value by exact Ht. reflexivity. Qed.

Lemma percentOf_range p t :
  0 < t -> p <= t -> exists z, percentOf p t = Percent z /\ (0 <= z <= 100)%Z.
Proof.
  intros Ht Hp.
  pose proof (percentOf_mono 0 p t Ht ltac:(lia)) as Hlo.
  pose proof (percentOf_mono p t t Ht Hp) as Hhi.
  rewrite percentOf_zero in Hlo by exact Ht.
  rewrite percentOf_full in Hhi by exact Ht.
  rewrite percentOf_value in * by exact Ht. simpl in Hlo, Hhi.
  eexists. split; [reflexivity|]. lia.
Qed.

(** X10. On a buffer with pixels every value handed to the progress
    callback is an integer percentage between 0 and 100. *)
Theorem progress_in_range (W H : nat) (data : list Z) (tol : Z) (r : Reported) :
  0 < W -> 0 < H -> r ∈ snd (growPhase W H data tol) ->
  exists p, r = Percent p /\ (0 <= p <= 100)%Z.
Proof.
  intros HW HH Hr. rewrite growPhase_reports in Hr.
  apply list_elem_of_In, in_map_iff in Hr. destruct Hr as (k & <- & _).
  apply percentOf_range; [nia|].
  destruct (afterRows_inv W H data tol (Nat.min (25 * S k) H) ltac:(lia))
    as [[IL IC _ _ _] _].
  rewrite IC, <- IL. apply countTrue_le.
Qed.

Lemma progress_in_range_witness :
  let data := replicate 60 4278190335%Z in
  0 < 1 /\ 0 < 60 /\ Percent 100 ∈ snd (growPhase 1 60 data 0)
  /\ exists p, Percent 100 = Percent p /\ (0 <= p <= 100)%Z.
Proof.
  cbv zeta.
  assert (H1 : 0 < 1) by lia.
  assert (H2 : 0 < 60) by lia.
  assert (H3 : Percent 100 ∈ snd (growPhase 1 60 (replicate 60 4278190335%Z) 0)).
  { vm_compute. apply list_elem_of_here. }
  split; [exact H1|]. split; [exact H2|]. split; [exact H3|].
  exact (progress_in_range 1 60 _ 0 _ H1 H2 H3).
Defined.

(** ** A buffer that is one region *)

Section OneRegion.

Variables W H : nat.
Variable data : list Z.
Variable tol : Z.
Hypothesis HW : 1 <= W.
Hypothesis HH : 1 <= H.
Hypothesis Hanchor : (2 <= alphaOf (pixel data 0))%Z.
Hypothesis Hsimilar :
  forall i, i < W * H -> isColorSimilar (pixel data 0) (pixel data i) tol = true.

Lemma one_region_candidate i :
  i < W * H -> candidate data (replicate (W * H) false) (pixel data 0) tol i.
Proof. intros Hi. split; [apply vis_replicate_false|apply Hsimilar; exact Hi]. Qed.

Lemma one_region_grownRect :
  grownRect W H data tol (replicate (W * H) false) 0 0
  = mkRect 0 0 W H (pixel data 0).
Proof.
  unfold grownRect. change (0 * W + 0) with 0.
  assert (Ew : growWidth W data tol (replicate (W * H) false) 0 0 (pixel data 0) W 0 = W).
  { pose proof (growWidth_full W data (replicate (W * H) false) 0 0 (pixel data 0)
                  tol W 0) as F.
    simpl in F. apply F; [lia|lia|].
    intros k _ Hk. apply one_region_candidate. nia. }
  rewrite Ew.
  assert (Eh : growHeight W H data tol (replicate (W * H) false) 0 0 (pixel data 0)
                 W H 1 = H).
  { pose proof (growHeight_full W H data (replicate (W * H) false) 0 0 (pixel data 0)
                  tol W H 1) as F.
    simpl in F. apply F; [lia|lia|].
    intros r _ Hr. apply rowQualifies_spec. intros dw Hdw.
    apply one_region_candidate. apply cell_index_lt; lia. }
  rewrite Eh. reflexivity.
Qed.

Lemma one_region_first_step :
  let st1 := pixelStep W H data tol 0 (initialState W H) 0 in
  regions st1 = [Commit (mkRect 0 0 W H (pixel data 0))]
  /\ colorPaths st1 = [(pixel data 0, [rectCommand 0 0 W H])]
  /\ (forall x y, x < W -> y < H -> vis (visited st1) (y * W + x) = true).
Proof.
  cbv zeta.
  destruct (pixelStep_inv W H data tol 0 (initialState W H) 0 ltac:(lia) ltac:(lia)
              (Inv_initial W H data tol)) as ([_ _ IV _ _] & _ & _).
  assert (E : regions (pixelStep W H data tol 0 (initialState W H) 0)
              = [Commit (mkRect 0 0 W H (pixel data 0))]
              /\ colorPaths (pixelStep W H data tol 0 (initialState W H) 0)
                 = [(pixel data 0, [rectCommand 0 0 W H])]).
  { unfold pixelStep. cbn [visited processed colorPaths regions initialState].
    rewrite vis_replicate_false. change (0 * W + 0) with 0.
    destruct (Z.ltb_spec (alphaOf (pixel data 0)) 2); [lia|].
    rewrite one_region_grownRect. cbn [visited processed colorPaths regions].
    split; [reflexivity|].
    unfold pushPath, commandOf. cbn [mapHas mapSet mapGet rx ry rw rh].
    rewrite Z.eqb_refl. reflexivity. }
  destruct E as [Er Ec]. split; [exact Er|]. split; [exact Ec|].
  intros x y Hx Hy. specialize (IV x y Hx Hy). rewrite Er in IV.
  unfold coverCount in IV. simpl in IV.
  destruct (Nat.ltb_spec x W); [|lia]. destruct (Nat.ltb_spec y H); [|lia].
  simpl in IV.
  destruct (vis _ (y * W + x)); [reflexivity|discriminate].
Qed.

Lemma one_region_final :
  let st := fst (growPhase W H data tol) in
  regions st = [Commit (mkRect 0 0 W H (pixel data 0))]
  /\ colorPaths st = [(pixel data 0, [rectCommand 0 0 W H])].
Proof.
  cbv zeta. rewrite growPhase_state.
  destruct one_region_first_step as (Er & Ec & Hv).
  set (st1 := pixelStep W H data tol 0 (initialState W H) 0) in *.
  assert (Est : afterRows W H data tol H = st1).
  { unfold afterRows, scanRows.
    rewrite Nat.sub_0_r, (seq_head H HH). cbn [foldl].
    unfold scanRow at 2. rewrite (seq_head W HW). cbn [foldl]. fold st1.
    rewrite (settled_pixels W H data tol st1 Hv 0); [|lia|].
    - apply (settled_rows W H data tol st1 Hv).
      apply Forall_forall. intros y Hy. apply list_elem_of_In, in_seq in Hy. lia.
    - apply Forall_forall. intros x Hx. apply list_elem_of_In, in_seq in Hx. lia. }
  rewrite Est. split; assumption.
Qed.

End OneRegion.

(** X11. When the first pixel is not transparent and every pixel of the
    buffer is similar to it, the whole buffer is traced as one rectangle
    of the first pixel's colour and the document has one shape. *)
Theorem one_region_trace (W H : nat) (data : list Z) (tol : Z) :
  1 <= W -> 1 <= H -> (2 <= alphaOf (pixel data 0))%Z ->
  (forall i, i < W * H -> isColorSimilar (pixel data 0) (pixel data i) tol = true) ->
  let st := fst (growPhase W H data tol) in
  regions st = [Commit (mkRect 0 0 W H (pixel data 0))]
  /\ colorPaths st = [(pixel data 0, [rectCommand 0 0 W H])]
  /\ serialize W H (colorPaths st)
     = svgOpen W H +:+ pathElement (pixel data 0, [rectCommand 0 0 W H]) +:+ svgClose.
Proof.
  intros HW HH Ha Hs. cbv zeta.
  destruct (one_region_final W H data tol HW HH Ha Hs) as [Er Ec].
  split; [exact Er|]. split; [exact Ec|].
  rewrite Ec. unfold serialize. cbn [map String.concat]. reflexivity.
Qed.

Lemma one_region_trace_witness :
  let data := [4278190080; 4278190081; 4278190082; 4278190080]%Z in
  1 <= 2 /\ 1 <= 2 /\ (2 <= alphaOf (pixel data 0))%Z
  /\ (forall i, i < 2 * 2 -> isColorSimilar (pixel data 0) (pixel data i) 2 = true)
  /\ regions (fst (growPhase 2 2 data 2)) = [Commit (mkRect 0 0 2 2 (pixel data 0))].
Proof.
  cbv zeta.
  assert (H1 : 1 <= 2) by lia.
  assert (H3 : (2 <= alphaOf (pixel [4278190080; 4278190081; 4278190082; 4278190080]%Z 0))%Z)
    by (vm_compute; discriminate).
  assert (H4 : forall i, i < 2 * 2 ->
            isColorSimilar (pixel [4278190080; 4278190081; 4278190082; 4278190080]%Z 0)
              (pixel [4278190080; 4278190081; 4278190082; 4278190080]%Z i) 2 = true).
  { intros i Hi. destruct i as [|[|[|[|i]]]]; try (vm_compute; reflexivity).
    simpl in Hi. lia. }
  split; [exact H1|]. split; [exact H1|]. split; [exact H3|]. split; [exact H4|].
  exact (proj1 (one_region_trace 2 2 _ 2 H1 H1 H3 H4)).
Defined.

(** X12. With a tolerance of 255 or more, any buffer whose first pixel is
    not transparent collapses into one rectangle of that pixel's colour. *)
Theorem saturated_tolerance_trace (W H : nat) (data : list Z) (tol : Z) :
  1 <= W -> 1 <= H -> (2 <= alphaOf (pixel data 0))%Z -> (255 <= tol)%Z ->
  regions (fst (growPhase W H data tol)) = [Commit (mkRect 0 0 W H (pixel data 0))].
Proof.
  intros HW HH Ha Ht.
  apply (one_region_final W H data tol HW HH Ha).
  intros i _. apply isColorSimilar_true. right; right.
  pose proof (channels_range (pixel data 0)) as (R1 & G1 & B1 & A1).
  pose proof (channels_range (pixel data i)) as (R2 & G2 & B2 & A2).
  repeat split; lia.
Qed.

Lemma saturated_tolerance_trace_witness :
  let data := [4278190335; 16711680; 4294967295; 255]%Z in
  1 <= 2 /\ 1 <= 2 /\ (2 <= alphaOf (pixel data 0))%Z /\ (255 <= 255)%Z
  /\ regions (fst (growPhase 2 2 data 255)) = [Commit (mkRect 0 0 2 2 (pixel data 0))].
Proof.
  cbv zeta.
  assert (H1 : 1 <= 2) by lia.
  assert (H3 : (2 <= alphaOf (pixel [4278190335; 16711680; 4294967295; 255]%Z 0))%Z)
    by (vm_compute; discriminate).
  assert (H4 : (255 <= 255)%Z) by lia.
  split; [exact H1|]. split; [exact H1|]. split; [exact H3|]. split; [exact H4|].
  exact (saturated_tolerance_trace 2 2 _ 255 H1 H1 H3 H4).
Defined.

(** X13. In a buffer without transparent pixels nothing is skipped: the
    stream consists of rectangles only, so the rectangles alone tile the
    grid. *)
Theorem opaque_buffer_all_rectangles (W H : nat) (data : list Z) (tol : Z) :
  (forall i, i < W * H -> (2 <= alphaOf (pixel data i))%Z) ->
  let st := fst (growPhase W H data tol) in
  regions st = map Commit (commits (regions st))
  /\ (forall px py, px < W -> py < H ->
        coverCount (map Commit (commits (regions st))) px py = 1).
Proof.
  intros Hop. cbv zeta.
  assert (E : regions (fst (growPhase W H data tol))
              = map Commit (commits (regions (fst (growPhase W H data tol))))).
  { pose proof (final_wellFormed W H data tol) as Hwf.
    induction (regions (fst (growPhase W H data tol))) as [|[r|x y] l IH]; simpl.
    - reflexivity.
    - f_equal. apply IH. intros e He. apply Hwf. right. exact He.
    - exfalso. destruct (Hwf (SkipTransparent x y) ltac:(left)) as (Hx & Hy & Ha).
      specialize (Hop (y * W + x) ltac:(apply cell_index_lt; assumption)). lia. }
  split; [exact E|]. intros px py Hpx Hpy. rewrite <- E.
  apply final_cover_one; assumption.
Qed.

Lemma opaque_buffer_all_rectangles_witness :
  let data := [4278190080; 4278190335]%Z in
  (forall i, i < 2 * 1 -> (2 <= alphaOf (pixel data i))%Z)
  /\ regions (fst (growPhase 2 1 data 0))
     = map Commit (commits (regions (fst (growPhase 2 1 data 0)))).
Proof.
  cbv zeta.
  assert (H1 : forall i, i < 2 * 1 ->
            (2 <= alphaOf (pixel [4278190080; 4278190335]%Z i))%Z).
  { intros i Hi. destruct i as [|[|i]]; try (vm_compute; discriminate).
    simpl in Hi. lia. }
  split; [exact H1|].
  exact (proj1 (opaque_buffer_all_rectangles 2 1 _ 0 H1)).
Defined.

(** ** Counting cells *)

Lemma sum_list_with_ext {A} (f g : A -> nat) l :
  (forall x, x ∈ l -> f x = g x) -> sum_list_with f l = sum_list_with g l.
Proof.
  induction l as [|a l IH]; intros E; simpl; [reflexivity|].
  rewrite (E a) by left. rewrite IH; [reflexivity|]. intros x Hx. apply E. right. exact Hx.
Qed.

Lemma sum_list_with_plus {A} (f g : A -> nat) l :
  sum_list_with (fun x => f x + g x) l = sum_list_with f l + sum_list_with g l.
Proof. induction l as [|a l IH]; simpl; [reflexivity|]. rewrite IH. lia. Qed.

Lemma sum_list_with_const {A} (c : nat) (l : list A) :
  sum_list_with (fun _ => c) l = c * length l.
Proof. induction l as [|a l IH]; simpl; [lia|]. rewrite IH. lia. Qed.

Lemma sum_list_with_scale {A} (c : nat) (b : A -> bool) l :
  sum_list_with (fun x => if b x then c else 0) l
  = c * sum_list_with (fun x => if b x then 1 else 0) l.
Proof. induction l as [|a l IH]; simpl; [lia|]. rewrite IH. destruct (b a); lia. Qed.

Lemma interval_count a w n :
  sum_list_with (fun x => if (a <=? x) && (x <? a + w) then 1 else 0) (seq 0 n)
  = Nat.min (a + w) n - a.
Proof.
  induction n as [|n IH]; [simpl; lia|].
  rewrite seq_S, sum_list_with_app, IH. simpl.
  destruct (Nat.leb_spec a n), (Nat.ltb_spec n (a + w)); simpl; lia.
Qed.

Lemma cellSum_ext f g W H :
  (forall x y, x < W -> y < H -> f x y = g x y) -> cellSum f W H = cellSum g W H.
Proof.
  intros E. unfold cellSum. apply sum_list_with_ext. intros y Hy.
  apply sum_list_with_ext. intros x Hx.
  apply list_elem_of_In, in_seq in Hx, Hy. apply E; lia.
Qed.

Lemma cellSum_plus f g W H :
  cellSum (fun x y => f x y + g x y) W H = cellSum f W H + cellSum g W H.
Proof.
  unfold cellSum. rewrite <- sum_list_with_plus. apply sum_list_with_ext.
  intros y _. apply sum_list_with_plus.
Qed.

Lemma cellSum_one W H : cellSum (fun _ _ => 1) W H = W * H.
Proof.
  unfold cellSum.
  rewrite (sum_list_with_ext _ (fun _ => W)).
  - rewrite sum_list_with_const, length_seq. reflexivity.
  - intros y _. rewrite sum_list_with_const, length_seq. lia.
Qed.

Lemma cellSum_rect W H x y w h :
  x + w <= W -> y + h <= H ->
  cellSum (fun px py =>
             if (x <=? px) && (px <? x + w) && (y <=? py) && (py <? y + h)
             then 1 else 0) W H
  = w * h.
Proof.
  intros Hw Hh. unfold cellSum.
  rewrite (sum_list_with_ext _
             (fun py => if (y <=? py) && (py <? y + h) then w else 0)).
  - rewrite sum_list_with_scale, interval_count. f_equal. lia.
  - intros py _. destruct ((y <=? py) && (py <? y + h)) eqn:E.
    + rewrite (sum_list_with_ext _
                 (fun px => if (x <=? px) && (px <? x + w) then 1 else 0)).
      * rewrite interval_count. lia.
      * intros px _. rewrite <- andb_assoc, E, andb_true_r. reflexivity.
    + rewrite (sum_list_with_ext _ (fun _ => 0)).
      * rewrite sum_list_with_const. lia.
      * intros px _. rewrite <- andb_assoc, E, andb_false_r. reflexivity.
Qed.

Lemma cellSum_covers W H e :
  inGrid W H e -> cellSum (fun px py => if covers e px py then 1 else 0) W H = eventCells e.
Proof.
  destruct e as [r|x y]; simpl.
  - intros [Hw Hh]. rewrite cellSum_rect by assumption. reflexivity.
  - intros [Hx Hy].
    rewrite (cellSum_ext _
               (fun px py =>
                  if (x <=? px) && (px <? x + 1) && (y <=? py) && (py <? y + 1)
                  then 1 else 0)).
    + rewrite cellSum_rect by lia. reflexivity.
    + intros px py _ _.
      destruct (Nat.eqb_spec x px), (Nat.eqb_spec y py),
        (Nat.leb_spec x px), (Nat.ltb_spec px (x + 1)),
        (Nat.leb_spec y py), (Nat.ltb_spec py (y + 1)); simpl; try reflexivity; lia.
Qed.

Lemma cellSum_coverCount W H log :
  Forall (inGrid W H) log ->
  cellSum (coverCount log) W H = cellsAccounted log.
Proof.
  induction 1 as [|e log He _ IH]; simpl.
  - unfold coverCount. simpl.
    rewrite (cellSum_ext _ (fun _ _ => 0 * 1)) by reflexivity.
    unfold cellSum. rewrite (sum_list_with_ext _ (fun _ => 0)).
    + rewrite sum_list_with_const. lia.
    + intros y _. rewrite sum_list_with_const. lia.
  - rewrite <- IH, <- (cellSum_covers W H e He), <- cellSum_plus.
    apply cellSum_ext. intros px py _ _. unfold coverCount. simpl.
    destruct (covers e px py); reflexivity.
Qed.

(** X14. Nothing is counted twice and nothing is lost: the areas of the
    recorded rectangles and the skipped pixels add up to the number of
    pixels of the buffer, which is also the final value of the counter
    behind the progress reports. *)
Theorem cells_conserved (W H : nat) (data : list Z) (tol : Z) :
  let st := fst (growPhase W H data tol) in
  cellsAccounted (regions st) = W * H /\ processed st = W * H.
Proof.
  cbv zeta. split.
  - rewrite <- (cellSum_coverCount W H).
    + rewrite <- (cellSum_one W H). apply cellSum_ext.
      intros px py Hx Hy. apply final_cover_one; assumption.
    + apply Forall_forall. intros e He.
      apply (wellFormed_inGrid W H data tol), final_wellFormed, He.
  - rewrite growPhase_state. apply final_processed.
Qed.

(** ** The path map *)

Lemma mapGet_absent m c : mapHas m c = false -> mapGet m c = [].
Proof.
  induction m as [|[k d] m IH]; simpl; [reflexivity|].
  destruct (k =? c)%Z; [discriminate|exact IH].
Qed.

Lemma mapGet_mapSet m k v k' :
  mapGet (mapSet m k v) k' = if (k =? k')%Z then v else mapGet m k'.
Proof.
  induction m as [|[k0 d] m IH]; simpl.
  - destruct (k =? k')%Z; reflexivity.
  - destruct (Z.eqb_spec k0 k) as [->|N]; simpl.
    + destruct (k =? k')%Z; reflexivity.
    + rewrite IH. destruct (Z.eqb_spec k0 k') as [->|N'].
      * destruct (Z.eqb_spec k k'); [congruence|reflexivity].
      * reflexivity.
Qed.

Lemma mapHas_mapSet m k v k' :
  mapHas (mapSet m k v) k' = (k =? k')%Z || mapHas m k'.
Proof.
  induction m as [|[k0 d] m IH]; simpl.
  - destruct (k =? k')%Z; reflexivity.
  - destruct (Z.eqb_spec k0 k) as [->|N]; simpl.
    + destruct (k =? k')%Z; reflexivity.
    + rewrite IH. destruct (k0 =? k')%Z; [rewrite orb_true_r|]; reflexivity.
Qed.

Lemma mapSet_keys m k v :
  map fst (mapSet m k v) = if mapHas m k then map fst m else map fst m ++ [k].
Proof.
  induction m as [|[k0 d] m IH]; simpl; [reflexivity|].
  destruct (Z.eqb_spec k0 k) as [->|N]; simpl; [reflexivity|].
  rewrite IH. destruct (mapHas m k); reflexivity.
Qed.

(** X15. Recording a command under a colour appends it to the commands of
    that colour and leaves every other colour alone; a colour seen for the
    first time is added after the colours already present, and the order
    of the colours never changes otherwise. *)
Theorem pushPath_lookup (m : PathMap) (c : Z) (cmd : string) :
  mapGet (pushPath m c cmd) c = mapGet m c ++ [cmd]
  /\ mapHas (pushPath m c cmd) c = true
  /\ (forall c', c' <> c ->
        mapGet (pushPath m c cmd) c' = mapGet m c'
        /\ mapHas (pushPath m c cmd) c' = mapHas m c')
  /\ map fst (pushPath m c cmd)
     = (if mapHas m c then map fst m else map fst m ++ [c]).
Proof.
  unfold pushPath. destruct (mapHas m c) eqn:E.
  - split; [|split; [|split]].
    + rewrite mapGet_mapSet, Z.eqb_refl. reflexivity.
    + rewrite mapHas_mapSet, Z.eqb_refl. reflexivity.
    + intros c' N. rewrite mapGet_mapSet, mapHas_mapSet.
      destruct (Z.eqb_spec c c'); [congruence|]. split; reflexivity.
    + rewrite mapSet_keys, E. reflexivity.
  - split; [|split; [|split]].
    + rewrite !mapGet_mapSet, Z.eqb_refl, (mapGet_absent m c E). reflexivity.
    + rewrite mapHas_mapSet, Z.eqb_refl. reflexivity.
    + intros c' N. rewrite !mapGet_mapSet, !mapHas_mapSet.
      destruct (Z.eqb_spec c c'); [congruence|]. split; reflexivity.
    + rewrite !mapSet_keys, mapHas_mapSet, Z.eqb_refl, E. reflexivity.
Qed.

Lemma pushPath_lookup_witness :
  let m := [(4278190335%Z, ["a"%string])] in
  mapGet (pushPath m 4278255360 "b") 4278255360 = ["b"%string]
  /\ mapGet (pushPath m 4278255360 "b") 4278190335 = ["a"%string]
  /\ map fst (pushPath m 4278255360 "b") = [4278190335%Z; 4278255360%Z].
Proof.
  cbv zeta.
  destruct (pushPath_lookup [(4278190335%Z, ["a"%string])] 4278255360 "b")
    as (Hget & _ & Hother & Hkeys).
  split; [exact Hget|]. split; [|exact Hkeys].
  exact (proj1 (Hother 4278190335%Z ltac:(discriminate))).
Defined.

(** ** The colour of a shape *)

Lemma showInt_byte z : (0 <= z < 256)%Z -> showInt z = pretty z.
Proof.
  intros Hz.
  assert (Hall : forallb (fun k => String.eqb (showInt (Z.of_nat k)) (pretty (Z.of_nat k)))
                         (seq 0 256) = true) by (vm_compute; reflexivity).
  rewrite forallb_forall in Hall.
  rewrite <- (Z2Nat.id z) by lia. apply String.eqb_eq, Hall, in_seq. lia.
Qed.

Lemma toFixed_alpha z :
  (0 <= z < 256)%Z ->
  JSNumber.toFixed (F64.div (inject_Z z) 255) 4 = alphaDecimal z.
Proof.
  intros Hz.
  assert (Hall : forallb (fun k => String.eqb
                            (JSNumber.toFixed (F64.div (inject_Z (Z.of_nat k)) 255) 4)
                            (alphaDecimal (Z.of_nat k)))
                         (seq 0 256) = true) by (vm_compute; reflexivity).
  rewrite forallb_forall in Hall.
  rewrite <- (Z2Nat.id z) by lia. apply String.eqb_eq, Hall, in_seq. lia.
Qed.

(** X16. The colour written into a shape is [rgba(r,g,b,a)] with the three
    colour bytes in plain decimal and the alpha byte divided by 255 and
    rounded to the nearest decimal with four fraction digits; the binary
    division never moves the result to a neighbouring decimal. *)
Theorem rgbaOf_decimal (c : Z) :
  rgbaOf c
  = "rgba(" +:+ pretty (redOf c) +:+ "," +:+ pretty (greenOf c) +:+ ","
    +:+ pretty (blueOf c) +:+ "," +:+ alphaDecimal (alphaOf c) +:+ ")".
Proof.
  pose proof (channels_range c) as (R & G & B & A).
  unfold rgbaOf. cbv zeta.
  rewrite !showInt_byte, toFixed_alpha by assumption. reflexivity.
Qed.

(** ** Images without a traceable buffer *)

Section ThinImage.
Local Open Scope Q_scope.

(** A side [s] of an image whose other side [w] is more than
    [s * box * ss] gets the target size 0. *)
Lemma thin_side_zero s w box scale ss :
  (0 <= s)%Z -> (0 < w <= 2 ^ 51)%Z -> (0 < box)%Z -> (0 < ss)%Z ->
  (s * box * ss < w)%Z ->
  0 <= scale -> scale <= 1 -> scale <= F64.div (inject_Z box) (inject_Z w) ->
  F64.floor (F64.mul (F64.mul (inject_Z s) scale) (inject_Z ss)) = 0%Z.
Proof.
  intros Hs [Hw Hwb] Hbox Hss Hthin H0 H1 Hd.
  assert (Qs : 0 <= inject_Z s) by (change 0 with (inject_Z 0%Z); rewrite <- Zle_Qle; exact Hs).
  pose proof (inject_Z_pos w Hw) as Qw. pose proof (inject_Z_pos box Hbox) as Qb.
  pose proof (inject_Z_pos ss Hss) as Qss.
  assert (Qwb : inject_Z w <= 2251799813685248).
  { change 2251799813685248 with (inject_Z (2 ^ 51)). rewrite <- Zle_Qle. exact Hwb. }
  destruct (target_side s scale ss Hs H0 H1 Hss) as (_ & U & _ & [T0 _] & _).
  cbv zeta in U, T0.
  set (t := F64.floor (F64.mul (F64.mul (inject_Z s) scale) (inject_Z ss))) in *.
  set (u := 1 # 9007199254740992) in *.
  destruct (quotient_rounded (inject_Z box) (inject_Z w) Qb Qw) as [_ DU]. fold u in DU.
  set (r := inject_Z s * (inject_Z box / inject_Z w) * inject_Z ss).
  assert (Hr0 : 0 <= r).
  { unfold r. apply Qmult_le_0_compat; [|lra].
    apply Qmult_le_0_compat; [exact Qs|]. apply Qlt_le_weak, Qlt_shift_div_l; lra. }
  assert (Hr : r <= 1 - (1 # 2251799813685248)).
  { assert (E : r == inject_Z (s * box * ss) / inject_Z w).
    { unfold r. rewrite !inject_Z_mult. field. lra. }
    rewrite E. apply Qle_shift_div_r; [exact Qw|].
    assert (A : inject_Z (s * box * ss) <= inject_Z w - 1).
    { assert (Az : (s * box * ss + 1 <= w)%Z) by (clear - Hthin; lia).
      rewrite Zle_Qle, inject_Z_plus in Az. change (inject_Z 1) with 1 in Az. lra. }
    lra. }
  assert (B : inject_Z s * scale * inject_Z ss <= r * (1 + u)).
  { apply Qle_trans with (inject_Z s * (inject_Z box / inject_Z w * (1 + u)) * inject_Z ss).
    - apply Qmult_le_compat_r; [|lra].
      rewrite (Qmult_comm (inject_Z s) scale),
        (Qmult_comm (inject_Z s) (inject_Z box / inject_Z w * (1 + u))).
      apply Qmult_le_compat_r; [|exact Qs]. fold (F64.div (inject_Z box) (inject_Z w)) in DU.
      lra.
    - apply Qle_lteq. right. unfold r. ring. }
  assert (B2 : inject_Z s * scale * inject_Z ss * ((1 + u) * (1 + u))
               <= r * (1 + u) * ((1 + u) * (1 + u))).
  { apply Qmult_le_compat_r; [exact B|]. unfold u. lra. }
  assert (B3 : r * ((1 + u) * ((1 + u) * (1 + u)))
               <= (1 - (1 # 2251799813685248)) * ((1 + u) * ((1 + u) * (1 + u)))).
  { apply Qmult_le_compat_r; [exact Hr|]. unfold u. lra. }
  assert (C : (1 - (1 # 2251799813685248)) * ((1 + u) * ((1 + u) * (1 + u))) < 1)
    by (unfold u; reflexivity).
  assert (T1 : (t < 1)%Z).
  { rewrite Zlt_Qlt. change (inject_Z 1) with 1. lra. }
  clear - T0 T1. lia.
Qed.

Lemma zero_side_zero scale ss :
  F64.floor (F64.mul (F64.mul (inject_Z 0%Z) scale) (inject_Z ss)) = 0%Z.
Proof.
  unfold F64.floor, F64.mul.
  rewrite (round_0 (inject_Z 0%Z * scale)) by apply Qmult_0_l.
  rewrite (round_0 (0 * inject_Z ss)) by apply Qmult_0_l. reflexivity.
Qed.

End ThinImage.

(** X17. An image without a traceable buffer is rejected: when a side of
    the image is 0, or one side is so much longer than the other that the
    scaled shorter side falls below one sub-pixel (height * maxWidth *
    superSample < width, or the same with the sides exchanged), a target
    side is 0, reading the pixels throws, and the promise rejects before
    any progress is reported and without a document. *)
Theorem untraceable_image_rejected (host : Host) (imgUrl : string)
    (options : VectorOptions) (img : Image) :
  loadImage host imgUrl = Some img ->
  (0 < maxWidth options)%Z -> (0 < maxHeight options)%Z ->
  (0 < superSample options)%Z ->
  (0 <= width img <= 2 ^ 51)%Z -> (0 <= height img <= 2 ^ 51)%Z ->
  (width img = 0 \/ height img = 0
   \/ height img * maxWidth options * superSample options < width img
   \/ width img * maxHeight options * superSample options < height img)%Z ->
  let W := Z.to_nat (targetWidthOf options img) in
  let H := Z.to_nat (targetHeightOf options img) in
  (W = 0 \/ H = 0)
  /\ (getContext host W H = true ->
      traceImageToSVG host imgUrl options
      = (Rejected (DomException "IndexSizeError"), []))
  /\ (getContext host W H = false ->
      traceImageToSVG host imgUrl options
      = (Rejected (RuntimeError "Canvas initialization failed"), [])).
Proof.
  intros Hload HmW HmH Hss [Hw Hwb] [Hh Hhb] Hcase. cbv zeta.
  destruct (scaleOf_least options img HmW HmH Hw Hh) as (S0 & S1 & Sw & Sh & _).
  cbv zeta in S0, S1, Sw, Sh.
  assert (Hzero : targetWidthOf options img = 0%Z \/ targetHeightOf options img = 0%Z).
  { destruct Hcase as [E|[E|[T|T]]].
    - left. unfold targetWidthOf. rewrite E. apply zero_side_zero.
    - right. unfold targetHeightOf. rewrite E. apply zero_side_zero.
    - right. unfold targetHeightOf.
      assert (Hw0 : (0 < width img)%Z) by nia.
      apply (thin_side_zero (height img) (width img) (maxWidth options));
        try assumption; try lia.
      + apply Qlt_le_weak, S0.
      + apply Sw. exact Hw0.
    - left. unfold targetWidthOf.
      assert (Hh0 : (0 < height img)%Z) by nia.
      apply (thin_side_zero (width img) (height img) (maxHeight options));
        try assumption; try lia.
      + apply Qlt_le_weak, S0.
      + apply Sh. exact Hh0. }
  assert (Hz : Z.to_nat (targetWidthOf options img) = 0
               \/ Z.to_nat (targetHeightOf options img) = 0).
  { destruct Hzero as [-> | ->]; [left|right]; reflexivity. }
  split; [exact Hz|]. unfold traceImageToSVG. rewrite Hload. cbv zeta. split.
  - intros ->. cbn [negb].
    assert (Ez : (Z.to_nat (targetWidthOf options img) =? 0)
                 || (Z.to_nat (targetHeightOf options img) =? 0) = true).
    { destruct Hz as [-> | ->]; [reflexivity|apply orb_true_r]. }
    rewrite Ez. reflexivity.
  - intros ->. reflexivity.
Qed.

Lemma untraceable_image_rejected_witness :
  let host := mkHost (fun _ => Some (mkImage 10000 1)) (fun _ _ => true)
                     (fun _ _ _ => []) in
  loadImage host "blob:thin" = Some (mkImage 10000 1)
  /\ (0 < maxWidth defaultOptions)%Z /\ (0 < maxHeight defaultOptions)%Z
  /\ (0 < superSample defaultOptions)%Z
  /\ (0 <= 10000 <= 2 ^ 51)%Z /\ (0 <= 1 <= 2 ^ 51)%Z
  /\ (1 * maxWidth defaultOptions * superSample defaultOptions < 10000)%Z
  /\ traceImageToSVG host "blob:thin" defaultOptions
     = (Rejected (DomException "IndexSizeError"), []).
Proof.
  cbv zeta.
  set (host := mkHost (fun _ => Some (mkImage 10000 1)) (fun _ _ => true)
                      (fun _ _ _ => [])).
  assert (H1 : loadImage host "blob:thin" = Some (mkImage 10000 1)) by reflexivity.
  assert (H2 : (0 < maxWidth defaultOptions)%Z) by reflexivity.
  assert (H3 : (0 < maxHeight defaultOptions)%Z) by reflexivity.
  assert (H4 : (0 < superSample defaultOptions)%Z) by reflexivity.
  assert (H5 : (0 <= 10000 <= 2 ^ 51)%Z) by (split; discriminate).
  assert (H6 : (0 <= 1 <= 2 ^ 51)%Z) by (split; discriminate).
  assert (H7 : (1 * maxWidth defaultOptions * superSample defaultOptions < 10000)%Z)
    by reflexivity.
  split; [exact H1|]. split; [exact H2|]. split; [exact H3|]. split; [exact H4|].
  split; [exact H5|]. split; [exact H6|]. split; [exact H7|].
  apply (untraceable_image_rejected host "blob:thin" defaultOptions (mkImage 10000 1)
           H1 H2 H3 H4 H5 H6 (or_intror (or_intror (or_introl H7)))).
  reflexivity.
Defined.

(** ** The bounding box *)

(** X18. An image that already fits the bounding box is not scaled: the
    scale is 1 and each target side is exactly the image side times the
    super-sample factor. *)
Theorem fitting_image_unscaled (options : VectorOptions) (img : Image) :
  (0 < width img <= maxWidth options)%Z ->
  (0 < height img <= maxHeight options)%Z ->
  (0 < superSample options)%Z ->
  (width img * superSample options < 2 ^ 53)%Z ->
  (height img * superSample options < 2 ^ 53)%Z ->
  (scaleOf options img == 1)%Q
  /\ targetWidthOf options img = (width img * superSample options)%Z
  /\ targetHeightOf options img = (height img * superSample options)%Z.
Proof.
  intros Hw Hh Hss Bw Bh.
  pose proof (scale_one options img Hw Hh) as E.
  split; [exact E|]. split.
  - unfold targetWidthOf. apply side_unscaled; [lia|exact Hss|exact Bw|exact E].
  - unfold targetHeightOf. apply side_unscaled; [lia|exact Hss|exact Bh|exact E].
Qed.

Lemma fitting_image_unscaled_witness :
  let img := mkImage 640 480 in
  (0 < width img <= maxWidth defaultOptions)%Z
  /\ (0 < height img <= maxHeight defaultOptions)%Z
  /\ (0 < superSample defaultOptions)%Z
  /\ (width img * superSample defaultOptions < 2 ^ 53)%Z
  /\ (height img * superSample defaultOptions < 2 ^ 53)%Z
  /\ targetWidthOf defaultOptions img = 1280%Z
  /\ targetHeightOf defaultOptions img = 960%Z.
Proof.
  cbv zeta.
  assert (H1 : (0 < width (mkImage 640 480) <= maxWidth defaultOptions)%Z) by (simpl; lia).
  assert (H2 : (0 < height (mkImage 640 480) <= maxHeight defaultOptions)%Z) by (simpl; lia).
  assert (H3 : (0 < superSample defaultOptions)%Z) by (simpl; lia).
  assert (H4 : (width (mkImage 640 480) * superSample defaultOptions < 2 ^ 53)%Z)
    by (simpl; lia).
  assert (H5 : (height (mkImage 640 480) * superSample defaultOptions < 2 ^ 53)%Z)
    by (simpl; lia).
  split; [exact H1|]. split; [exact H2|]. split; [exact H3|].
  split; [exact H4|]. split; [exact H5|].
  exact (proj2 (fitting_image_unscaled defaultOptions (mkImage 640 480) H1 H2 H3 H4 H5)).
Defined.

(** X19. The traced buffer never exceeds the bounding box times the
    super-sample factor, whatever the size of the image: the three
    roundings of the computation cannot carry a side past it (for boxes
    up to 2^51 sub-pixels a side). *)
Theorem target_within_box (options : VectorOptions) (img : Image) :
  (0 < maxWidth options)%Z -> (0 < maxHeight options)%Z ->
  (0 < superSample options)%Z -> (0 < width img)%Z -> (0 < height img)%Z ->
  (maxWidth options * superSample options <= 2 ^ 51)%Z ->
  (maxHeight options * superSample options <= 2 ^ 51)%Z ->
  (targetWidthOf options img <= maxWidth options * superSample options)%Z
  /\ (targetHeightOf options img <= maxHeight options * superSample options)%Z.
Proof.
  intros Hmw Hmh Hss Hw Hh Bw Bh.
  destruct (scaleOf_least options img Hmw Hmh ltac:(lia) ltac:(lia))
    as (S0 & _ & S1 & S2 & _).
  cbv zeta in S0, S1, S2. specialize (S1 Hw). specialize (S2 Hh).
  split.
  - unfold targetWidthOf. apply target_within; try assumption. apply Qlt_le_weak, S0.
  - unfold targetHeightOf. apply target_within; try assumption. apply Qlt_le_weak, S0.
Qed.

Lemma target_within_box_witness :
  let img := mkImage 6000 3000 in
  (0 < maxWidth defaultOptions)%Z /\ (0 < maxHeight defaultOptions)%Z
  /\ (0 < superSample defaultOptions)%Z /\ (0 < width img)%Z /\ (0 < height img)%Z
  /\ (maxWidth defaultOptions * superSample defaultOptions <= 2 ^ 51)%Z
  /\ (maxHeight defaultOptions * superSample defaultOptions <= 2 ^ 51)%Z
  /\ (targetWidthOf defaultOptions img <= 8192)%Z
  /\ (targetHeightOf defaultOptions img <= 8192)%Z.
Proof.
  cbv zeta.
  assert (H1 : (0 < maxWidth defaultOptions)%Z) by (simpl; lia).
  assert (H2 : (0 < maxHeight defaultOptions)%Z) by (simpl; lia).
  assert (H3 : (0 < superSample defaultOptions)%Z) by (simpl; lia).
  assert (H4 : (0 < width (mkImage 6000 3000))%Z) by (simpl; lia).
  assert (H5 : (0 < height (mkImage 6000 3000))%Z) by (simpl; lia).
  assert (H6 : (maxWidth defaultOptions * superSample defaultOptions <= 2 ^ 51)%Z)
    by (simpl; lia).
  assert (H7 : (maxHeight defaultOptions * superSample defaultOptions <= 2 ^ 51)%Z)
    by (simpl; lia).
  split; [exact H1|]. split; [exact H2|]. split; [exact H3|]. split; [exact H4|].
  split; [exact H5|]. split; [exact H6|]. split; [exact H7|].
  exact (target_within_box defaultOptions (mkImage 6000 3000) H1 H2 H3 H4 H5 H6 H7).
Defined.

(** ** Retrying *)

Section RetryFacts.
Local Open Scope Q_scope.

Lemma retries_left (retries : Q) (r : Z) :
  retries == inject_Z r -> (1 <= r < 2 ^ 53)%Z ->
  Qle_bool retries 0 = false /\ F64.sub retries 1 == inject_Z (r - 1).
Proof.
  intros E Hr.
  assert (H1 : 1 <= inject_Z r) by (change 1 with (inject_Z 1%Z); rewrite <- Zle_Qle; lia).
  split.
  - destruct (Qle_bool retries 0) eqn:B; [|reflexivity].
    apply Qle_bool_iff in B. lra.
  - unfold F64.sub.
    assert (E1 : retries - 1 == inject_Z (r - 1)).
    { unfold Z.sub. rewrite inject_Z_plus, inject_Z_opp. change (inject_Z 1) with 1. lra. }
    apply Qeq_trans with (F64.round (inject_Z (r - 1))).
    + apply round_compat; [lra|exact E1].
    + apply round_Z. lia.
Qed.

Lemma delay_doubled (delay : Q) (d : Z) :
  delay == inject_Z d -> (0 <= d)%Z -> (d * 2 < 2 ^ 53)%Z ->
  F64.mul delay 2 == inject_Z (d * 2).
Proof.
  intros E H0 Hd.
  assert (Q0 : 0 <= inject_Z d) by (change 0 with (inject_Z 0%Z); rewrite <- Zle_Qle; lia).
  unfold F64.mul.
  assert (E1 : delay * 2 == inject_Z (d * 2)).
  { rewrite inject_Z_mult. change (inject_Z 2) with 2. lra. }
  apply Qeq_trans with (F64.round (inject_Z (d * 2))).
  - apply round_compat; [lra|exact E1].
  - apply round_Z. lia.
Qed.

End RetryFacts.

Section RetryRuns.

Context {A E : Type}.
Variable fn : nat -> Gemini.Settled A E.

(** A run whose first [k] calls fail and whose next call succeeds. *)
Lemma retry_until_success k :
  forall fuel (retries delay : Q) (r d : Z) (t : Gemini.Trail) (v : A),
    k < fuel ->
    (retries == inject_Z r)%Q -> (Z.of_nat k <= r < 2 ^ 53)%Z ->
    (delay == inject_Z d)%Q -> (0 <= d)%Z -> (d * 2 ^ Z.of_nat k < 2 ^ 53)%Z ->
    (forall i, i < k -> exists e, fn (Gemini.called t + i) = Gemini.Failed e) ->
    fn (Gemini.called t + k) = Gemini.Fulfilled v ->
    exists ws,
      Gemini.fetchWithRetry fn fuel retries delay t
      = Some (Gemini.Fulfilled v,
              Gemini.mkTrail (Gemini.called t + k + 1) (Gemini.waited t ++ ws))
      /\ Forall2 Qeq ws (backoff d k).
Proof.
  induction k as [|k IH]; intros fuel retries delay r d t v Hfuel Er Hr Ed Hd0 Hd Hfail Hok.
  - destruct fuel as [|fuel]; [lia|]. exists []. split; [|constructor].
    simpl. rewrite Nat.add_0_r in Hok. rewrite Hok, Nat.add_0_r, app_nil_r.
    replace (Gemini.called t + 1) with (S (Gemini.called t)) by lia. reflexivity.
  - destruct fuel as [|fuel]; [lia|].
    destruct (Hfail 0 ltac:(lia)) as [e He]. rewrite Nat.add_0_r in He.
    assert (Hp : (2 ^ Z.of_nat (S k) = 2 * 2 ^ Z.of_nat k)%Z).
    { rewrite Nat2Z.inj_succ, Z.pow_succ_r by lia. reflexivity. }
    assert (Hpos : (0 < 2 ^ Z.of_nat k)%Z) by (apply Z.pow_pos_nonneg; lia).
    destruct (retries_left retries r Er ltac:(lia)) as [Hb Er'].
    pose proof (delay_doubled delay d Ed Hd0 ltac:(nia)) as Ed'.
    cbn [Gemini.fetchWithRetry]. rewrite He, Hb.
    cbn [Gemini.called Gemini.waited].
    destruct (IH fuel (F64.sub retries 1) (F64.mul delay 2) (r - 1)%Z (d * 2)%Z
                 (Gemini.mkTrail (S (Gemini.called t)) (Gemini.waited t ++ [delay])) v)
      as (ws & Erun & Hws); try assumption; try lia; try nia.
    + intros i Hi. cbn [Gemini.called].
      replace (S (Gemini.called t) + i) with (Gemini.called t + S i) by lia.
      apply Hfail. lia.
    + cbn [Gemini.called].
      replace (S (Gemini.called t) + k) with (Gemini.called t + S k) by lia. exact Hok.
    + exists (delay :: ws). split.
      * rewrite Erun. cbn [Gemini.called Gemini.waited].
        do 3 f_equal; [lia|]. rewrite <- app_assoc. reflexivity.
      * unfold backoff. cbn [seq map]. constructor.
        -- rewrite Ed. simpl. rewrite Z.mul_1_r. reflexivity.
        -- unfold backoff in Hws. rewrite <- seq_shift, map_map.
           rewrite (map_ext _ (fun i => inject_Z (d * 2 * 2 ^ Z.of_nat i))); [exact Hws|].
           intros i. f_equal. rewrite Nat2Z.inj_succ, Z.pow_succ_r by lia. lia.
Qed.

(** A run whose calls all fail. *)
Lemma retry_until_exhausted n :
  forall fuel (retries delay : Q) (d : Z) (t : Gemini.Trail) (e : E),
    n < fuel ->
    (retries == inject_Z (Z.of_nat n))%Q -> (Z.of_nat n < 2 ^ 53)%Z ->
    (delay == inject_Z d)%Q -> (0 <= d)%Z -> (d * 2 ^ Z.of_nat n < 2 ^ 53)%Z ->
    (forall i, i < n -> exists e', fn (Gemini.called t + i) = Gemini.Failed e') ->
    fn (Gemini.called t + n) = Gemini.Failed e ->
    exists ws,
      Gemini.fetchWithRetry fn fuel retries delay t
      = Some (Gemini.Failed e,
              Gemini.mkTrail (Gemini.called t + n + 1) (Gemini.waited t ++ ws))
      /\ Forall2 Qeq ws (backoff d n).
Proof.
  induction n as [|n IH]; intros fuel retries delay d t e Hfuel Er Hr Ed Hd0 Hd Hfail Hlast.
  - destruct fuel as [|fuel]; [lia|]. exists []. split; [|constructor].
    simpl. rewrite Nat.add_0_r in Hlast. rewrite Hlast, Nat.add_0_r, app_nil_r.
    assert (Hb : Qle_bool retries 0 = true).
    { apply Qle_bool_iff. rewrite Er. simpl. apply Qle_refl. }
    rewrite Hb. replace (Gemini.called t + 1) with (S (Gemini.called t)) by lia.
    reflexivity.
  - destruct fuel as [|fuel]; [lia|].
    destruct (Hfail 0 ltac:(lia)) as [e0 He]. rewrite Nat.add_0_r in He.
    assert (Hp : (2 ^ Z.of_nat (S n) = 2 * 2 ^ Z.of_nat n)%Z).
    { rewrite Nat2Z.inj_succ, Z.pow_succ_r by lia. reflexivity. }
    assert (Hpos : (0 < 2 ^ Z.of_nat n)%Z) by (apply Z.pow_pos_nonneg; lia).
    destruct (retries_left retries (Z.of_nat (S n)) Er ltac:(lia)) as [Hb Er'].
    replace (Z.of_nat (S n) - 1)%Z with (Z.of_nat n) in Er' by lia.
    pose proof (delay_doubled delay d Ed Hd0 ltac:(nia)) as Ed'.
    cbn [Gemini.fetchWithRetry]. rewrite He, Hb.
    cbn [Gemini.called Gemini.waited].
    destruct (IH fuel (F64.sub retries 1) (F64.mul delay 2) (d * 2)%Z
                 (Gemini.mkTrail (S (Gemini.called t)) (Gemini.waited t ++ [delay])) e)
      as (ws & Erun & Hws); try assumption; try lia; try nia.
    + intros i Hi. cbn [Gemini.called].
      replace (S (Gemini.called t) + i) with (Gemini.called t + S i) by lia.
      apply Hfail. lia.
    + cbn [Gemini.called].
      replace (S (Gemini.called t) + n) with (Gemini.called t + S n) by lia. exact Hlast.
    + exists (delay :: ws). split.
      * rewrite Erun. cbn [Gemini.called Gemini.waited].
        do 3 f_equal; [lia|]. rewrite <- app_assoc. reflexivity.
      * unfold backoff. cbn [seq map]. constructor.
        -- rewrite Ed. simpl. rewrite Z.mul_1_r. reflexivity.
        -- unfold backoff in Hws. rewrite <- seq_shift, map_map.
           rewrite (map_ext _ (fun i => inject_Z (d * 2 * 2 ^ Z.of_nat i))); [exact Hws|].
           intros i. f_equal. rewrite Nat2Z.inj_succ, Z.pow_succ_r by lia. lia.
Qed.

(** Whatever the calls do, a run with [n] retries settles. *)
Lemma retry_settles n :
  forall fuel (retries delay : Q) (t : Gemini.Trail),
    n < fuel -> (retries == inject_Z (Z.of_nat n))%Q -> (Z.of_nat n < 2 ^ 53)%Z ->
    exists out t',
      Gemini.fetchWithRetry fn fuel retries delay t = Some (out, t')
      /\ Gemini.called t < Gemini.called t' <= Gemini.called t + n + 1
      /\ length (Gemini.waited t') + Gemini.called t + 1
         = length (Gemini.waited t) + Gemini.called t'
      /\ fn (Gemini.called t' - 1) = out
      /\ (forall i, Gemini.called t <= i < Gemini.called t' - 1 ->
            exists e, fn i = Gemini.Failed e)
      /\ (forall e, out = Gemini.Failed e -> Gemini.called t' = Gemini.called t + n + 1).
Proof.
  induction n as [|n IH]; intros fuel retries delay t Hfuel Er Hr;
    (destruct fuel as [|fuel]; [lia|]); cbn [Gemini.fetchWithRetry].
  - assert (Hb : Qle_bool retries 0 = true).
    { apply Qle_bool_iff. rewrite Er. simpl. apply Qle_refl. }
    destruct (fn (Gemini.called t)) as [v|e] eqn:Ef; [|rewrite Hb];
      eexists; eexists; (split; [reflexivity|]); cbn [Gemini.called Gemini.waited];
      (split; [lia|]); (split; [lia|]);
      (split; [replace (S (Gemini.called t) - 1) with (Gemini.called t) by lia; exact Ef|]);
      (split; [intros i Hi; lia|]); intros e' He'; try discriminate; lia.
  - destruct (fn (Gemini.called t)) as [v|e] eqn:Ef.
    + eexists; eexists; (split; [reflexivity|]); cbn [Gemini.called Gemini.waited].
      split; [lia|]. split; [lia|].
      split; [replace (S (Gemini.called t) - 1) with (Gemini.called t) by lia; exact Ef|].
      split; [intros i Hi; lia|]. intros e' He'. discriminate.
    + destruct (retries_left retries (Z.of_nat (S n)) Er ltac:(lia)) as [Hb Er'].
      replace (Z.of_nat (S n) - 1)%Z with (Z.of_nat n) in Er' by lia.
      rewrite Hb. cbn [Gemini.called Gemini.waited].
      destruct (IH fuel (F64.sub retries 1) (F64.mul delay 2)
                   (Gemini.mkTrail (S (Gemini.called t)) (Gemini.waited t ++ [delay])))
        as (out & t' & Erun & Hc & Hw & Hout & Hbefore & Hfail); [lia|exact Er'|lia|].
      cbn [Gemini.called Gemini.waited] in Hc, Hw, Hbefore, Hfail.
      rewrite length_app in Hw. simpl in Hw.
      exists out, t'. split; [exact Erun|]. split; [lia|]. split; [lia|].
      split; [exact Hout|]. split.
      * intros i Hi. destruct (Nat.eq_dec i (Gemini.called t)) as [->|N].
        -- exists e. exact Ef.
        -- apply Hbefore. lia.
      * intros e' He'. rewrite (Hfail e' He'). lia.
Qed.

End RetryRuns.

(** X20. Retrying stops at the first call that succeeds: when the first
    k calls fail and the next one succeeds, with k no larger than the
    number of retries, the value of that call is returned after exactly
    k + 1 calls, and the waits between the calls were d, 2d, 4d, ... *)
Theorem fetchWithRetry_first_success {A E : Type} (fn : nat -> Gemini.Settled A E)
    (k fuel : nat) (r d : Z) (v : A) :
  k < fuel -> (Z.of_nat k <= r < 2 ^ 53)%Z ->
  (0 <= d)%Z -> (d * 2 ^ Z.of_nat k < 2 ^ 53)%Z ->
  (forall i, i < k -> exists e, fn i = Gemini.Failed e) ->
  fn k = Gemini.Fulfilled v ->
  exists ws,
    Gemini.fetchWithRetry fn fuel (inject_Z r) (inject_Z d) (Gemini.mkTrail 0 [])
    = Some (Gemini.Fulfilled v, Gemini.mkTrail (k + 1) ws)
    /\ Forall2 Qeq ws (backoff d k).
Proof.
  intros Hfuel Hr Hd0 Hd Hfail Hok.
  destruct (retry_until_success fn k fuel (inject_Z r) (inject_Z d) r d
              (Gemini.mkTrail 0 []) v Hfuel ltac:(reflexivity) Hr ltac:(reflexivity)
              Hd0 Hd Hfail Hok) as (ws & Erun & Hws).
  exists ws. split; [exact Erun|exact Hws].
Qed.

Lemma fetchWithRetry_first_success_witness :
  let fn := fun i : nat =>
              if i <? 2 then Gemini.Failed 503%Z else Gemini.Fulfilled (A := nat) i in
  2 < 6 /\ (Z.of_nat 2 <= 5 < 2 ^ 53)%Z /\ (0 <= 1000)%Z
  /\ (1000 * 2 ^ Z.of_nat 2 < 2 ^ 53)%Z
  /\ (forall i, i < 2 -> exists e, fn i = Gemini.Failed e)
  /\ fn 2 = Gemini.Fulfilled 2
  /\ exists ws,
       Gemini.fetchWithRetry fn 6 (inject_Z 5) (inject_Z 1000) (Gemini.mkTrail 0 [])
       = Some (Gemini.Fulfilled 2, Gemini.mkTrail (2 + 1) ws)
       /\ Forall2 Qeq ws (backoff 1000 2).
Proof.
  cbv zeta.
  set (fn := fun i : nat =>
               if i <? 2 then Gemini.Failed 503%Z else Gemini.Fulfilled (A := nat) i).
  assert (H1 : 2 < 6) by lia.
  assert (H2 : (Z.of_nat 2 <= 5 < 2 ^ 53)%Z) by (simpl; lia).
  assert (H3 : (0 <= 1000)%Z) by lia.
  assert (H4 : (1000 * 2 ^ Z.of_nat 2 < 2 ^ 53)%Z) by (simpl; lia).
  assert (H5 : forall i, i < 2 -> exists e, fn i = Gemini.Failed e).
  { intros i Hi. exists 503%Z. destruct i as [|[|i]]; [reflexivity|reflexivity|lia]. }
  assert (H6 : fn 2 = Gemini.Fulfilled 2) by reflexivity.
  split; [exact H1|]. split; [exact H2|]. split; [exact H3|]. split; [exact H4|].
  split; [exact H5|]. split; [exact H6|].
  exact (fetchWithRetry_first_success fn 2 6 5 1000 2 H1 H2 H3 H4 H5 H6).
Defined.

(** X21. When every call fails, retrying gives up after the first call
    and n retries: n + 1 calls in all, waits of d, 2d, ..., 2^(n-1) d
    between them, and the error thrown is the one of the last call. *)
Theorem fetchWithRetry_gives_up {A E : Type} (fn : nat -> Gemini.Settled A E)
    (n fuel : nat) (d : Z) (e : E) :
  n < fuel -> (Z.of_nat n < 2 ^ 53)%Z ->
  (0 <= d)%Z -> (d * 2 ^ Z.of_nat n < 2 ^ 53)%Z ->
  (forall i, i < n -> exists e', fn i = Gemini.Failed e') ->
  fn n = Gemini.Failed e ->
  exists ws,
    Gemini.fetchWithRetry fn fuel (inject_Z (Z.of_nat n)) (inject_Z d) (Gemini.mkTrail 0 [])
    = Some (Gemini.Failed e, Gemini.mkTrail (n + 1) ws)
    /\ Forall2 Qeq ws (backoff d n).
Proof.
  intros Hfuel Hn Hd0 Hd Hfail Hlast.
  destruct (retry_until_exhausted fn n fuel (inject_Z (Z.of_nat n)) (inject_Z d) d
              (Gemini.mkTrail 0 []) e Hfuel ltac:(reflexivity) Hn ltac:(reflexivity)
              Hd0 Hd Hfail Hlast) as (ws & Erun & Hws).
  exists ws. split; [exact Erun|exact Hws].
Qed.

Lemma fetchWithRetry_gives_up_witness :
  let fn := fun i : nat => Gemini.Failed (A := unit) (Z.of_nat i) in
  3 < 4 /\ (Z.of_nat 3 < 2 ^ 53)%Z /\ (0 <= 1000)%Z
  /\ (1000 * 2 ^ Z.of_nat 3 < 2 ^ 53)%Z
  /\ (forall i, i < 3 -> exists e', fn i = Gemini.Failed e')
  /\ fn 3 = Gemini.Failed 3%Z
  /\ exists ws,
       Gemini.fetchWithRetry fn 4 (inject_Z (Z.of_nat 3)) (inject_Z 1000)
         (Gemini.mkTrail 0 [])
       = Some (Gemini.Failed 3%Z, Gemini.mkTrail (3 + 1) ws)
       /\ Forall2 Qeq ws (backoff 1000 3).
Proof.
  cbv zeta.
  set (fn := fun i : nat => Gemini.Failed (A := unit) (Z.of_nat i)).
  assert (H1 : 3 < 4) by lia.
  assert (H2 : (Z.of_nat 3 < 2 ^ 53)%Z) by (simpl; lia).
  assert (H3 : (0 <= 1000)%Z) by lia.
  assert (H4 : (1000 * 2 ^ Z.of_nat 3 < 2 ^ 53)%Z) by (simpl; lia).
  assert (H5 : forall i, i < 3 -> exists e', fn i = Gemini.Failed e').
  { intros i _. eexists. reflexivity. }
  assert (H6 : fn 3 = Gemini.Failed 3%Z) by reflexivity.
  split; [exact H1|]. split; [exact H2|]. split; [exact H3|]. split; [exact H4|].
  split; [exact H5|]. split; [exact H6|].
  exact (fetchWithRetry_gives_up fn 3 4 1000 3%Z H1 H2 H3 H4 H5 H6).
Defined.

(** X22. Retrying always settles: whatever the calls do, a run with n
    retries makes at least one and at most n + 1 calls, waits once
    between two calls, and settles as its last call does, every earlier
    call having failed; it fails only after all n + 1 calls. *)
Theorem fetchWithRetry_settles {A E : Type} (fn : nat -> Gemini.Settled A E)
    (n fuel : nat) (delay : Q) :
  n < fuel -> (Z.of_nat n < 2 ^ 53)%Z ->
  exists out calls ws,
    Gemini.fetchWithRetry fn fuel (inject_Z (Z.of_nat n)) delay (Gemini.mkTrail 0 [])
    = Some (out, Gemini.mkTrail calls ws)
    /\ 1 <= calls <= n + 1
    /\ length ws + 1 = calls
    /\ fn (calls - 1) = out
    /\ (forall i, i < calls - 1 -> exists e, fn i = Gemini.Failed e)
    /\ (forall e, out = Gemini.Failed e -> calls = n + 1).
Proof.
  intros Hfuel Hn.
  destruct (retry_settles fn n fuel (inject_Z (Z.of_nat n)) delay (Gemini.mkTrail 0 [])
              Hfuel ltac:(reflexivity) Hn)
    as (out & [calls ws] & Erun & Hc & Hw & Hout & Hbefore & Hfail).
  cbn [Gemini.called Gemini.waited] in *. simpl in Hw.
  exists out, calls, ws. split; [exact Erun|]. split; [lia|]. split; [lia|].
  split; [exact Hout|]. split.
  - intros i Hi. apply Hbefore. lia.
  - intros e He. rewrite (Hfail e He). lia.
Qed.

Lemma fetchWithRetry_settles_witness :
  let fn := fun i : nat =>
              if i <? 1 then Gemini.Failed 503%Z else Gemini.Fulfilled (A := nat) i in
  5 < 6 /\ (Z.of_nat 5 < 2 ^ 53)%Z
  /\ exists out calls ws,
       Gemini.fetchWithRetry fn 6 (inject_Z (Z.of_nat 5)) 1000%Q (Gemini.mkTrail 0 [])
       = Some (out, Gemini.mkTrail calls ws)
       /\ 1 <= calls <= 5 + 1
       /\ length ws + 1 = calls
       /\ fn (calls - 1) = out
       /\ (forall i, i < calls - 1 -> exists e, fn i = Gemini.Failed e)
       /\ (forall e, out = Gemini.Failed e -> calls = 5 + 1).
Proof.
  cbv zeta.
  assert (H1 : 5 < 6) by lia.
  assert (H2 : (Z.of_nat 5 < 2 ^ 53)%Z) by (simpl; lia).
  split; [exact H1|]. split; [exact H2|].
  exact (fetchWithRetry_settles _ 5 6 1000%Q H1 H2).
Defined.

(** ** Data URLs *)

Lemma splitOn_free sep s : freeOf sep s = true -> Gemini.splitOn sep s = [s].
Proof.
  induction s as [|c s IH]; simpl; [reflexivity|].
  destruct (Ascii.eqb c sep); simpl; [discriminate|].
  intros Hs. rewrite (IH Hs). reflexivity.
Qed.

Lemma splitOn_prefix sep p rest :
  freeOf sep p = true ->
  Gemini.splitOn sep (p +:+ String sep rest) = p :: Gemini.splitOn sep rest.
Proof.
  induction p as [|c p IH]; simpl.
  - intros _. rewrite Ascii.eqb_refl. reflexivity.
  - destruct (Ascii.eqb c sep); simpl; [discriminate|].
    intros Hp. rewrite (IH Hp). reflexivity.
Qed.

Lemma freeOf_app c s1 s2 :
  freeOf c (s1 +:+ s2) = freeOf c s1 && freeOf c s2.
Proof.
  induction s1 as [|a s1 IH]; simpl; [reflexivity|].
  rewrite IH, andb_assoc. reflexivity.
Qed.

(** X23. The payload of a data URL is recovered from the URL the service
    builds: for a media type and a payload without commas, the payload
    not empty, the base64 data taken from [data:<type>;base64,<payload>]
    is the payload; and a string without a comma is taken whole. *)
Theorem data_url_round_trip (mime payload blob : string) :
  freeOf Gemini.comma mime = true -> freeOf Gemini.comma payload = true ->
  payload <> EmptyString -> freeOf Gemini.comma blob = true ->
  Gemini.base64DataOf (Gemini.dataUrl (Gemini.mkInline (Some mime) (Some payload)))
  = payload
  /\ Gemini.base64DataOf blob = blob.
Proof.
  intros Hm Hp Hne Hb. split.
  - unfold Gemini.base64DataOf, Gemini.dataUrl. cbn [Gemini.mimeType Gemini.data Gemini.spliced].
    assert (E : "data:" +:+ mime +:+ ";base64," +:+ payload
                = ("data:" +:+ mime +:+ ";base64") +:+ String Gemini.comma payload).
    { rewrite !append_assoc. reflexivity. }
    rewrite E, splitOn_prefix, (splitOn_free _ payload Hp).
    + cbn [lookup list_lookup].
      destruct (String.eqb_spec payload EmptyString); [contradiction|reflexivity].
    + rewrite !freeOf_app, Hm. reflexivity.
  - unfold Gemini.base64DataOf. rewrite (splitOn_free _ blob Hb). reflexivity.
Qed.

Lemma data_url_round_trip_witness :
  freeOf Gemini.comma "image/png" = true /\ freeOf Gemini.comma "iVBORw0KGgo=" = true
  /\ "iVBORw0KGgo="%string <> EmptyString /\ freeOf Gemini.comma "iVBORw0KGgo=" = true
  /\ Gemini.base64DataOf "data:image/png;base64,iVBORw0KGgo=" = "iVBORw0KGgo="%string.
Proof.
  assert (H1 : freeOf Gemini.comma "image/png" = true) by reflexivity.
  assert (H2 : freeOf Gemini.comma "iVBORw0KGgo=" = true) by reflexivity.
  assert (H3 : "iVBORw0KGgo="%string <> EmptyString) by discriminate.
  split; [exact H1|]. split; [exact H2|]. split; [exact H3|]. split; [exact H2|].
  exact (proj1 (data_url_round_trip "image/png" "iVBORw0KGgo=" "iVBORw0KGgo=" H1 H2 H3 H2)).
Defined.

(** ** The image service *)

Lemma firstImage_none ps :
  Gemini.firstImage ps = None <-> Forall (fun p => Gemini.inlineData p = None) ps.
Proof.
  induction ps as [|p ps IH]; simpl.
  - split; [constructor|reflexivity].
  - destruct (Gemini.inlineData p) eqn:E.
    + split; [discriminate|]. intros HF. apply Forall_cons in HF. destruct HF. congruence.
    + rewrite IH. split; [intros HF; constructor; assumption|].
      intros HF. apply Forall_cons in HF. tauto.
Qed.

Lemma firstImage_some ps url :
  Gemini.firstImage ps = Some url ->
  exists i p d,
    ps !! i = Some p /\ Gemini.inlineData p = Some d /\ url = Gemini.dataUrl d
    /\ (forall j q, j < i -> ps !! j = Some q -> Gemini.inlineData q = None).
Proof.
  induction ps as [|p ps IH]; simpl; [discriminate|].
  destruct (Gemini.inlineData p) as [d|] eqn:E.
  - intros [= <-]. exists 0, p, d. split; [reflexivity|]. split; [exact E|].
    split; [reflexivity|]. intros j q Hj. lia.
  - intros Hu. destruct (IH Hu) as (i & p' & d & Hi & Hd & Eu & Hbefore).
    exists (S i), p', d. split; [exact Hi|]. split; [exact Hd|]. split; [exact Eu|].
    intros [|j] q Hj Hq.
    + simpl in Hq. congruence.
    + apply (Hbefore j q); [lia|exact Hq].
Qed.

(** X24. A call of the image service that keeps failing is given up
    after six attempts: the request is sent six times, after waits of 1,
    2, 4, 8 and 16 seconds, and the promise rejects with the error of the
    sixth attempt. *)
Theorem processAIImage_gives_up {E : Type} (sdk : Gemini.Sdk E) (fuel : nat)
    (modelName imageBlob prompt instruction : string) (e : E) :
  6 <= fuel ->
  Gemini.newClient sdk = None ->
  (forall request i, i < 5 -> exists e', Gemini.generateContent sdk request i = Gemini.Failed e') ->
  (forall request, Gemini.generateContent sdk request 5 = Gemini.Failed e) ->
  exists ws,
    Gemini.processAIImage sdk fuel modelName imageBlob prompt instruction
      (Gemini.mkTrail 0 [])
    = Some (Gemini.Failed e, Gemini.mkTrail 6 ws)
    /\ Forall2 Qeq ws [1000; 2000; 4000; 8000; 16000]%Q.
Proof.
  intros Hfuel Hc Hfail Hlast. unfold Gemini.processAIImage. rewrite Hc.
  set (performCall := Gemini.generateContent sdk _).
  destruct (retry_until_exhausted performCall 5 fuel 5%Q 1000%Q 1000
              (Gemini.mkTrail 0 []) e ltac:(lia) ltac:(reflexivity) ltac:(simpl; lia)
              ltac:(reflexivity) ltac:(lia) ltac:(simpl; lia))
    as (ws & Erun & Hws).
  - intros i Hi. apply Hfail. exact Hi.
  - apply Hlast.
  - exists ws. cbv zeta. rewrite Erun. split; [reflexivity|]. exact Hws.
Qed.

Lemma processAIImage_gives_up_witness :
  let sdk := Gemini.mkSdk Z None (fun _ i => Gemini.Failed (500 + Z.of_nat i)%Z) in
  6 <= 6 /\ Gemini.newClient sdk = None
  /\ (forall request i, i < 5 ->
        exists e', Gemini.generateContent sdk request i = Gemini.Failed e')
  /\ (forall request, Gemini.generateContent sdk request 5 = Gemini.Failed 505%Z)
  /\ exists ws,
       Gemini.processAIImage sdk 6 "gemini-2.5-flash-image" "data:image/png;base64,AAAA"
         "Remove background." "Return ONLY image data." (Gemini.mkTrail 0 [])
       = Some (Gemini.Failed 505%Z, Gemini.mkTrail 6 ws)
       /\ Forall2 Qeq ws [1000; 2000; 4000; 8000; 16000]%Q.
Proof.
  cbv zeta.
  set (sdk := Gemini.mkSdk Z None (fun _ i => Gemini.Failed (500 + Z.of_nat i)%Z)).
  assert (H1 : 6 <= 6) by lia.
  assert (H2 : Gemini.newClient sdk = None) by reflexivity.
  assert (H3 : forall request i, i < 5 ->
            exists e', Gemini.generateContent sdk request i = Gemini.Failed e').
  { intros request i _. eexists. reflexivity. }
  assert (H4 : forall request, Gemini.generateContent sdk request 5 = Gemini.Failed 505%Z)
    by (intros request; reflexivity).
  split; [exact H1|]. split; [exact H2|]. split; [exact H3|]. split; [exact H4|].
  exact (processAIImage_gives_up sdk 6 _ _ _ _ 505%Z H1 H2 H3 H4).
Defined.

(** X25. When one of the six attempts succeeds, the service returns the
    first part of the first candidate that carries inline data, as a data
    URL, and null when no part does; the request of every attempt carries
    the base64 data of the input, labelled [image/png]. *)
Theorem processAIImage_first_image {E : Type} (sdk : Gemini.Sdk E) (k fuel : nat)
    (modelName imageBlob prompt instruction : string) (response : Gemini.Response) :
  k < fuel -> k <= 5 ->
  Gemini.newClient sdk = None ->
  let request := Gemini.mkRequest modelName "image/png" (Gemini.base64DataOf imageBlob)
                   prompt instruction (F64.round (1 # 10)) in
  (forall i, i < k -> exists e, Gemini.generateContent sdk request i = Gemini.Failed e) ->
  Gemini.generateContent sdk request k = Gemini.Fulfilled response ->
  exists result ws,
    Gemini.processAIImage sdk fuel modelName imageBlob prompt instruction
      (Gemini.mkTrail 0 [])
    = Some (Gemini.Fulfilled result, Gemini.mkTrail (k + 1) ws)
    /\ (result = None <->
        Forall (fun p => Gemini.inlineData p = None) (Gemini.partsOf response))
    /\ (forall url, result = Some url ->
          exists i p d,
            Gemini.partsOf response !! i = Some p
            /\ Gemini.inlineData p = Some d /\ url = Gemini.dataUrl d
            /\ (forall j q, j < i -> Gemini.partsOf response !! j = Some q ->
                  Gemini.inlineData q = None)).
Proof.
  intros Hfuel Hk Hc request Hfail Hok.
  assert (Hp : (2 ^ Z.of_nat k <= 2 ^ 5)%Z) by (apply Z.pow_le_mono_r; lia).
  destruct (retry_until_success (Gemini.generateContent sdk request) k fuel 5%Q 1000%Q
              5 1000 (Gemini.mkTrail 0 []) response Hfuel ltac:(reflexivity)
              ltac:(lia) ltac:(reflexivity) ltac:(lia) ltac:(simpl in Hp; lia) Hfail Hok)
    as (ws & Erun & _).
  exists (Gemini.firstImage (Gemini.partsOf response)), ws.
  split; [|split].
  - unfold Gemini.processAIImage. rewrite Hc. cbv zeta. fold request. rewrite Erun.
    reflexivity.
  - apply firstImage_none.
  - intros url. apply firstImage_some.
Qed.

Lemma processAIImage_first_image_witness :
  let image := Gemini.mkInline (Some "image/png"%string) (Some "QUJD"%string) in
  let response :=
    Gemini.mkResponse
      (Some [Gemini.mkCandidate
               (Some (Gemini.mkContent
                        (Some [Gemini.mkPart None (Some "done"%string);
                               Gemini.mkPart (Some image) None])))]) in
  let sdk := Gemini.mkSdk Z None
               (fun _ i => if i <? 1 then Gemini.Failed 503%Z
                           else Gemini.Fulfilled response) in
  let request := Gemini.mkRequest "m" "image/png" (Gemini.base64DataOf "AAAA")
                   "p" "s" (F64.round (1 # 10)) in
  1 < 6 /\ 1 <= 5 /\ Gemini.newClient sdk = None
  /\ (forall i, i < 1 -> exists e, Gemini.generateContent sdk request i = Gemini.Failed e)
  /\ Gemini.generateContent sdk request 1 = Gemini.Fulfilled response
  /\ exists result ws,
       Gemini.processAIImage sdk 6 "m" "AAAA" "p" "s" (Gemini.mkTrail 0 [])
       = Some (Gemini.Fulfilled result, Gemini.mkTrail (1 + 1) ws)
       /\ (result = None <->
           Forall (fun p => Gemini.inlineData p = None) (Gemini.partsOf response))
       /\ (forall url, result = Some url ->
             exists i p d,
               Gemini.partsOf response !! i = Some p
               /\ Gemini.inlineData p = Some d /\ url = Gemini.dataUrl d
               /\ (forall j q, j < i -> Gemini.partsOf response !! j = Some q ->
                     Gemini.inlineData q = None)).
Proof.
  cbv zeta.
  set (image := Gemini.mkInline (Some "image/png"%string) (Some "QUJD"%string)).
  set (response :=
         Gemini.mkResponse
           (Some [Gemini.mkCandidate
                    (Some (Gemini.mkContent
                             (Some [Gemini.mkPart None (Some "done"%string);
                                    Gemini.mkPart (Some image) None])))])).
  set (sdk := Gemini.mkSdk Z None
                (fun _ i => if i <? 1 then Gemini.Failed 503%Z
                            else Gemini.Fulfilled response)).
  assert (H1 : 1 < 6) by lia.
  assert (H2 : 1 <= 5) by lia.
  assert (H3 : Gemini.newClient sdk = None) by reflexivity.
  assert (H4 : forall i, i < 1 ->
            exists e, Gemini.generateContent sdk
                        (Gemini.mkRequest "m" "image/png" (Gemini.base64DataOf "AAAA")
                           "p" "s" (F64.round (1 # 10))) i = Gemini.Failed e).
  { intros i Hi. exists 503%Z. destruct i; [reflexivity|lia]. }
  assert (H5 : Gemini.generateContent sdk
                 (Gemini.mkRequest "m" "image/png" (Gemini.base64DataOf "AAAA")
                    "p" "s" (F64.round (1 # 10))) 1 = Gemini.Fulfilled response)
    by reflexivity.
  split; [exact H1|]. split; [exact H2|]. split; [exact H3|]. split; [exact H4|].
  split; [exact H5|].
  exact (processAIImage_first_image sdk 1 6 "m" "AAAA" "p" "s" response H1 H2 H3 H4 H5).
Defined.

(** ** The vectorize handler *)

Lemma settle_app s l1 l2 : App.settle s (l1 ++ l2) = App.settle (App.settle s l1) l2.
Proof. unfold App.settle. apply foldl_app. Qed.

Lemma settle_progress s reports :
  exists pr,
    App.settle s
      (map (fun reported =>
              App.SetProcessing
                (fun p => App.mkProcessing (App.isProcessing p) reported (App.error p)
                            (App.resultUrl p) (App.resultType p)))
           reports)
    = App.mkProcessing (App.isProcessing s) pr (App.error s)
        (App.resultUrl s) (App.resultType s).
Proof.
  revert s. induction reports as [|r reports IH]; intros s.
  - exists (App.progress s). destruct s. reflexivity.
  - cbn [map]. unfold App.settle. cbn [foldl]. fold (App.settle).
    destruct (IH (App.mkProcessing (App.isProcessing s) r (App.error s)
                    (App.resultUrl s) (App.resultType s))) as [pr E].
    exists pr. unfold App.settle in E. rewrite E. reflexivity.
Qed.

Lemma settle_revoke s (old : option string) rest :
  App.settle s (match old with Some u => [App.RevokeObjectURL u] | None => [] end ++ rest)
  = App.settle s rest.
Proof. destruct old; reflexivity. Qed.

(** X26. A run of the vectorize handler always ends with the busy flag
    cleared, whatever the engine reports on the way. When the engine
    resolves, the state is the new result, typed svg, at 100 percent and
    without error, and an export then downloads it under a name ending in
    [.svg]; when the engine rejects, the earlier result and its type are
    kept, the progress is 0 and the error is the message of the
    rejection. *)
Theorem handleVectorize_settles
    (trace : string -> VectorOptions -> Outcome * list Reported)
    (createObjectURL : string -> string)
    (processing s : App.ProcessingState) (sourceUrl : option string)
    (imageUrl : string) (now : Z) :
  App.currentImageUrl processing sourceUrl = Some imageUrl ->
  App.isProcessing processing = false ->
  let final :=
    App.settle s (App.handleVectorize trace createObjectURL processing sourceUrl) in
  App.isProcessing final = false
  /\ match fst (trace imageUrl (mkOptions 1 4096 4096 2)) with
     | Resolved svgString =>
         final = App.mkProcessing false (Percent 100) App.Null
                   (Some (createObjectURL svgString)) (Some App.svg)
         /\ (createObjectURL svgString <> EmptyString ->
             App.handleExport final now
             = Some (createObjectURL svgString,
                     "pixelpro-v14-elite-export-" +:+ showInt now +:+ ".svg"))
     | Rejected err =>
         final = App.mkProcessing false (Percent 0) (App.messageOf err)
                   (App.resultUrl s) (App.resultType s)
     end.
Proof.
  intros Hurl Hbusy. cbv zeta. unfold App.handleVectorize. rewrite Hurl, Hbusy.
  destruct (trace imageUrl (mkOptions 1 4096 4096 2)) as [outcome reports].
  cbn [fst].
  change (App.settle s (?e :: ?l)) with
    (App.settle (match e with App.SetProcessing u => u s | _ => s end) l).
  cbn beta iota. rewrite settle_app.
  destruct (settle_progress
              (App.mkProcessing true (Percent 0) App.Null (App.resultUrl s)
                 (App.resultType s)) reports) as [pr ->].
  cbn [App.isProcessing App.error App.resultUrl App.resultType].
  destruct outcome as [err|svgString].
  - split; reflexivity.
  - rewrite settle_revoke. split; [reflexivity|]. split; [reflexivity|].
    intros Hne. unfold App.settle, App.handleExport. cbn [foldl App.resultUrl App.resultType].
    unfold App.truthy.
    destruct (String.eqb_spec (createObjectURL svgString) EmptyString); [contradiction|].
    reflexivity.
Qed.

Lemma handleVectorize_settles_witness :
  let trace := fun (_ : string) (_ : VectorOptions) =>
                 (Resolved "<svg/>", [Percent 50; Percent 100]) in
  let createObjectURL := fun _ : string => "blob:result"%string in
  let processing := App.mkProcessing false (Percent 0) App.Null None (Some App.png) in
  App.currentImageUrl processing (Some "blob:source"%string) = Some "blob:source"%string
  /\ App.isProcessing processing = false
  /\ App.settle processing
       (App.handleVectorize trace createObjectURL processing (Some "blob:source"%string))
     = App.mkProcessing false (Percent 100) App.Null (Some "blob:result"%string)
         (Some App.svg).
Proof.
  cbv zeta.
  set (trace := fun (_ : string) (_ : VectorOptions) =>
                  (Resolved "<svg/>", [Percent 50; Percent 100])).
  set (createObjectURL := fun _ : string => "blob:result"%string).
  set (processing := App.mkProcessing false (Percent 0) App.Null None (Some App.png)).
  assert (H1 : App.currentImageUrl processing (Some "blob:source"%string)
               = Some "blob:source"%string) by reflexivity.
  assert (H2 : App.isProcessing processing = false) by reflexivity.
  split; [exact H1|]. split; [exact H2|].
  exact (proj1 (proj2 (handleVectorize_settles trace createObjectURL processing processing
                         (Some "blob:source"%string) "blob:source" 0 H1 H2))).
Defined.

(** X27. The vectorize handler does nothing at all while another
    operation is running or when there is no image: no state update, no
    engine call visible in the state, no URL revoked or created. And the
    only URL it ever revokes is the result captured by the handler, after
    the engine has resolved. *)
Theorem handleVectorize_guard
    (trace : string -> VectorOptions -> Outcome * list Reported)
    (createObjectURL : string -> string)
    (processing : App.ProcessingState) (sourceUrl : option string) :
  (App.isProcessing processing = true
   \/ App.currentImageUrl processing sourceUrl = None ->
   App.handleVectorize trace createObjectURL processing sourceUrl = [])
  /\ (forall url,
        App.RevokeObjectURL url
          ∈ App.handleVectorize trace createObjectURL processing sourceUrl ->
        App.resultUrl processing = Some url
        /\ exists imageUrl svgString,
             App.currentImageUrl processing sourceUrl = Some imageUrl
             /\ fst (trace imageUrl (mkOptions 1 4096 4096 2)) = Resolved svgString).
Proof.
  split.
  - intros [Hb|Hn]; unfold App.handleVectorize.
    + rewrite Hb. destruct (App.currentImageUrl processing sourceUrl); reflexivity.
    + rewrite Hn. reflexivity.
  - intros url Hin. unfold App.handleVectorize in Hin.
    destruct (App.currentImageUrl processing sourceUrl) as [imageUrl|] eqn:Hurl;
      [|apply elem_of_nil in Hin; contradiction].
    destruct (App.isProcessing processing); [apply elem_of_nil in Hin; contradiction|].
    destruct (trace imageUrl (mkOptions 1 4096 4096 2)) as [outcome reports] eqn:Et.
    apply elem_of_cons in Hin. destruct Hin as [Hin|Hin]; [discriminate|].
    apply elem_of_app in Hin. destruct Hin as [Hin|Hin].
    { apply list_elem_of_In, in_map_iff in Hin. destruct Hin as (r & Hr & _). discriminate. }
    destruct outcome as [err|svgString].
    { apply list_elem_of_singleton in Hin. discriminate. }
    apply elem_of_app in Hin. destruct Hin as [Hin|Hin].
    + unfold App.truthy in Hin. destruct (App.resultUrl processing) as [u|] eqn:Eu;
        [|apply elem_of_nil in Hin; contradiction].
      destruct (String.eqb u EmptyString); [apply elem_of_nil in Hin; contradiction|].
      apply list_elem_of_singleton in Hin. injection Hin as ->.
      split; [reflexivity|]. exists imageUrl, svgString. split; [reflexivity|].
      rewrite Et. reflexivity.
    + apply elem_of_cons in Hin. destruct Hin as [Hin|Hin]; [discriminate|].
      apply list_elem_of_singleton in Hin. discriminate.
Qed.

Lemma handleVectorize_guard_witness :
  let trace := fun (_ : string) (_ : VectorOptions) => (Resolved "<svg/>", [Percent 100]) in
  let busy := App.mkProcessing true (Percent 40) App.Null None (Some App.png) in
  (App.isProcessing busy = true \/ App.currentImageUrl busy (Some "blob:source"%string) = None)
  /\ App.handleVectorize trace (fun _ => "blob:result"%string) busy
       (Some "blob:source"%string) = [].
Proof.
  cbv zeta.
  set (busy := App.mkProcessing true (Percent 40) App.Null None (Some App.png)).
  assert (H1 : App.isProcessing busy = true
               \/ App.currentImageUrl busy (Some "blob:source"%string) = None)
    by (left; reflexivity).
  split; [exact H1|].
  exact (proj1 (handleVectorize_guard _ (fun _ => "blob:result"%string) busy
                  (Some "blob:source"%string)) H1).
Defined.

(** X28. With the tracing engine behind it, the vectorize handler turns
    the two failures of the engine into a state that keeps the earlier
    result: a failed context leaves the message of the runtime error, and
    a failed image load leaves no message at all, the rejection being an
    event without one. Nothing is revoked or created on either path. *)
Theorem handleVectorize_engine_failures (host : Host)
    (createObjectURL : string -> string)
    (processing s : App.ProcessingState) (sourceUrl : option string)
    (imageUrl : string) :
  App.currentImageUrl processing sourceUrl = Some imageUrl ->
  App.isProcessing processing = false ->
  let effects :=
    App.handleVectorize (traceImageToSVG host) createObjectURL processing sourceUrl in
  (loadImage host imageUrl = None ->
   length effects = 2
   /\ App.settle s effects
      = App.mkProcessing false (Percent 0) App.Undefined
          (App.resultUrl s) (App.resultType s))
  /\ (forall img,
        loadImage host imageUrl = Some img ->
        getContext host (Z.to_nat (targetWidthOf (mkOptions 1 4096 4096 2) img))
                        (Z.to_nat (targetHeightOf (mkOptions 1 4096 4096 2) img)) = false ->
        length effects = 2
        /\ App.settle s effects
           = App.mkProcessing false (Percent 0)
               (App.Message "Canvas initialization failed")
               (App.resultUrl s) (App.resultType s)).
Proof.
  intros Hurl Hbusy. cbv zeta. unfold App.handleVectorize. rewrite Hurl, Hbusy.
  split.
  - intros Hload. unfold traceImageToSVG. rewrite Hload. split; reflexivity.
  - intros img Hload Hctx. unfold traceImageToSVG. rewrite Hload. cbv zeta.
    rewrite Hctx. split; reflexivity.
Qed.

Lemma handleVectorize_engine_failures_witness :
  let broken := mkHost (fun _ => None) (fun _ _ => true) (fun _ _ _ => []) in
  let processing :=
    App.mkProcessing false (Percent 100) App.Null (Some "blob:old"%string)
      (Some App.png) in
  App.currentImageUrl processing None = Some "blob:old"%string
  /\ App.isProcessing processing = false
  /\ loadImage broken "blob:old" = None
  /\ App.settle processing
       (App.handleVectorize (traceImageToSVG broken) (fun _ => "blob:new"%string)
          processing None)
     = App.mkProcessing false (Percent 0) App.Undefined (Some "blob:old"%string)
         (Some App.png).
Proof.
  cbv zeta.
  set (broken := mkHost (fun _ => None) (fun _ _ => true) (fun _ _ _ => [])).
  set (processing := App.mkProcessing false (Percent 100) App.Null
                       (Some "blob:old"%string) (Some App.png)).
  assert (H1 : App.currentImageUrl processing None = Some "blob:old"%string)
    by reflexivity.
  assert (H2 : App.isProcessing processing = false) by reflexivity.
  assert (H3 : loadImage broken "blob:old" = None) by reflexivity.
  split; [exact H1|]. split; [exact H2|]. split; [exact H3|].
  exact (proj2 (proj1 (handleVectorize_engine_failures broken (fun _ => "blob:new"%string)
                         processing processing None "blob:old" H1 H2) H3)).
Defined.
